(** * The Hugo export of the Anthology: [bin/create_hugo_yaml.py]

    A shallow embedding of [export_anthology] and the properties of the
    record collections it builds (papers by group, people by initial,
    volumes, venues, SIGs) and of its effects on the object graph and on
    the output directory.

    Python dictionaries are finite maps; exceptions are the errors of a
    result monad.  The one dictionary the script writes to without
    copying it, [volume.attrib], lives in a store and is reached by
    reference, so that what the loop does to it is seen by every holder
    of the reference.  The classes of the [anthology] package, which the
    script only calls, are records of the results of these calls. *)

From Stdlib Require Import ZArith Permutation Sorted.
From stdpp Require Import base option list strings gmap fin_maps pretty.

Set Default Proof Using "Type".

(** ** Python values, exceptions and built-ins *)

Module Py.

(** The exceptions that [export_anthology] can let escape. *)
Inductive error : Type :=
  | KeyError          (* d[k], del d[k] on a missing key *)
  | IndexError        (* s[0] on an empty string *)
  | AttributeError    (* None.get(...) *)
  | TypeError         (* ordering, iterating or hashing the wrong type *)
  | OSError.          (* os.mkdir: FileNotFoundError, FileExistsError, ... *)

Inductive result (A : Type) : Type :=
  | Ok (a : A)
  | Raise (e : error).
Arguments Ok {A} a.
Arguments Raise {A} e.

#[global] Instance result_ret : MRet result := λ A a, Ok a.
#[global] Instance result_bind : MBind result := λ A B f m,
  match m with Ok a => f a | Raise e => Raise e end.
#[global] Instance result_fmap : FMap result := λ A B f m,
  match m with Ok a => Ok (f a) | Raise e => Raise e end.

Definition is_ok {A} (m : result A) : bool :=
  match m with Ok _ => true | Raise _ => false end.

(** The values stored in the field dictionaries.  A person name in an
    author or editor list is the string of the raw name.  A Python set is
    represented by the list of its elements in iteration order; a dict
    nested in a record by its items in insertion order. *)
#[local] Unset Elimination Schemes.
Inductive value : Type :=
  | VNone
  | VStr (s : string)
  | VInt (z : Z)
  | VList (l : list value)
  | VDict (d : list (value * value)).

#[local] Set Elimination Schemes.

(** A field dictionary ([as_dict()], [attrib], a venue's fields, an export
    record): string keys, looked up, inserted and deleted by key. *)
Abbreviation dict := (gmap string value).

Section value_ind.
Variable P : value → Prop.
Hypothesis HNone : P VNone.
Hypothesis HStr : ∀ s, P (VStr s).
Hypothesis HInt : ∀ z, P (VInt z).
Hypothesis HList : ∀ l, Forall P l → P (VList l).
Hypothesis HDict : ∀ d, Forall (λ kv, P kv.1 ∧ P kv.2) d → P (VDict d).

Fixpoint value_ind' (v : value) : P v :=
  match v with
  | VNone => HNone
  | VStr s => HStr s
  | VInt z => HInt z
  | VList l =>
      HList l ((fix go (l : list value) : Forall P l :=
                  match l with
                  | [] => Forall_nil_2 P
                  | x :: l' => Forall_cons_2 P x l' (value_ind' x) (go l')
                  end) l)
  | VDict d =>
      HDict d ((fix go (d : list (value * value))
                  : Forall (λ kv, P kv.1 ∧ P kv.2) d :=
                  match d with
                  | [] => Forall_nil_2 _
                  | kv :: d' =>
                      Forall_cons_2 (λ kv, P kv.1 ∧ P kv.2) kv d'
                        (conj (value_ind' kv.1) (value_ind' kv.2)) (go d')
                  end) d)
  end.
End value_ind.

(** Structural equality, computed. *)
Fixpoint value_eqb (x y : value) : bool :=
  match x, y with
  | VNone, VNone => true
  | VStr s, VStr s' => bool_decide (s = s')
  | VInt z, VInt z' => bool_decide (z = z')
  | VList l, VList l' =>
      (fix go (l l' : list value) : bool :=
         match l, l' with
         | [], [] => true
         | a :: l, b :: l' => value_eqb a b && go l l'
         | _, _ => false
         end) l l'
  | VDict d, VDict d' =>
      (fix go (d d' : list (value * value)) : bool :=
         match d, d' with
         | [], [] => true
         | (k, v) :: d, (k', v') :: d' =>
             value_eqb k k' && value_eqb v v' && go d d'
         | _, _ => false
         end) d d'
  | _, _ => false
  end.

(** [x == y] on the values above.  The export compares years, which are
    hashable: for them, and for lists, [==] is structural equality. *)
Definition py_eq (x y : value) : bool := value_eqb x y.

(** *** Ordering and [sorted] *)

(** [x < y]: strings by code point, integers by value, lists element by
    element: the first pair of elements that are not [==] decides, by its
    own [<], and a proper prefix is smaller.  [None], a dict, and two
    values of different types raise TypeError. *)
Fixpoint py_lt (x y : value) : result bool :=
  match x, y with
  | VStr a, VStr b => Ok (String.ltb a b)
  | VInt a, VInt b => Ok (a <? b)%Z
  | VList l, VList k =>
      (fix go (l k : list value) : result bool :=
         match l, k with
         | [], [] => Ok false
         | [], _ :: _ => Ok true
         | _ :: _, [] => Ok false
         | a :: l, b :: k => if value_eqb a b then go l k else py_lt a b
         end) l k
  | _, _ => Raise TypeError
  end.

(** [<] on two lists, as [py_lt] computes it. *)
Fixpoint py_lt_list (l k : list value) : result bool :=
  match l, k with
  | [], [] => Ok false
  | [], _ :: _ => Ok true
  | _ :: _, [] => Ok false
  | a :: l, b :: k => if value_eqb a b then py_lt_list l k else py_lt a b
  end.

(** [x < y] as a truth value, where it is one. *)
Definition val_ltb (x y : value) : bool :=
  match py_lt x y with Ok b => b | Raise _ => false end.

Definition is_str (v : value) : bool :=
  match v with VStr _ => true | _ => false end.
Definition is_int (v : value) : bool :=
  match v with VInt _ => true | _ => false end.

(** Keys that [sorted] can order without a TypeError: [<] is defined
    between every two of them. *)
Definition comparable (ks : list value) : bool :=
  forallb (λ x, forallb (λ y, is_ok (py_lt x y)) ks) ks.

Section isort.
Context {A : Type} (before : A → A → bool).

(** [x] is placed in front of the first element that is not strictly
    before it: elements that compare equal keep their order. *)
Fixpoint insert_stable (x : A) (l : list A) : list A :=
  match l with
  | [] => [x]
  | y :: l' => if before y x then y :: insert_stable x l' else x :: l
  end.

Definition isort (l : list A) : list A := foldr insert_stable [] l.
End isort.

(** Whether [a] has to come strictly before [b]: by ascending key, or by
    descending key with [reverse=True]. *)
Definition key_before {A} (key : A → value) (reverse : bool) (a b : A) : bool :=
  if reverse then val_ltb (key b) (key a) else val_ltb (key a) (key b).

(** [sorted(l, key=key, reverse=reverse)]: a stable sort; with
    [reverse=True] the order of the keys is reversed and elements with
    equal keys still keep their original order.  [sorted] raises the
    TypeError of a comparison it makes.  Which pairs it compares is its
    own business, but a sort has to compare what ends up side by side,
    and for these values a chain of comparisons that go through makes
    its ends comparable ([py_lt_chain] below): two or more keys raise
    TypeError exactly when [<] is undefined between some two of them. *)
Definition py_sorted {A} (key : A → value) (reverse : bool) (l : list A)
    : result (list A) :=
  if comparable (key <$> l) || bool_decide (length l ≤ 1)%nat then
    Ok (isort (key_before key reverse) l)
  else Raise TypeError.

(** [sorted(l, key=lambda p: p[1], reverse=True)] on pairs whose second
    component is an integer count. *)
Definition sorted_by_count_desc {A} (l : list (A * Z)) : list (A * Z) :=
  isort (λ a b, (b.2 <? a.2)%Z) l.

End Py.

Import Py.

(** ** The object graph handed to the export

    The classes of the [anthology] package are represented by what the
    export reads from them: each accessor the script calls is a field
    holding the accessor's result. *)

(** A person name, as the raw name string. *)
Definition PersonName := string.

(** A reference to a dictionary that lives in the object graph. *)
Definition loc := positive.

(** The store of the dictionaries the export can reach by reference;
    a reference without an entry denotes an empty dictionary. *)
Abbreviation heap := (gmap loc (gmap string value)).

(** Modelled from the spec: the class [Paper] of the [anthology] package,
    by the accessors of section 6: the export of all fields as a fresh
    dictionary, the HTML forms of title, booktitle and abstract, the
    publication year, the top-level group id and the full id. *)
Record Paper : Type := {
  paper_as_dict : dict;           (* paper.as_dict() *)
  paper_title_html : value;       (* paper.get_title("html") *)
  paper_booktitle_html : value;   (* paper.get_booktitle("html") *)
  paper_abstract_html : value;    (* paper.get_abstract("html") *)
  paper_year : value;             (* paper.get("year"), None when absent *)
  paper_top_level_id : string;    (* paper.top_level_id *)
  paper_full_id : string          (* paper.full_id *)
}.

(** Modelled from the spec: the person index [anthology.people] and the
    names it enumerates, by the accessors of section 6: the names, each
    name's own fields as a fresh dictionary, slug lookup (which fails for
    a name that is not registered), the canonical or variant
    classification, the aggregates of an identity cluster with its
    variants included, and the variant registration queries. *)
Record PersonIndex : Type := {
  names : list PersonName;                          (* people.names() *)
  name_as_dict : PersonName → dict;                 (* name.as_dict() *)
  get_slug : PersonName → option string;            (* people.get_slug(name) *)
  is_canonical : PersonName → bool;
  get_papers : PersonName → list string;            (* include_variants=True *)
  get_coauthors : PersonName → list (PersonName * Z);
  get_venues : PersonName → list (string * Z);      (* the items of the mapping *)
  has_variants : PersonName → bool;
  get_registered_variants : PersonName → list PersonName;
  get_canonical_variant : PersonName → PersonName
}.

(** Modelled from the spec: the class [Volume], by the accessors of
    section 6: the attribute dictionary (the attribute [attrib] itself,
    hence a reference), the HTML title, the ordered paper ids and the
    full id. *)
Record Volume : Type := {
  volume_attrib : loc;            (* volume.attrib, a reference *)
  volume_title_html : value;      (* volume.get_title("html") *)
  volume_paper_ids : list string; (* volume.paper_ids *)
  volume_full_id : string         (* volume.full_id *)
}.

(** Modelled from the spec: a SIG, by the attributes of section 6: name,
    slug, url, the year to volumes mapping computed upstream, and the
    active years, each as [str] renders it. *)
Record SIG : Type := {
  sig_name : value;
  sig_slug : value;
  sig_url : value;
  sig_volumes_by_year : value;
  sig_years : list string         (* str(year) for each year of sig.years *)
}.

(** Modelled from the spec: the object graph [anthology].  Its mappings
    are kept as their items, in iteration order; a Python dict has no
    two items with the same key.  A venue is the dictionary of its
    fields. *)
Record Anthology : Type := {
  papers : list (string * Paper);
  people : PersonIndex;
  volumes : list (string * Volume);
  venues : list (string * dict);
  sigs : list (string * SIG)
}.

(** [d.get(k)] on a mapping kept as its items. *)
Fixpoint assoc_get {A} (k : string) (items : list (string * A)) : option A :=
  match items with
  | [] => None
  | (k', x) :: rest => if decide (k' = k) then Some x else assoc_get k rest
  end.

(** ** Building the records *)

(** [for x in v]: what iterating a value yields. *)
Definition py_iter (v : value) : result (list value) :=
  match v with
  | VList l => Ok l
  | VDict d => Ok (d.*1)
  | VStr s => Ok ((λ c, VStr (String c EmptyString)) <$> String.list_ascii_of_string s)
  | VNone | VInt _ => Raise TypeError
  end.

(** [anthology.people.get_slug(name)] on an element of a name list: a
    value that is not a registered name is a failed lookup. *)
Definition slug_of (ppl : PersonIndex) (name : value) : result string :=
  match name with
  | VStr n => match get_slug ppl n with Some s => Ok s | None => Raise KeyError end
  | _ => Raise KeyError
  end.

Definition slug_of_name (ppl : PersonIndex) (n : PersonName) : result string :=
  slug_of ppl (VStr n).

(** [if k in data: data[k] = [get_slug(name) for name in data[k]]] *)
Definition resolve_names (ppl : PersonIndex) (k : string) (data : dict)
    : result dict :=
  match data !! k with
  | None => Ok data
  | Some v =>
      ns ← py_iter v;
      slugs ← mapM (slug_of ppl) ns;
      Ok (<[k := VList (VStr <$> slugs)]> data)
  end.

(** [del data[k]] *)
Definition py_del (k : string) (data : dict) : result dict :=
  match data !! k with
  | None => Raise KeyError
  | Some _ => Ok (delete k data)
  end.

(** The body of the paper loop, lines 55-71: the record of one paper. *)
Definition paper_record (ppl : PersonIndex) (paper : Paper) : result dict :=
  let data := paper_as_dict paper in
  let data := <["title_html" := paper_title_html paper]> data in
  data ← py_del "xml_title" data;
  let data :=
    if decide (is_Some (data !! "xml_booktitle")) then
      delete "xml_booktitle"
        (<["booktitle_html" := paper_booktitle_html paper]> data)
    else data in
  let data :=
    if decide (is_Some (data !! "xml_abstract")) then
      delete "xml_abstract"
        (<["abstract_html" := paper_abstract_html paper]> data)
    else data in
  data ← resolve_names ppl "author" data;
  resolve_names ppl "editor" data.

(** An index with two levels of keys, as [defaultdict(dict)]. *)
Abbreviation index2 := (gmap string (gmap string (gmap string value))).

(** [idx[k1][k2] = data] on a [defaultdict(dict)]. *)
Definition index2_set (k1 k2 : string) (data : dict) (idx : index2) : index2 :=
  <[k1 := <[k2 := data]> (default ∅ (idx !! k1))]> idx.

Definition index2_get (k1 k2 : string) (idx : index2) : option dict :=
  idx !! k1 ≫= λ g, g !! k2.

(** Lines 52-72. *)
Fixpoint papers_loop (ppl : PersonIndex) (items : list (string * Paper))
    (idx : index2) : result index2 :=
  match items with
  | [] => Ok idx
  | (_, paper) :: rest =>
      data ← paper_record ppl paper;
      papers_loop ppl rest
        (index2_set (paper_top_level_id paper) (paper_full_id paper) data idx)
  end.

Definition build_papers (a : Anthology) : result index2 :=
  papers_loop (people a) (papers a) ∅.

(** The key of the paper sort, line 84:
    [anthology.papers.get(p).get("year")]. *)
Definition year_key (a : Anthology) (p : string) : result value :=
  match assoc_get p (papers a) with
  | Some paper => Ok (paper_year paper)
  | None => Raise AttributeError
  end.

(** Lines 82-86: the paper ids of an identity cluster, latest year first.
    [sorted] computes the key of every element before it compares any. *)
Definition sorted_papers (a : Anthology) (name : PersonName)
    : result (list string) :=
  let ids := get_papers (people a) name in
  keys ← mapM (year_key a) ids;
  ps ← py_sorted snd true (zip ids keys);
  Ok (ps.*1).

Definition pair_value (p : string * Z) : value := VList [VStr p.1; VInt p.2].

(** Lines 87-96. *)
Definition sorted_coauthors (ppl : PersonIndex) (name : PersonName)
    : result (list (string * Z)) :=
  cs ← mapM (λ co, s ← slug_of_name ppl co.1; Ok (s, co.2))
          (get_coauthors ppl name);
  Ok (sorted_by_count_desc cs).

(** Lines 97-106. *)
Definition sorted_venues (ppl : PersonIndex) (name : PersonName)
    : list (string * Z) :=
  sorted_by_count_desc (get_venues ppl name).

(** [slug[0]]: the first character, as a string. *)
Definition first_char (slug : string) : result string :=
  match slug with
  | EmptyString => Raise IndexError
  | String c _ => Ok (String c EmptyString)
  end.

(** Lines 78-115: the record of one name, with its slug. *)
Definition person_record (a : Anthology) (name : PersonName)
    : result (string * dict) :=
  let ppl := people a in
  let data := name_as_dict ppl name in
  slug ← slug_of_name ppl name;
  let data := <["slug" := VStr slug]> data in
  if is_canonical ppl name then
    ps ← sorted_papers a name;
    let data := <["papers" := VList (VStr <$> ps)]> data in
    cs ← sorted_coauthors ppl name;
    let data := <["coauthors" := VList (pair_value <$> cs)]> data in
    let data :=
      <["venues" := VList (pair_value <$> sorted_venues ppl name)]> data in
    if has_variants ppl name then
      vs ← mapM (slug_of_name ppl) (get_registered_variants ppl name);
      Ok (slug, <["variant_entries" := VList (VStr <$> vs)]> data)
    else Ok (slug, data)
  else
    c ← slug_of_name ppl (get_canonical_variant ppl name);
    Ok (slug, <["canonical_entry" := VStr c]> data).

(** Lines 75-116. *)
Fixpoint people_loop (a : Anthology) (ns : list PersonName) (idx : index2)
    : result index2 :=
  match ns with
  | [] => Ok idx
  | name :: rest =>
      '(slug, data) ← person_record a name;
      c ← first_char slug;
      people_loop a rest (index2_set c slug data idx)
  end.

Definition build_people (a : Anthology) : result index2 :=
  people_loop a (names (people a)) ∅.

(** ** Volumes: records built in place *)

(** Lines 122-135 on the dictionary [volume.attrib] refers to.  [data] is
    that very dictionary, so what is returned is its content when the
    body ends, normally or by an exception. *)
Definition volume_record (ppl : PersonIndex) (volume : Volume) (data : dict)
    : dict * result unit :=
  let data := <["title_html" := volume_title_html volume]> data in
  match py_del "xml_title" data with
  | Raise e => (data, Raise e)
  | Ok data =>
      let data :=
        if decide (is_Some (data !! "xml_abstract")) then
          delete "xml_abstract" data
        else data in
      let data := <["papers" := VList (VStr <$> volume_paper_ids volume)]> data in
      match resolve_names ppl "author" data with
      | Raise e => (data, Raise e)
      | Ok data =>
          match resolve_names ppl "editor" data with
          | Raise e => (data, Raise e)
          | Ok data => (data, Ok ())
          end
      end
  end.

(** The dictionary a reference denotes. *)
Definition deref (h : heap) (l : loc) : dict := default ∅ (h !! l).

(** Lines 119-136.  [volumes[volume.full_id] = data] stores the reference. *)
Fixpoint volumes_loop (ppl : PersonIndex) (items : list (string * Volume))
    (idx : gmap string loc) (h : heap) : heap * result (gmap string loc) :=
  match items with
  | [] => (h, Ok idx)
  | (_, volume) :: rest =>
      let l := volume_attrib volume in
      let '(data, r) := volume_record ppl volume (deref h l) in
      let h := <[l := data]> h in
      match r with
      | Raise e => (h, Raise e)
      | Ok _ => volumes_loop ppl rest (<[volume_full_id volume := l]> idx) h
      end
  end.

Definition build_volumes (a : Anthology) (h : heap)
    : heap * result (gmap string loc) :=
  volumes_loop (people a) (volumes a) ∅ h.

(** ** Venues and SIGs *)

(** [volumes[k]["year"]] on the volume records built above. *)
Definition volume_year (vols : gmap string loc) (h : heap) (k : value)
    : result value :=
  match k with
  | VStr id =>
      match vols !! id with
      | None => Raise KeyError
      | Some l =>
          match deref h l !! "year" with
          | None => Raise KeyError
          | Some y => Ok y
          end
      end
  | VList _ | VDict _ => Raise TypeError   (* unhashable *)
  | VNone | VInt _ => Raise KeyError
  end.

(** [filter(lambda k: volumes[k]["year"] == year, ks)], consumed by
    [sorted]: the test runs on every element. *)
Fixpoint filter_year (vols : gmap string loc) (h : heap) (year : value)
    (ks : list value) : result (list value) :=
  match ks with
  | [] => Ok []
  | k :: rest =>
      y ← volume_year vols h k;
      sel ← filter_year vols h year rest;
      Ok (if py_eq y year then k :: sel else sel)
  end.

(** [d[k] = v] on a dict kept as its items: a present key keeps its
    place; a list or dict is not hashable. *)
Fixpoint items_update (k v : value) (d : list (value * value))
    : list (value * value) :=
  match d with
  | [] => [(k, v)]
  | (k', v') :: rest =>
      if py_eq k' k then (k', v) :: rest else (k', v') :: items_update k v rest
  end.

(** What a dict key has to be. *)
Definition hashable (v : value) : bool :=
  match v with VList _ | VDict _ => false | _ => true end.

Definition items_set (k v : value) (d : list (value * value))
    : result (list (value * value)) :=
  if hashable k then Ok (items_update k v d) else Raise TypeError.

(** Line 143, for one year. *)
Definition volumes_of_year (vols : gmap string loc) (h : heap) (data : dict)
    (year : value) : result value :=
  match data !! "volumes" with
  | None => Raise KeyError
  | Some v =>
      ks ← py_iter v;
      sel ← filter_year vols h year ks;
      sorted ← py_sorted id false sel;
      Ok (VList sorted)
  end.

(** Lines 142-145: the dict comprehension over the sorted years. *)
Fixpoint by_year_loop (vols : gmap string loc) (h : heap) (data : dict)
    (years : list value) (acc : list (value * value))
    : result (list (value * value)) :=
  match years with
  | [] => Ok acc
  | year :: rest =>
      v ← volumes_of_year vols h data year;
      acc ← items_set year v acc;
      by_year_loop vols h data rest acc
  end.

(** [sorted(data["years"])] *)
Definition sorted_years (data : dict) : result (list value) :=
  match data !! "years" with
  | None => Raise KeyError
  | Some v => ys ← py_iter v; py_sorted id false ys
  end.

(** Lines 141-147: the record of one venue, from a copy of its fields. *)
Definition venue_record (vols : gmap string loc) (h : heap) (fields : dict)
    : result dict :=
  let data := fields in
  ys ← sorted_years data;
  by_year ← by_year_loop vols h data ys [];
  let data := <["volumes_by_year" := VDict by_year]> data in
  ys' ← sorted_years data;
  let data := <["years" := VList ys']> data in
  py_del "volumes" data.

(** Lines 139-148. *)
Fixpoint venues_loop (vols : gmap string loc) (h : heap)
    (items : list (string * dict)) (idx : gmap string dict)
    : result (gmap string dict) :=
  match items with
  | [] => Ok idx
  | (acronym, fields) :: rest =>
      data ← venue_record vols h fields;
      venues_loop vols h rest (<[acronym := data]> idx)
  end.

Definition build_venues (a : Anthology) (vols : gmap string loc) (h : heap)
    : result (gmap string dict) :=
  venues_loop vols h (venues a) ∅.

(** Lines 153-159. *)
Definition sig_record (sig : SIG) : dict :=
  {[ "name" := sig_name sig;
     "slug" := sig_slug sig;
     "url" := sig_url sig;
     "volumes_by_year" := sig_volumes_by_year sig;
     "years" := VList (VStr <$> isort String.ltb (sig_years sig)) ]}.

(** Lines 151-160. *)
Definition build_sigs (a : Anthology) : gmap string dict :=
  foldl (λ idx item, <[item.1 := sig_record item.2]> idx) ∅ (sigs a).

(** ** The output directory and the export *)

(** The file system as the script sees it, by the path string handed to
    the OS: the directories that exist, the YAML documents written (a
    document is the mapping that was dumped), and the paths at which
    [os.mkdir] raises an OSError when the script calls it: the parent
    directory is missing (FileNotFoundError), something that is not a
    directory is in the way (FileExistsError), permission is denied.
    [open] in a directory that exists goes through. *)
Record filesystem : Type := {
  dirs : gset string;
  files : gmap string (gmap string dict);
  mkdir_fails : gset string
}.

(** What the export changes: the dictionaries of the object graph and the
    file system. *)
Record world : Type := {
  w_heap : heap;
  w_fs : filesystem
}.

(** The five collections the export computes. *)
Record records : Type := {
  rec_papers : index2;
  rec_people : index2;
  rec_volumes : gmap string loc;
  rec_venues : gmap string dict;
  rec_sigs : gmap string dict
}.

(** Lines 47-49: [os.mkdir(target_dir)] unless it is a directory.  The
    file system is returned as the call leaves it, with what it raised. *)
Definition ensure_dir (outdir subdir : string) (fs : filesystem)
    : filesystem * result unit :=
  let target_dir := outdir +:+ "/" +:+ subdir in
  if decide (target_dir ∈ dirs fs) then (fs, Ok ())
  else if decide (target_dir ∈ mkdir_fails fs) then (fs, Raise OSError)
  else ({| dirs := {[target_dir]} ∪ dirs fs; files := files fs;
           mkdir_fails := mkdir_fails fs |}, Ok ()).

(** The loop of line 46 over the sub-directories: the first [os.mkdir]
    that raises ends it. *)
Fixpoint ensure_dirs (outdir : string) (subdirs : list string) (fs : filesystem)
    : filesystem * result unit :=
  match subdirs with
  | [] => (fs, Ok ())
  | subdir :: rest =>
      let '(fs, r) := ensure_dir outdir subdir fs in
      match r with
      | Raise e => (fs, Raise e)
      | Ok _ => ensure_dirs outdir rest fs
      end
  end.

(** Lines 46-49. *)
Definition make_dirs (outdir : string) (fs : filesystem)
    : filesystem * result unit :=
  ensure_dirs outdir [""; "papers"; "people"] fs.

(** [with open(path, "w") as f: yaml.dump(doc, stream=f)] *)
Definition write_yaml (path : string) (doc : gmap string dict)
    (fs : filesystem) : filesystem :=
  {| dirs := dirs fs; files := <[path := doc]> (files fs);
     mkdir_fails := mkdir_fails fs |}.

(** Lines 51-160: the five builders in the order of the script.  Only the
    volume loop writes to the object graph. *)
Definition build_records (a : Anthology) (h : heap) : heap * result records :=
  match build_papers a with
  | Raise e => (h, Raise e)
  | Ok ps =>
      match build_people a with
      | Raise e => (h, Raise e)
      | Ok pp =>
          let '(h, r) := build_volumes a h in
          match r with
          | Raise e => (h, Raise e)
          | Ok vols =>
              match build_venues a vols h with
              | Raise e => (h, Raise e)
              | Ok vn =>
                  (h, Ok {| rec_papers := ps; rec_people := pp;
                            rec_volumes := vols; rec_venues := vn;
                            rec_sigs := build_sigs a |})
              end
          end
      end
  end.

(** ["{}/papers/{}.yaml".format(outdir, top_level_id)] *)
Definition papers_path (outdir top_level_id : string) : string :=
  outdir +:+ "/papers/" +:+ top_level_id +:+ ".yaml".

(** ["{}/people/{}.yaml".format(outdir, first_letter)] *)
Definition people_path (outdir first_letter : string) : string :=
  outdir +:+ "/people/" +:+ first_letter +:+ ".yaml".

(** [for key, doc in docs.items(): dump doc to path(key)].  The paths of
    different keys differ, so the order of the writes does not show in
    the result. *)
Definition write_each (path : string → string)
    (docs : gmap string (gmap string dict)) (fs : filesystem) : filesystem :=
  map_fold (λ key doc fs, write_yaml (path key) doc fs) fs docs.

(** Lines 164-186: one file per paper group, the three combined files,
    one file per initial. *)
Definition dump_all (outdir : string) (h : heap) (r : records)
    (fs : filesystem) : filesystem :=
  let fs := write_each (papers_path outdir) (rec_papers r) fs in
  let fs := write_yaml (outdir +:+ "/volumes.yaml") (deref h <$> rec_volumes r) fs in
  let fs := write_yaml (outdir +:+ "/venues.yaml") (rec_venues r) fs in
  let fs := write_yaml (outdir +:+ "/sigs.yaml") (rec_sigs r) fs in
  write_each (people_path outdir) (rec_people r) fs.

(** Lines 44-186.  The function returns nothing in Python; the model
    returns the collections it built so that they can be observed.  An
    [os.mkdir] that raises ends the function before any record is
    built. *)
Definition export_anthology (a : Anthology) (outdir : string) (dryrun : bool)
    (w : world) : world * result records :=
  let '(fs, r) := make_dirs outdir (w_fs w) in
  match r with
  | Raise e => ({| w_heap := w_heap w; w_fs := fs |}, Raise e)
  | Ok _ =>
      let '(h, r) := build_records a (w_heap w) in
      match r with
      | Raise e => ({| w_heap := h; w_fs := fs |}, Raise e)
      | Ok recs =>
          let fs := if dryrun then fs else dump_all outdir h recs fs in
          ({| w_heap := h; w_fs := fs |}, Ok recs)
      end
  end.

(** ** Definitions used to state the properties *)

(** What the title, booktitle and abstract steps leave in a record. *)
Definition paper_markup_step (paper : Paper) : dict :=
  let data := delete "xml_title"
                (<["title_html" := paper_title_html paper]> (paper_as_dict paper)) in
  let data :=
    if decide (is_Some (data !! "xml_booktitle")) then
      delete "xml_booktitle"
        (<["booktitle_html" := paper_booktitle_html paper]> data)
    else data in
  if decide (is_Some (data !! "xml_abstract")) then
    delete "xml_abstract" (<["abstract_html" := paper_abstract_html paper]> data)
  else data.

(** The index after a run of [idx[k1][k2] = data] assignments. *)
Definition index2_fill (entries : list (string * string * dict)) (idx : index2)
    : index2 :=
  foldl (λ idx e, index2_set e.1.1 e.1.2 e.2 idx) idx entries.

(** The number of records in an index, over all its groups. *)
Definition index2_size (idx : index2) : nat :=
  map_fold (λ _ (g : gmap string dict) n, size g + n) 0 idx.

(** The assignment of line 72 for one item of [anthology.papers]. *)
Definition paper_entry (ppl : PersonIndex) (item : string * Paper)
    : result (string * string * dict) :=
  data ← paper_record ppl item.2;
  Ok (paper_top_level_id item.2, paper_full_id item.2, data).

(** The publication year the sort of line 84 reads for a paper id. *)
Definition year_of (a : Anthology) (p : string) : value :=
  match year_key a p with Ok y => y | Raise _ => VNone end.

(** The fields the canonical branch adds, lines 82-111. *)
Definition canonical_fields (ppl : PersonIndex) (name : PersonName)
    (ps : list string) (cs : list (string * Z)) (vs : list string)
    (data : dict) : dict :=
  let data := <["papers" := VList (VStr <$> ps)]> data in
  let data := <["coauthors" := VList (pair_value <$> cs)]> data in
  let data := <["venues" := VList (pair_value <$> sorted_venues ppl name)]> data in
  if has_variants ppl name then
    <["variant_entries" := VList (VStr <$> vs)]> data
  else data.

(** The assignment of line 116 for one name. *)
Definition person_entry (a : Anthology) (name : PersonName)
    : result (string * string * dict) :=
  '(slug, data) ← person_record a name;
  c ← first_char slug;
  Ok (c, slug, data).

(** The record a volume's dictionary is turned into when every step of
    lines 123-135 succeeds. *)
Definition volume_markup_step (volume : Volume) (data : dict) : dict :=
  let data := delete "xml_title"
                (<["title_html" := volume_title_html volume]> data) in
  let data :=
    if decide (is_Some (data !! "xml_abstract")) then delete "xml_abstract" data
    else data in
  <["papers" := VList (VStr <$> volume_paper_ids volume)]> data.

(** The references the volume loop assigns under the full ids. *)
Definition volumes_fill (items : list (string * Volume)) (idx : gmap string loc)
    : gmap string loc :=
  foldl (λ idx it, <[volume_full_id it.2 := volume_attrib it.2]> idx) idx items.

(** A flat index after a run of [idx[k] = data] assignments. *)
Definition index_fill {A} (es : list (string * A)) (idx : gmap string A)
    : gmap string A :=
  foldl (λ idx e, <[e.1 := e.2]> idx) idx es.

(** The directories of lines 46-49. *)
Definition target_dirs (outdir : string) : gset string :=
  list_to_set ((λ subdir, outdir +:+ "/" +:+ subdir) <$> [""; "papers"; "people"]).

(** An anthology without entities, and an empty world. *)
Definition empty_people : PersonIndex := {|
  names := [];
  name_as_dict := λ _, ∅;
  get_slug := λ _, None;
  is_canonical := λ _, true;
  get_papers := λ _, [];
  get_coauthors := λ _, [];
  get_venues := λ _, [];
  has_variants := λ _, false;
  get_registered_variants := λ _, [];
  get_canonical_variant := λ n, n
|}.


Definition empty_world : world :=
  {| w_heap := ∅; w_fs := {| dirs := ∅; files := ∅; mkdir_fails := ∅ |} |}.


(** One volume, "Proceedings" of 2020, with one paper id. *)
Definition one_volume : Volume := {|
  volume_attrib := 1%positive;
  volume_title_html := VStr "Proceedings";
  volume_paper_ids := ["2020.acl-main.1"];
  volume_full_id := "2020.acl-main"
|}.

Definition one_volume_anthology : Anthology := {|
  papers := []; people := empty_people;
  volumes := [("2020.acl-main", one_volume)];
  venues := []; sigs := []
|}.

Definition one_volume_world : world := {|
  w_heap := {[ 1%positive :=
                 {[ "xml_title" := VStr "Proceedings"; "year" := VStr "2020" ]} ]};
  w_fs := {| dirs := ∅; files := ∅; mkdir_fails := ∅ |}
|}.



Definition person_ok (a : Anthology) (name : PersonName) : Prop :=
  let ppl := people a in
  (∃ c s, get_slug ppl name = Some (String c s)) ∧
  if is_canonical ppl name then
    Forall (λ p, is_Some (assoc_get p (papers a))) (get_papers ppl name) ∧
    (comparable (year_of a <$> get_papers ppl name) = true ∨
     (length (get_papers ppl name) ≤ 1)%nat) ∧
    Forall (λ co, is_Some (get_slug ppl co.1)) (get_coauthors ppl name) ∧
    (has_variants ppl name = true →
       Forall (λ v, is_Some (get_slug ppl v)) (get_registered_variants ppl name))
  else is_Some (get_slug ppl (get_canonical_variant ppl name)).





(** [os.mkdir] goes through at each of the three directories that does
    not exist yet. *)
Definition dirs_creatable (outdir : string) (fs : filesystem) : Prop :=
  ∀ t, t ∈ target_dirs outdir → t ∉ dirs fs → t ∉ mkdir_fails fs.



(** ** A small anthology

    Two papers of ACL 2019 and 2020, Jane Doe with the variant J. Doe, the
    two volumes of the papers, and the venue ACL; and the records the
    export builds from them. *)

Definition jane : PersonName := "Jane Doe".
Definition j_doe : PersonName := "J. Doe".

Definition paper_2020 : Paper := {|
  paper_as_dict :=
    {[ "xml_title" := VStr "<fixed-case>E</fixed-case>xample Paper";
       "title" := VStr "Example Paper";
       "author" := VList [VStr jane];
       "year" := VStr "2020" ]};
  paper_title_html := VStr "<span>E</span>xample Paper";
  paper_booktitle_html := VNone;
  paper_abstract_html := VNone;
  paper_year := VStr "2020";
  paper_top_level_id := "2020.acl";
  paper_full_id := "2020.acl-main.1"
|}.

Definition paper_2019 : Paper := {|
  paper_as_dict :=
    {[ "xml_title" := VStr "Earlier Paper";
       "title" := VStr "Earlier Paper";
       "xml_abstract" := VStr "We <b>show</b>.";
       "author" := VList [VStr j_doe];
       "editor" := VList [];
       "year" := VStr "2019" ]};
  paper_title_html := VStr "Earlier Paper";
  paper_booktitle_html := VNone;
  paper_abstract_html := VStr "We <b>show</b>.";
  paper_year := VStr "2019";
  paper_top_level_id := "2019.acl";
  paper_full_id := "2019.acl-main.7"
|}.

Definition doe_people : PersonIndex := {|
  names := [jane; j_doe];
  name_as_dict := λ n,
    if decide (n = jane) then {[ "first" := VStr "Jane"; "last" := VStr "Doe" ]}
    else {[ "first" := VStr "J."; "last" := VStr "Doe" ]};
  get_slug := λ n,
    if decide (n = jane) then Some "jane-doe"
    else if decide (n = j_doe) then Some "j-doe" else None;
  is_canonical := λ n, bool_decide (n = jane);
  get_papers := λ _, ["2019.acl-main.7"; "2020.acl-main.1"];
  get_coauthors := λ _, [];
  get_venues := λ _, [("ACL", 2%Z)];
  has_variants := λ n, bool_decide (n = jane);
  get_registered_variants := λ _, [j_doe];
  get_canonical_variant := λ _, jane
|}.

Definition volume_2020 : Volume := {|
  volume_attrib := 1%positive;
  volume_title_html := VStr "Proceedings of ACL 2020";
  volume_paper_ids := ["2020.acl-main.1"];
  volume_full_id := "2020.acl-main"
|}.

Definition volume_2019 : Volume := {|
  volume_attrib := 2%positive;
  volume_title_html := VStr "Proceedings of ACL 2019";
  volume_paper_ids := ["2019.acl-main.7"];
  volume_full_id := "2019.acl-main"
|}.

Definition acl_fields : dict :=
  {[ "name" := VStr "Annual Meeting";
     "years" := VList [VStr "2020"; VStr "2019"];
     "volumes" := VList [VStr "2020.acl-main"; VStr "2019.acl-main"] ]}.

Definition doe_anthology : Anthology := {|
  papers := [("2020.acl-main.1", paper_2020); ("2019.acl-main.7", paper_2019)];
  people := doe_people;
  volumes := [("2020.acl-main", volume_2020); ("2019.acl-main", volume_2019)];
  venues := [("ACL", acl_fields)];
  sigs := []
|}.

Definition doe_heap : heap :=
  {[ 1%positive :=
       {[ "xml_title" := VStr "Proceedings of ACL 2020";
          "xml_abstract" := VStr "All of it.";
          "year" := VStr "2020";
          "editor" := VList [VStr jane] ]};
     2%positive :=
       {[ "xml_title" := VStr "Proceedings of ACL 2019";
          "year" := VStr "2019" ]} ]}.

Definition record_2020 : dict :=
  {[ "title_html" := VStr "<span>E</span>xample Paper";
     "title" := VStr "Example Paper";
     "author" := VList [VStr "jane-doe"];
     "year" := VStr "2020" ]}.

Definition record_2019 : dict :=
  {[ "title_html" := VStr "Earlier Paper";
     "title" := VStr "Earlier Paper";
     "abstract_html" := VStr "We <b>show</b>.";
     "author" := VList [VStr "j-doe"];
     "editor" := VList [];
     "year" := VStr "2019" ]}.

Definition doe_papers_index : index2 :=
  {[ "2020.acl" := {[ "2020.acl-main.1" := record_2020 ]};
     "2019.acl" := {[ "2019.acl-main.7" := record_2019 ]} ]}.

Definition jane_record : dict :=
  {[ "first" := VStr "Jane"; "last" := VStr "Doe";
     "slug" := VStr "jane-doe";
     "papers" := VList [VStr "2020.acl-main.1"; VStr "2019.acl-main.7"];
     "coauthors" := VList [];
     "venues" := VList [VList [VStr "ACL"; VInt 2]];
     "variant_entries" := VList [VStr "j-doe"] ]}.

Definition j_doe_record : dict :=
  {[ "first" := VStr "J."; "last" := VStr "Doe";
     "slug" := VStr "j-doe";
     "canonical_entry" := VStr "jane-doe" ]}.

Definition doe_heap_built : heap :=
  {[ 1%positive :=
       {[ "title_html" := VStr "Proceedings of ACL 2020";
          "year" := VStr "2020";
          "papers" := VList [VStr "2020.acl-main.1"];
          "editor" := VList [VStr "jane-doe"] ]};
     2%positive :=
       {[ "title_html" := VStr "Proceedings of ACL 2019";
          "year" := VStr "2019";
          "papers" := VList [VStr "2019.acl-main.7"] ]} ]}.

Definition doe_volumes_index : gmap string loc :=
  {[ "2020.acl-main" := 1%positive; "2019.acl-main" := 2%positive ]}.

Definition acl_record : dict :=
  {[ "name" := VStr "Annual Meeting";
     "years" := VList [VStr "2019"; VStr "2020"];
     "volumes_by_year" :=
       VDict [(VStr "2019", VList [VStr "2019.acl-main"]);
              (VStr "2020", VList [VStr "2020.acl-main"])] ]}.

(** ** The debug log and the progress bar *)

(** A call of [log.debug] in one of the three loops that log, by the
    entity its message names: the key of the item for a paper (line 54)
    and a volume (line 121), the name for a person (line 77). *)
Inductive log_record : Type :=
  | processing_paper (id_ : string)
  | processing_person (name : PersonName)
  | processing_volume (id_ : string).

(** The messages of the paper loop: the message of an item goes out
    before its record is built, and an exception ends the loop. *)
Fixpoint papers_log (ppl : PersonIndex) (items : list (string * Paper))
    : list log_record :=
  match items with
  | [] => []
  | (id_, paper) :: rest =>
      processing_paper id_ ::
      match paper_record ppl paper with
      | Ok _ => papers_log ppl rest
      | Raise _ => []
      end
  end.

(** The messages of the people loop. *)
Fixpoint people_log (a : Anthology) (ns : list PersonName) : list log_record :=
  match ns with
  | [] => []
  | name :: rest =>
      processing_person name ::
      match person_entry a name with
      | Ok _ => people_log a rest
      | Raise _ => []
      end
  end.

(** The messages of the volume loop, which reads the dictionaries as the
    volumes before have left them. *)
Fixpoint volumes_log (ppl : PersonIndex) (items : list (string * Volume))
    (h : heap) : list log_record :=
  match items with
  | [] => []
  | (id_, volume) :: rest =>
      let l := volume_attrib volume in
      let '(data, r) := volume_record ppl volume (deref h l) in
      processing_volume id_ ::
      match r with
      | Ok _ => volumes_log ppl rest (<[l := data]> h)
      | Raise _ => []
      end
  end.

(** What [export_anthology] hands to [log.debug], in order, once the
    directories of lines 46-49 are there.  The venue loop, the SIG loop
    and the dump do not log. *)
Definition export_log (a : Anthology) (h : heap) : list log_record :=
  papers_log (people a) (papers a) ++
  match build_papers a with
  | Raise _ => []
  | Ok _ =>
      people_log a (names (people a)) ++
      match build_people a with
      | Raise _ => []
      | Ok _ => volumes_log (people a) (volumes a) h
      end
  end.

(** Line 164: the total the progress bar is created with. *)
Definition progress_total (r : records) : nat :=
  size (rec_papers r) + size (rec_people r) + 7.

(** Lines 165-185: what the calls of [progress.update] add up to: one per
    paper file, five for the volumes, one for the venues, one for the
    SIGs, one per people file. *)
Definition progress_steps (r : records) : nat :=
  let n := map_fold (λ _ (_ : gmap string dict) n, n + 1) 0 (rec_papers r) in
  let n := n + 5 in
  let n := n + 1 in
  let n := n + 1 in
  map_fold (λ _ (_ : gmap string dict) n, n + 1) n (rec_people r).

(** ** A second small anthology

    Ann Lee with three coauthors and three venues, two of each with the
    same count, and two SIGs. *)

Definition ann : PersonName := "Ann Lee".

Definition team_people : PersonIndex := {|
  names := [ann];
  name_as_dict := λ _, {[ "first" := VStr "Ann"; "last" := VStr "Lee" ]};
  get_slug := λ n,
    if decide (n = ann) then Some "ann-lee"
    else if decide (n = "Bo Chen") then Some "bo-chen"
    else if decide (n = "Cy Diaz") then Some "cy-diaz"
    else if decide (n = "Di Wu") then Some "di-wu" else None;
  is_canonical := λ _, true;
  get_papers := λ _, [];
  get_coauthors := λ _, [("Bo Chen", 1%Z); ("Cy Diaz", 3%Z); ("Di Wu", 1%Z)];
  get_venues := λ _, [("ACL", 2%Z); ("EMNLP", 5%Z); ("CL", 2%Z)];
  has_variants := λ _, false;
  get_registered_variants := λ _, [];
  get_canonical_variant := λ n, n
|}.

Definition sigdat : SIG := {|
  sig_name := VStr "Linguistic data and corpus-based approaches";
  sig_slug := VStr "sigdat";
  sig_url := VStr "https://www.sigdat.org";
  sig_volumes_by_year := VDict [];
  sig_years := ["2019"; "1996"; "2004"]
|}.

Definition sigann : SIG := {|
  sig_name := VStr "Annotation";
  sig_slug := VStr "sigann";
  sig_url := VNone;
  sig_volumes_by_year := VDict [];
  sig_years := []
|}.

Definition team_anthology : Anthology := {|
  papers := []; people := team_people; volumes := []; venues := [];
  sigs := [("SIGDAT", sigdat); ("SIGANN", sigann)]
|}.

Definition ann_record : dict :=
  {[ "first" := VStr "Ann"; "last" := VStr "Lee";
     "slug" := VStr "ann-lee";
     "papers" := VList [];
     "coauthors" := VList [VList [VStr "cy-diaz"; VInt 3];
                           VList [VStr "bo-chen"; VInt 1];
                           VList [VStr "di-wu"; VInt 1]];
     "venues" := VList [VList [VStr "EMNLP"; VInt 5];
                        VList [VStr "ACL"; VInt 2];
                        VList [VStr "CL"; VInt 2]] ]}.

(** A third small anthology: Jane Doe with a paper of 2020 and a paper
    without a year. *)
Definition paper_undated : Paper := {|
  paper_as_dict := {[ "xml_title" := VStr "Notes" ]};
  paper_title_html := VStr "Notes";
  paper_booktitle_html := VNone;
  paper_abstract_html := VNone;
  paper_year := VNone;
  paper_top_level_id := "W99";
  paper_full_id := "W99-0001"
|}.

Definition undated_anthology : Anthology := {|
  papers := [("2020.acl-main.1", paper_2020); ("W99-0001", paper_undated)];
  people := {|
    names := [jane];
    name_as_dict := λ _, ∅;
    get_slug := λ n, if decide (n = jane) then Some "jane-doe" else None;
    is_canonical := λ _, true;
    get_papers := λ _, ["2020.acl-main.1"; "W99-0001"];
    get_coauthors := λ _, [];
    get_venues := λ _, [];
    has_variants := λ _, false;
    get_registered_variants := λ _, [];
    get_canonical_variant := λ n, n
  |};
  volumes := []; venues := []; sigs := []
|}.

(** The collections a run on the first small anthology builds. *)
Definition doe_records : records := {|
  rec_papers := doe_papers_index;
  rec_people := {[ "j" := {[ "jane-doe" := jane_record; "j-doe" := j_doe_record ]} ]};
  rec_volumes := doe_volumes_index;
  rec_venues := {[ "ACL" := acl_record ]};
  rec_sigs := ∅
|}.

Definition doe_world : world :=
  {| w_heap := doe_heap; w_fs := {| dirs := ∅; files := ∅; mkdir_fails := ∅ |} |}.

(** The world a real run on the first small anthology leaves. *)
Definition doe_world_written : world :=
  (export_anthology doe_anthology "out" false doe_world).1.

(** An anthology with one listed name, whose slug is the empty string. *)
Definition blank_people : PersonIndex := {|
  names := ["?"];
  name_as_dict := λ _, ∅;
  get_slug := λ _, Some EmptyString;
  is_canonical := λ _, false;
  get_papers := λ _, [];
  get_coauthors := λ _, [];
  get_venues := λ _, [];
  has_variants := λ _, false;
  get_registered_variants := λ _, [];
  get_canonical_variant := λ n, n
|}.

Definition blank_anthology : Anthology :=
  {| papers := []; people := blank_people; volumes := []; venues := []; sigs := [] |}.

(** The dictionary of a volume with an author nobody has registered. *)
Definition nobody_fields : dict :=
  {[ "xml_title" := VStr "Proceedings"; "author" := VList [VStr "Nobody"] ]}.

(** Jane Doe, to whom the paper of 2020 is attributed twice. *)
Definition twice_anthology : Anthology := {|
  papers := [("2020.acl-main.1", paper_2020)];
  people := {|
    names := [jane];
    name_as_dict := λ _, ∅;
    get_slug := λ n, if decide (n = jane) then Some "jane-doe" else None;
    is_canonical := λ _, true;
    get_papers := λ _, ["2020.acl-main.1"; "2020.acl-main.1"];
    get_coauthors := λ _, [];
    get_venues := λ _, [];
    has_variants := λ _, false;
    get_registered_variants := λ _, [];
    get_canonical_variant := λ n, n
  |};
  volumes := []; venues := []; sigs := []
|}.

Definition twice_record : dict :=
  {[ "slug" := VStr "jane-doe";
     "papers" := VList [VStr "2020.acl-main.1"; VStr "2020.acl-main.1"];
     "coauthors" := VList [];
     "venues" := VList [] ]}.

(** The variant J. Doe, whose own fields have a [papers] key. *)
Definition tagged_anthology : Anthology := {|
  papers := [];
  people := {|
    names := [j_doe];
    name_as_dict := λ _,
      {[ "first" := VStr "J."; "last" := VStr "Doe"; "papers" := VList [] ]};
    get_slug := λ n, if decide (n = j_doe) then Some "j-doe" else Some "jane-doe";
    is_canonical := λ _, false;
    get_papers := λ _, [];
    get_coauthors := λ _, [];
    get_venues := λ _, [];
    has_variants := λ _, false;
    get_registered_variants := λ _, [];
    get_canonical_variant := λ _, jane
  |};
  volumes := []; venues := []; sigs := []
|}.

Definition tagged_record : dict :=
  {[ "first" := VStr "J."; "last" := VStr "Doe"; "papers" := VList [];
     "slug" := VStr "j-doe"; "canonical_entry" := VStr "jane-doe" ]}.

(** Jane Doe with an empty slug, a paper of 2020 and a paper without a
    year. *)
Definition blank_undated_anthology : Anthology := {|
  papers := papers undated_anthology;
  people := {|
    names := [jane];
    name_as_dict := λ _, ∅;
    get_slug := λ _, Some EmptyString;
    is_canonical := λ _, true;
    get_papers := λ _, ["2020.acl-main.1"; "W99-0001"];
    get_coauthors := λ _, [];
    get_venues := λ _, [];
    has_variants := λ _, false;
    get_registered_variants := λ _, [];
    get_canonical_variant := λ n, n
  |};
  volumes := []; venues := []; sigs := []
|}.

(** The two volumes of the first small anthology when nobody is
    registered: the editor of the first one has no slug. *)
Definition unregistered_anthology : Anthology := {|
  papers := []; people := empty_people;
  volumes := volumes doe_anthology; venues := []; sigs := []
|}.

(** What the failed record of the first volume leaves in its dictionary. *)
Definition volume_2020_stopped : dict :=
  {[ "title_html" := VStr "Proceedings of ACL 2020";
     "year" := VStr "2020";
     "papers" := VList [VStr "2020.acl-main.1"];
     "editor" := VList [VStr jane] ]}.


(** The fields of a venue whose years are a string and an integer. *)
Definition mixed_years_fields : dict :=
  {[ "years" := VList [VStr "2020"; VInt 2019];
     "volumes" := VList [VStr "2020.acl-main"] ]}.

(** * Properties *)

(** ** Equality of values *)

Lemma value_eqb_spec (x y : value) : value_eqb x y = true ↔ x = y.
Proof.
  revert y. induction x as [| s | z | l IH | d IH] using value_ind';
    intros [| s' | z' | l' | d']; simpl; try (split; [discriminate|congruence]);
    try tauto.
  - rewrite bool_decide_eq_true. split; congruence.
  - rewrite bool_decide_eq_true. split; congruence.
  - revert l'. induction IH as [|a l Ha _ IHl]; intros [|b l'];
      try (split; [discriminate|congruence]); try tauto.
    rewrite andb_true_iff, Ha. specialize (IHl l').
    split.
    + intros [-> H]. apply IHl in H. congruence.
    + intros [= -> ->]. split; [done|]. apply IHl. done.
  - revert d'. induction IH as [|[k v] d [Hk Hv] _ IHd]; intros [|[k' v'] d'];
      try (split; [discriminate|congruence]); try tauto.
    simpl in *. rewrite !andb_true_iff, Hk, Hv. specialize (IHd d').
    split.
    + intros [[-> ->] H]. apply IHd in H. congruence.
    + intros [= -> -> ->]. split; [done|]. apply IHd. done.
Qed.

#[global] Instance value_eq_dec : EqDecision value.
Proof.
  intros x y. destruct (value_eqb x y) eqn:E.
  - left. by apply value_eqb_spec.
  - right. intros H. apply value_eqb_spec in H. congruence.
Defined.

(** ** The stable sort *)

Section isort_facts.
Context {A : Type} (before : A → A → bool).

Lemma insert_stable_perm (x : A) (l : list A) :
  insert_stable before x l ≡ₚ x :: l.
Proof.
  induction l as [|y l IH]; simpl; [done|].
  destruct (before y x); [|done].
  rewrite IH. apply Permutation_swap.
Qed.

Lemma isort_perm (l : list A) : isort before l ≡ₚ l.
Proof.
  induction l as [|x l IH]; simpl; [done|].
  rewrite insert_stable_perm. by f_equiv.
Qed.

Lemma isort_length (l : list A) : length (isort before l) = length l.
Proof. apply Permutation_length, isort_perm. Qed.

Lemma isort_short (l : list A) : (length l ≤ 1)%nat → isort before l = l.
Proof. destruct l as [|x [|y l]]; simpl; [done|done|lia]. Qed.

(** Inserting [x] moves it only past elements strictly before it; a
    class of elements that never holds both [x] and such an element is
    left in its order. *)
Lemma filter_insert_stable (P : A → Prop) `{!∀ x, Decision (P x)}
    (x : A) (l : list A) :
  (∀ y, before y x = true → P x → P y → False) →
  filter P (insert_stable before x l) = filter P (x :: l).
Proof.
  intros Hcls. induction l as [|y l IH]; simpl; [done|].
  destruct (before y x) eqn:Hyx; [|done].
  rewrite !filter_cons in *.
  destruct (decide (P y)) as [Hy|Hy], (decide (P x)) as [Hx|Hx];
    try (by rewrite IH); by destruct (Hcls y).
Qed.

Lemma isort_stable (P : A → Prop) `{!∀ x, Decision (P x)} (l : list A) :
  (∀ x y, before y x = true → P x → P y → False) →
  filter P (isort before l) = filter P l.
Proof.
  intros Hcls. induction l as [|x l IH]; simpl; [done|].
  rewrite filter_insert_stable by eauto.
  by rewrite !filter_cons, IH.
Qed.

(** On a domain where [before] is asymmetric and its complement is
    transitive, the result is sorted: no element is strictly before one
    that precedes it. *)
Section sorted.
Context (D : A → Prop).
Hypothesis asym : ∀ x y, D x → D y → before x y = true → before y x = false.
Hypothesis trans : ∀ x y z, D x → D y → D z →
  before y x = false → before z y = false → before z x = false.

Lemma insert_stable_sorted (x : A) (l : list A) :
  D x → Forall D l →
  StronglySorted (λ a b, before b a = false) l →
  StronglySorted (λ a b, before b a = false) (insert_stable before x l).
Proof using asym trans.
  intros Hx HD Hs. induction Hs as [|y l Hs IH Hy]; simpl.
  - repeat constructor.
  - apply Forall_cons in HD as [HDy HD].
    destruct (before y x) eqn:Hyx.
    + constructor; [by apply IH|].
      rewrite insert_stable_perm. constructor; [by apply asym|done].
    + constructor; [by constructor|].
      constructor; [done|].
      rewrite Forall_forall in Hy, HD. apply Forall_forall.
      intros z Hz. apply (trans x y z); auto.
Qed.

Lemma isort_sorted (l : list A) :
  Forall D l → StronglySorted (λ a b, before b a = false) (isort before l).
Proof using asym trans.
  induction 1 as [|x l Hx HD IH]; simpl; [constructor|].
  apply insert_stable_sorted; [done| |done].
  by rewrite isort_perm.
Qed.
End sorted.
End isort_facts.

Lemma insert_stable_fmap {A B} (f : A → B) (before : B → B → bool)
    (x : A) (k : list A) :
  insert_stable before (f x) (f <$> k)
  = f <$> insert_stable (λ a b, before (f a) (f b)) x k.
Proof.
  induction k as [|y k IHk]; csimpl; [done|].
  destruct (before (f y) (f x)); csimpl; [by rewrite IHk|done].
Qed.

Lemma isort_fmap {A B} (f : A → B) (before : B → B → bool) (l : list A) :
  isort before (f <$> l) = f <$> isort (λ a b, before (f a) (f b)) l.
Proof.
  induction l as [|x l IH]; [done|].
  change (insert_stable before (f x) (isort before (f <$> l))
          = f <$> insert_stable (λ a b, before (f a) (f b)) x
                    (isort (λ a b, before (f a) (f b)) l)).
  by rewrite IH, insert_stable_fmap.
Qed.

(** ** The order of strings *)

Lemma ascii_compare_lt_trans (a b c : Ascii.ascii) :
  Ascii.compare a b = Lt → Ascii.compare b c = Lt → Ascii.compare a c = Lt.
Proof.
  unfold Ascii.compare. rewrite !N.compare_lt_iff. lia.
Qed.

Lemma string_compare_lt_trans (s1 s2 s3 : string) :
  String.compare s1 s2 = Lt → String.compare s2 s3 = Lt →
  String.compare s1 s3 = Lt.
Proof.
  revert s2 s3. induction s1 as [|a s1 IH]; intros [|b s2] [|c s3]; simpl;
    try done.
  destruct (Ascii.compare a b) eqn:Hab.
  - apply Ascii.compare_eq_iff in Hab as ->.
    destruct (Ascii.compare b c); [apply IH|done|done].
  - destruct (Ascii.compare b c) eqn:Hbc.
    + apply Ascii.compare_eq_iff in Hbc as ->. by rewrite Hab.
    + intros _ _. by rewrite (ascii_compare_lt_trans a b c).
    + done.
  - done.
Qed.

Lemma string_compare_refl (s : string) : String.compare s s = Eq.
Proof.
  induction s as [|a s IH]; simpl; [done|].
  unfold Ascii.compare. by rewrite N.compare_refl.
Qed.

Lemma string_ltb_irrefl (s : string) : String.ltb s s = false.
Proof. unfold String.ltb. by rewrite string_compare_refl. Qed.

Lemma string_ltb_asym (s t : string) :
  String.ltb s t = true → String.ltb t s = false.
Proof.
  unfold String.ltb. rewrite (String.compare_antisym s t).
  by destruct (String.compare t s).
Qed.

(** [s ≤ t ≤ u] gives [s ≤ u], with [≤] read as "not greater". *)
Lemma string_ltb_neg_trans (s t u : string) :
  String.ltb t s = false → String.ltb u t = false → String.ltb u s = false.
Proof.
  unfold String.ltb.
  destruct (String.compare t s) eqn:Hts; [|done|]; intros _.
  - apply String.compare_eq_iff in Hts as ->. done.
  - destruct (String.compare u t) eqn:Hut; [|done|]; intros _.
    + apply String.compare_eq_iff in Hut as ->. by rewrite Hts.
    + rewrite (String.compare_antisym u s).
      rewrite (string_compare_lt_trans s t u); [done| |].
      * rewrite String.compare_antisym, Hts. done.
      * rewrite String.compare_antisym, Hut. done.
Qed.

(** ** [sorted] on values *)

Lemma py_lt_VList (l k : list value) :
  py_lt (VList l) (VList k) = py_lt_list l k.
Proof. reflexivity. Qed.

Lemma value_eqb_refl (x : value) : value_eqb x x = true.
Proof. by apply value_eqb_spec. Qed.

Lemma value_eqb_sym (x y : value) : value_eqb x y = value_eqb y x.
Proof.
  apply eq_true_iff_eq. rewrite !value_eqb_spec. split; congruence.
Qed.

Lemma value_eqb_false (x y : value) : value_eqb x y = false → x ≠ y.
Proof. intros H ->. by rewrite value_eqb_refl in H. Qed.

(** [x < y] is defined exactly when [y < x] is. *)
Lemma py_lt_sym_ok (x y : value) : is_ok (py_lt x y) = is_ok (py_lt y x).
Proof.
  revert y. induction x as [| s | z | l IH | d IH] using value_ind';
    intros [| s' | z' | k | d']; try reflexivity.
  rewrite !py_lt_VList. revert k.
  induction IH as [|a l Ha _ IHl]; intros [|b k]; try reflexivity.
  simpl. rewrite (value_eqb_sym b a).
  destruct (value_eqb a b); [apply IHl|apply Ha].
Qed.

Lemma py_lt_irrefl (x : value) : py_lt x x ≠ Ok true.
Proof.
  induction x as [| s | z | l IH | d IH] using value_ind'; try done.
  - simpl. by rewrite string_ltb_irrefl.
  - simpl. by rewrite Z.ltb_irrefl.
  - rewrite py_lt_VList. induction IH as [|a l _ _ IHl]; [done|].
    simpl. by rewrite value_eqb_refl.
Qed.

Lemma string_ltb_total (s t : string) :
  String.ltb s t = false → String.ltb t s = false → s = t.
Proof.
  unfold String.ltb. intros H1 H2. apply String.compare_eq_iff.
  rewrite String.compare_antisym in H2.
  destruct (String.compare s t); simpl in *; done.
Qed.

(** Two values neither of which is below the other are the same value. *)
Lemma py_lt_total (x y : value) :
  py_lt x y = Ok false → py_lt y x = Ok false → x = y.
Proof.
  revert y. induction x as [| s | z | l IH | d IH] using value_ind';
    intros [| s' | z' | k | d']; try done.
  - simpl. intros [= H1] [= H2]. f_equal. by apply string_ltb_total.
  - simpl. intros [= H1] [= H2]. f_equal. lia.
  - rewrite !py_lt_VList. intros H1 H2. f_equal. revert k H1 H2.
    induction IH as [|a l Ha _ IHl]; intros [|b k]; try done.
    simpl. rewrite (value_eqb_sym b a).
    destruct (value_eqb a b) eqn:Hab.
    + apply value_eqb_spec in Hab as ->. intros H1 H2. f_equal. by apply IHl.
    + intros H1 H2. apply value_eqb_false in Hab. by destruct (Hab (Ha _ H1 H2)).
Qed.

Lemma py_lt_trans (x y z : value) :
  py_lt x y = Ok true → py_lt y z = Ok true → py_lt x z = Ok true.
Proof.
  revert y z. induction x as [| s | z0 | l IH | d IH] using value_ind';
    intros [| s' | z' | k | d'] [| s'' | z'' | m | d'']; try done.
  - simpl. intros [= H1] [= H2]. f_equal. unfold String.ltb in *.
    destruct (String.compare s s') eqn:E1; try done.
    destruct (String.compare s' s'') eqn:E2; try done.
    by rewrite (string_compare_lt_trans _ _ _ E1 E2).
  - simpl. intros [= H1] [= H2]. f_equal. lia.
  - rewrite !py_lt_VList. revert k m.
    induction IH as [|a l Ha _ IHl]; intros [|b k] [|c m]; try done.
    simpl. destruct (value_eqb a b) eqn:Hab.
    + apply value_eqb_spec in Hab as ->.
      destruct (value_eqb b c) eqn:Hbc; [apply IHl|done].
    + destruct (value_eqb b c) eqn:Hbc.
      * apply value_eqb_spec in Hbc as ->. rewrite Hab. done.
      * intros H1 H2. destruct (value_eqb a c) eqn:Hac; [|by eapply Ha].
        apply value_eqb_spec in Hac as ->.
        destruct (py_lt_irrefl c). by eapply Ha.
Qed.

(** A chain of comparisons that go through makes its ends comparable. *)
Lemma py_lt_chain (x y z : value) :
  py_lt y x = Ok false → py_lt z y = Ok false → is_ok (py_lt x z) = true.
Proof.
  intros Hyx Hzy.
  assert (Hxy : is_ok (py_lt x y) = true) by (by rewrite py_lt_sym_ok, Hyx).
  assert (Hyz : is_ok (py_lt y z) = true) by (by rewrite py_lt_sym_ok, Hzy).
  destruct (py_lt x y) as [[]|] eqn:E1; [| |done].
  - destruct (py_lt y z) as [[]|] eqn:E2; [| |done].
    + by rewrite (py_lt_trans _ _ _ E1 E2).
    + rewrite <- (py_lt_total _ _ E2 Hzy). by rewrite E1.
  - rewrite (py_lt_total _ _ E1 Hyx). exact Hyz.
Qed.

Lemma val_ltb_true (x y : value) : val_ltb x y = true ↔ py_lt x y = Ok true.
Proof. unfold val_ltb. destruct (py_lt x y) as [[]|]; split; congruence. Qed.

Lemma val_ltb_irrefl (v : value) : val_ltb v v = false.
Proof.
  destruct (val_ltb v v) eqn:E; [|done].
  apply val_ltb_true in E. by destruct (py_lt_irrefl v).
Qed.

Lemma val_ltb_asym (x y : value) : val_ltb x y = true → val_ltb y x = false.
Proof.
  intros Hxy%val_ltb_true. destruct (val_ltb y x) eqn:E; [|done].
  apply val_ltb_true in E. destruct (py_lt_irrefl x). by eapply py_lt_trans.
Qed.

Lemma comparable_spec (ks : list value) :
  comparable ks = true ↔ ∀ x y, x ∈ ks → y ∈ ks → is_ok (py_lt x y) = true.
Proof.
  unfold comparable. rewrite <- Is_true_true, forallb_True, Forall_forall.
  split.
  - intros H x y Hx Hy. specialize (H x Hx).
    rewrite forallb_True, Forall_forall in H. apply Is_true_true. by apply H.
  - intros H x Hx. rewrite forallb_True, Forall_forall. intros y Hy.
    apply Is_true_true. by apply H.
Qed.

#[global] Instance comparable_perm : Proper ((≡ₚ) ==> (=)) comparable.
Proof.
  intros l k Hlk. apply eq_true_iff_eq. rewrite !comparable_spec.
  split; intros H x y Hx Hy; apply H;
    first [by rewrite Hlk | by rewrite <- Hlk].
Qed.

(** Among keys that are comparable, "not below" is transitive. *)
Lemma val_ltb_neg_trans (ks : list value) (x y z : value) :
  comparable ks = true → x ∈ ks → y ∈ ks → z ∈ ks →
  val_ltb y x = false → val_ltb z y = false → val_ltb z x = false.
Proof.
  rewrite comparable_spec. intros Hc Hx Hy Hz Hyx Hzy.
  destruct (val_ltb z x) eqn:Hzx; [|done]. apply val_ltb_true in Hzx.
  assert (Hyx' : py_lt y x = Ok false).
  { pose proof (Hc y x Hy Hx) as H. unfold val_ltb in Hyx.
    destruct (py_lt y x) as [[]|]; done. }
  pose proof (Hc x y Hx Hy) as Hxy.
  destruct (py_lt x y) as [[]|] eqn:E; [| |done].
  - pose proof (py_lt_trans _ _ _ Hzx E) as H. apply val_ltb_true in H.
    congruence.
  - rewrite (py_lt_total _ _ E Hyx') in Hzx. apply val_ltb_true in Hzx.
    congruence.
Qed.

Lemma comparable_strings (ks : list value) :
  Forall is_str ks → comparable ks = true.
Proof.
  rewrite Forall_forall. intros H. apply comparable_spec. intros x y Hx Hy.
  apply H in Hx, Hy. by destruct x, y.
Qed.

Lemma comparable_None (ks : list value) :
  VNone ∈ ks → comparable ks = false.
Proof.
  intros H. destruct (comparable ks) eqn:E; [|done].
  rewrite comparable_spec in E. by specialize (E VNone VNone H H).
Qed.

Section py_sorted_facts.
Context {A : Type} (key : A → value) (reverse : bool).

Lemma py_sorted_Ok (l r : list A) :
  py_sorted key reverse l = Ok r → r = isort (key_before key reverse) l.
Proof. unfold py_sorted. case_match; congruence. Qed.

Lemma py_sorted_comparable (l : list A) :
  comparable (key <$> l) = true →
  py_sorted key reverse l = Ok (isort (key_before key reverse) l).
Proof. unfold py_sorted. by intros ->. Qed.

Lemma py_sorted_keys (l r : list A) :
  py_sorted key reverse l = Ok r →
  comparable (key <$> l) = true ∨ (length l ≤ 1)%nat.
Proof.
  unfold py_sorted. case_match eqn:Hc; [|done]. intros _.
  apply orb_true_iff in Hc as [?|?%bool_decide_eq_true]; auto.
Qed.

Lemma py_sorted_perm (l r : list A) : py_sorted key reverse l = Ok r → r ≡ₚ l.
Proof. intros ->%py_sorted_Ok. apply isort_perm. Qed.

Lemma py_sorted_length (l r : list A) :
  py_sorted key reverse l = Ok r → length r = length l.
Proof. intros H. by apply Permutation_length, py_sorted_perm. Qed.

Lemma py_sorted_stable (P : A → Prop) `{!∀ x, Decision (P x)} (l r : list A) :
  (∀ x y, P x → P y → key x = key y) →
  py_sorted key reverse l = Ok r → filter P r = filter P l.
Proof.
  intros Hcls ->%py_sorted_Ok. apply isort_stable.
  intros x y Hb Hx Hy. unfold key_before in Hb.
  rewrite (Hcls x y Hx Hy) in Hb.
  destruct reverse; by rewrite val_ltb_irrefl in Hb.
Qed.

Lemma py_sorted_sorted (l r : list A) :
  py_sorted key reverse l = Ok r →
  StronglySorted (λ a b, key_before key reverse b a = false) r.
Proof.
  unfold py_sorted. case_match eqn:Hc; [|done]. intros [= <-].
  apply orb_true_iff in Hc as [Hc|Hc].
  - apply (isort_sorted _ (λ a, key a ∈ key <$> l)).
    + intros x y _ _. unfold key_before. destruct reverse; apply val_ltb_asym.
    + intros x y z Hx Hy Hz. unfold key_before.
      destruct reverse; intros H1 H2.
      * by apply (val_ltb_neg_trans (key <$> l) (key z) (key y) (key x)).
      * by apply (val_ltb_neg_trans (key <$> l) (key x) (key y) (key z)).
    + apply Forall_forall. intros a Ha. apply list_elem_of_fmap. by exists a.
  - apply bool_decide_eq_true in Hc. rewrite isort_short by done.
    destruct l as [|x [|y l]]; simpl in Hc; [constructor| |lia].
    repeat constructor.
Qed.
End py_sorted_facts.

(** ** Reasoning about results *)

Lemma bind_Ok {A B} (m : result A) (f : A → result B) (b : B) :
  m ≫= f = Ok b ↔ ∃ a, m = Ok a ∧ f a = Ok b.
Proof.
  unfold mbind, result_bind. destruct m as [a|e].
  - split; [eauto|]. by intros (? & [= <-] & ?).
  - split; [done|by intros (? & [=] & ?)].
Qed.

Lemma bind_Raise {A B} (m : result A) (f : A → result B) (e : error) :
  m ≫= f = Raise e ↔ m = Raise e ∨ ∃ a, m = Ok a ∧ f a = Raise e.
Proof.
  unfold mbind, result_bind. destruct m as [a|e'].
  - split; [eauto|]. by intros [[=]|(? & [= <-] & ?)].
  - split; [intros [= ->]; auto|]. intros [[= ->]|(? & [=] & ?)]; done.
Qed.

Ltac inv_result :=
  repeat match goal with
    | H : _ ≫= _ = Ok _ |- _ => apply bind_Ok in H as (? & ? & H)
    | H : Ok _ = Ok _ |- _ => injection H as H
    | H : Raise _ = Ok _ |- _ => discriminate H
    | H : Ok _ = Raise _ |- _ => discriminate H
    | H : mret _ = Ok _ |- _ => injection H as H
    end.

Lemma mapM_Ok {A B} (f : A → result B) (l : list A) (k : list B) :
  mapM f l = Ok k ↔ Forall2 (λ x y, f x = Ok y) l k.
Proof.
  revert k. induction l as [|x l IH]; intros k; simpl.
  - split; [intros [= <-]; constructor|by inversion 1].
  - split.
    + intros H. inv_result. subst. constructor; [done|]. by apply IH.
    + inversion 1 as [|? y ? k' Hx Hl]; subst.
      rewrite Hx. simpl. apply IH in Hl. by rewrite Hl.
Qed.

Lemma mapM_Ok_length {A B} (f : A → result B) (l : list A) (k : list B) :
  mapM f l = Ok k → length k = length l.
Proof. rewrite mapM_Ok. intros H. symmetry. by eapply Forall2_length. Qed.

Lemma mapM_is_Ok {A B} (f : A → result B) (l : list A) :
  Forall (λ x, ∃ y, f x = Ok y) l → ∃ k, mapM f l = Ok k.
Proof.
  induction 1 as [|x l [y Hy] _ [k Hk]]; simpl; [by eexists|].
  rewrite Hy. simpl. rewrite Hk. by eexists.
Qed.

Lemma mapM_Ok_inv {A B} (f : A → result B) (l : list A) (k : list B) :
  mapM f l = Ok k → Forall (λ x, ∃ y, f x = Ok y) l.
Proof.
  rewrite mapM_Ok. induction 1; constructor; eauto.
Qed.

(** ** Name lists *)

(** What [resolve_names] does to a record: a present list under [k] is
    replaced by the slugs of its names, in order; nothing else changes. *)
Lemma resolve_names_Ok (ppl : PersonIndex) (k : string) (d d' : dict) :
  resolve_names ppl k d = Ok d' →
  (d !! k = None ∧ d' = d) ∨
  (∃ v ns slugs, d !! k = Some v ∧ py_iter v = Ok ns ∧
     Forall2 (λ n s, slug_of ppl n = Ok s) ns slugs ∧
     d' = <[k := VList (VStr <$> slugs)]> d).
Proof.
  unfold resolve_names. destruct (d !! k) as [v|] eqn:Hk.
  - intros H. inv_result. subst. right. eexists v, _, _.
    repeat split; [done|]. by apply mapM_Ok.
  - intros [= <-]. by left.
Qed.

Lemma resolve_names_other (ppl : PersonIndex) (k j : string) (d d' : dict) :
  resolve_names ppl k d = Ok d' → j ≠ k → d' !! j = d !! j.
Proof.
  intros [[_ ->]|(v & ns & slugs & _ & _ & _ & ->)]%resolve_names_Ok Hne;
    [done|]. by rewrite lookup_insert_ne.
Qed.

Lemma resolve_names_same (ppl : PersonIndex) (k : string) (d d' : dict) (v : value) :
  resolve_names ppl k d = Ok d' → d !! k = Some v →
  ∃ ns slugs, py_iter v = Ok ns ∧
    Forall2 (λ n s, slug_of ppl n = Ok s) ns slugs ∧
    d' !! k = Some (VList (VStr <$> slugs)).
Proof.
  intros [[Hn _]|(v' & ns & slugs & Hv & Hi & Hs & ->)]%resolve_names_Ok Hk;
    [congruence|].
  assert (v' = v) as -> by congruence.
  exists ns, slugs. by rewrite lookup_insert_eq.
Qed.

Lemma py_del_Ok (k : string) (d d' : dict) :
  py_del k d = Ok d' ↔ is_Some (d !! k) ∧ d' = delete k d.
Proof.
  unfold py_del. destruct (d !! k) eqn:Hk.
  - split; [intros [= <-]; eauto|by intros [_ ->]].
  - split; [done|]. by intros [[? ?] _].
Qed.

(** ** Paper records *)

Lemma paper_record_Ok (ppl : PersonIndex) (paper : Paper) (r : dict) :
  paper_record ppl paper = Ok r ↔
  is_Some (paper_as_dict paper !! "xml_title") ∧
  ∃ d1, resolve_names ppl "author" (paper_markup_step paper) = Ok d1 ∧
        resolve_names ppl "editor" d1 = Ok r.
Proof.
  unfold paper_record, paper_markup_step. split.
  - intros H. apply bind_Ok in H as (d0 & [Hs ->]%py_del_Ok & H).
    apply bind_Ok in H as (d1 & H1 & H2).
    rewrite lookup_insert_ne in Hs by done. eauto.
  - intros (Hs & d1 & H1 & H2).
    apply bind_Ok. eexists. split.
    { apply py_del_Ok. split; [|done]. by rewrite lookup_insert_ne. }
    apply bind_Ok. eauto.
Qed.

(** Lookups of literal keys through the inserts and deletes of a record. *)
Ltac record_lookup :=
  cbv zeta;
  repeat (rewrite ?lookup_delete_ne, ?lookup_insert_ne, ?lookup_insert_eq,
            ?lookup_delete_eq in * by done;
          try case_decide);
  try done; try contradiction.

Lemma paper_markup_title_html (paper : Paper) :
  paper_markup_step paper !! "title_html" = Some (paper_title_html paper).
Proof. unfold paper_markup_step. record_lookup. Qed.

Lemma paper_markup_xml_title (paper : Paper) :
  paper_markup_step paper !! "xml_title" = None.
Proof. unfold paper_markup_step. record_lookup. Qed.

Lemma paper_markup_booktitle (paper : Paper) :
  is_Some (paper_as_dict paper !! "xml_booktitle") →
  paper_markup_step paper !! "booktitle_html" = Some (paper_booktitle_html paper)
  ∧ paper_markup_step paper !! "xml_booktitle" = None.
Proof. intros H. unfold paper_markup_step. split; record_lookup. Qed.

Lemma paper_markup_abstract (paper : Paper) :
  is_Some (paper_as_dict paper !! "xml_abstract") →
  paper_markup_step paper !! "abstract_html" = Some (paper_abstract_html paper)
  ∧ paper_markup_step paper !! "xml_abstract" = None.
Proof. intros H. unfold paper_markup_step. split; record_lookup. Qed.

Lemma paper_markup_names (paper : Paper) (k : string) :
  k = "author" ∨ k = "editor" →
  paper_markup_step paper !! k = paper_as_dict paper !! k.
Proof. intros [->| ->]; unfold paper_markup_step; record_lookup. Qed.

(** Claim C7.  The record built for a paper has [title_html] and no
    [xml_title]; a raw booktitle or abstract key of the paper is replaced
    by [booktitle_html] or [abstract_html]; an author or editor list is
    replaced by the list of the slugs of its names, in the same order. *)
Theorem paper_record_fields (ppl : PersonIndex) (paper : Paper) (r : dict) :
  paper_record ppl paper = Ok r →
  r !! "title_html" = Some (paper_title_html paper) ∧
  r !! "xml_title" = None ∧
  (is_Some (paper_as_dict paper !! "xml_booktitle") →
     r !! "booktitle_html" = Some (paper_booktitle_html paper) ∧
     r !! "xml_booktitle" = None) ∧
  (is_Some (paper_as_dict paper !! "xml_abstract") →
     r !! "abstract_html" = Some (paper_abstract_html paper) ∧
     r !! "xml_abstract" = None) ∧
  (∀ k v, k = "author" ∨ k = "editor" →
     paper_as_dict paper !! k = Some v →
     ∃ ns slugs, py_iter v = Ok ns ∧
       Forall2 (λ n s, slug_of ppl n = Ok s) ns slugs ∧
       r !! k = Some (VList (VStr <$> slugs))).
Proof.
  intros (Ht & d1 & Ha & He)%paper_record_Ok.
  assert (Hother : ∀ j, j ≠ "author" → j ≠ "editor" →
            r !! j = paper_markup_step paper !! j).
  { intros j ? ?.
    rewrite (resolve_names_other _ _ j _ _ He) by done.
    by rewrite (resolve_names_other _ _ j _ _ Ha). }
  split; [|split; [|split; [|split]]].
  - rewrite Hother by done. apply paper_markup_title_html.
  - rewrite Hother by done. apply paper_markup_xml_title.
  - intros H. rewrite !Hother by done. by apply paper_markup_booktitle.
  - intros H. rewrite !Hother by done. by apply paper_markup_abstract.
  - intros k v [->| ->] Hk.
    + rewrite <- paper_markup_names in Hk by auto.
      destruct (resolve_names_same _ _ _ _ _ Ha Hk) as (ns & slugs & ? & ? & Hd1).
      exists ns, slugs. split; [done|]. split; [done|].
      by rewrite (resolve_names_other _ _ "author" _ _ He).
    + rewrite <- paper_markup_names in Hk by auto.
      rewrite <- (resolve_names_other _ _ "editor" _ _ Ha) in Hk by done.
      apply (resolve_names_same _ _ _ _ _ He Hk).
Qed.

(** ** Two-level indexes *)

Lemma index2_get_set (g f g' f' : string) (d : dict) (idx : index2) :
  index2_get g f (index2_set g' f' d idx)
  = if decide (g' = g ∧ f' = f) then Some d else index2_get g f idx.
Proof.
  unfold index2_get, index2_set.
  destruct (decide (g' = g)) as [->|Hg].
  - rewrite lookup_insert_eq. simpl.
    destruct (decide (f' = f)) as [->|Hf].
    + rewrite lookup_insert_eq. by rewrite decide_True.
    + rewrite lookup_insert_ne by done. rewrite decide_False by (by intros []).
      by destruct (idx !! g).
  - rewrite lookup_insert_ne by done. by rewrite decide_False by (by intros []).
Qed.

Lemma index2_get_empty (g f : string) : index2_get g f ∅ = None.
Proof. unfold index2_get. by rewrite lookup_empty. Qed.

Lemma index2_fill_snoc (es : list (string * string * dict))
    (e : string * string * dict) (idx : index2) :
  index2_fill (es ++ [e]) idx = index2_set e.1.1 e.1.2 e.2 (index2_fill es idx).
Proof. unfold index2_fill. by rewrite foldl_snoc. Qed.

(** Every record of the index was assigned, or was there before. *)
Lemma index2_get_fill_inv (es : list (string * string * dict)) (idx : index2)
    (g f : string) (r : dict) :
  index2_get g f (index2_fill es idx) = Some r →
  (g, f, r) ∈ es ∨ index2_get g f idx = Some r.
Proof.
  induction es as [|[[g' f'] d] es IH] using rev_ind; [by right|].
  rewrite index2_fill_snoc, index2_get_set. simpl. case_decide as Hk.
  - destruct Hk as [-> ->]. intros [= ->]. left. set_solver.
  - intros [?|?]%IH; [left; set_solver|by right].
Qed.

(** With pairwise different key pairs no assignment overwrites another. *)
Lemma index2_get_fill (es : list (string * string * dict)) (idx : index2)
    (g f : string) (r : dict) :
  NoDup (es.*1) → (g, f, r) ∈ es →
  index2_get g f (index2_fill es idx) = Some r.
Proof.
  induction es as [|[[g' f'] d] es IH] using rev_ind; [set_solver|].
  rewrite fmap_app, NoDup_app. simpl. intros (Hnd & Hfresh & _) Hin.
  rewrite index2_fill_snoc, index2_get_set. simpl.
  apply elem_of_app in Hin as [Hin|Hin].
  - rewrite decide_False; [by apply IH|].
    intros [-> ->]. apply (Hfresh (g, f)); [|set_solver].
    apply list_elem_of_fmap. by exists (g, f, r).
  - apply list_elem_of_singleton in Hin as [= -> -> ->].
    by rewrite decide_True.
Qed.

Lemma index2_get_fill_None (es : list (string * string * dict))
    (g f : string) :
  (g, f) ∉ es.*1 → index2_get g f (index2_fill es ∅) = None.
Proof.
  intros Hn. destruct (index2_get g f (index2_fill es ∅)) as [r|] eqn:H; [|done].
  apply index2_get_fill_inv in H as [H|H].
  - destruct Hn. apply list_elem_of_fmap. by exists (g, f, r).
  - by rewrite index2_get_empty in H.
Qed.

Lemma index2_size_set (g f : string) (d : dict) (idx : index2) :
  index2_get g f idx = None →
  index2_size (index2_set g f d idx) = S (index2_size idx).
Proof.
  unfold index2_get, index2_set, index2_size. intros Hn.
  destruct (idx !! g) as [grp|] eqn:Hg; simpl in *.
  - rewrite <- (insert_delete_eq idx).
    rewrite map_fold_insert_L;
      [|intros; simpl; lia|by rewrite lookup_delete_eq].
    rewrite (map_fold_delete_L _ _ g grp idx); [|intros; simpl; lia|done].
    rewrite map_size_insert_None by done. lia.
  - rewrite map_fold_insert_L; [|intros; simpl; lia|done].
    rewrite map_size_insert_None by done. by rewrite map_size_empty.
Qed.

Lemma index2_size_fill (es : list (string * string * dict)) :
  NoDup (es.*1) → index2_size (index2_fill es ∅) = length es.
Proof.
  induction es as [|[[g f] d] es IH] using rev_ind; intros Hnd.
  - unfold index2_size, index2_fill. simpl. apply map_fold_empty.
  - rewrite fmap_app, NoDup_app in Hnd. destruct Hnd as (Hnd & Hfresh & _).
    rewrite index2_fill_snoc, length_app. simpl.
    rewrite index2_size_set; [rewrite IH by done; lia|].
    apply index2_get_fill_None. intros Hin. apply (Hfresh _ Hin).
    apply list_elem_of_here.
Qed.

Lemma Forall2_elem_of_l {A B} (P : A → B → Prop) (l : list A) (k : list B) (x : A) :
  Forall2 P l k → x ∈ l → ∃ y, y ∈ k ∧ P x y.
Proof.
  intros HF (i & Hi)%list_elem_of_lookup.
  destruct (Forall2_lookup_l _ _ _ _ _ HF Hi) as (y & Hy & HP).
  exists y. split; [|done]. apply list_elem_of_lookup. eauto.
Qed.

Lemma Forall2_elem_of_r {A B} (P : A → B → Prop) (l : list A) (k : list B) (y : B) :
  Forall2 P l k → y ∈ k → ∃ x, x ∈ l ∧ P x y.
Proof.
  intros HF (i & Hi)%list_elem_of_lookup.
  destruct (Forall2_lookup_r _ _ _ _ _ HF Hi) as (x & Hx & HP).
  exists x. split; [|done]. apply list_elem_of_lookup. eauto.
Qed.

Lemma Forall2_fmap_eq {A B C} (f : A → result B) (g : A → C) (h : B → C)
    (l : list A) (k : list B) :
  (∀ x y, f x = Ok y → h y = g x) →
  Forall2 (λ x y, f x = Ok y) l k → h <$> k = g <$> l.
Proof.
  intros Hfg. induction 1 as [|x y l k Hxy _ IH]; csimpl; [done|].
  by rewrite IH, (Hfg x y).
Qed.

Lemma NoDup_fst_functional {A} (l : list (string * A)) (k : string) (x y : A) :
  NoDup (l.*1) → (k, x) ∈ l → (k, y) ∈ l → x = y.
Proof.
  induction l as [|[k' z] l IH]; csimpl; [by intros _ ?%elem_of_nil|].
  rewrite NoDup_cons. intros [Hk Hnd].
  rewrite !elem_of_cons. intros [[= -> ->]|Hx] [[= ->]|Hy]; try done.
  - destruct Hk. apply list_elem_of_fmap. by exists (k', y).
  - subst. destruct Hk. apply list_elem_of_fmap. by exists (k', x).
  - by apply IH.
Qed.

(** ** The paper index *)

Lemma papers_loop_Ok (ppl : PersonIndex) (items : list (string * Paper))
    (idx idx' : index2) :
  papers_loop ppl items idx = Ok idx' ↔
  ∃ es, Forall2 (λ it e, paper_entry ppl it = Ok e) items es ∧
        idx' = index2_fill es idx.
Proof.
  revert idx. induction items as [|[id paper] items IH]; intros idx; simpl.
  - split.
    + intros [= <-]. exists []. by split; [constructor|].
    + intros (es & ->%Forall2_nil_inv_l & ->). done.
  - split.
    + intros (data & Hd & (es & HF & ->)%IH)%bind_Ok.
      exists ((paper_top_level_id paper, paper_full_id paper, data) :: es).
      split; [|done]. constructor; [|done].
      unfold paper_entry. simpl. by rewrite Hd.
    + intros (es & HF & ->).
      apply Forall2_cons_inv_l in HF as (e & es' & He & HF & ->).
      unfold paper_entry in He. simpl in He.
      apply bind_Ok in He as (data & Hd & [= <-]).
      apply bind_Ok. exists data. split; [done|]. apply IH. eauto.
Qed.

(** Claim C3.  When [anthology.papers] is keyed by full id, the paper
    index holds the record of every paper under its top-level id and its
    full id and under no other group; every record of the index is the
    record of an input paper; and the index has as many records as there
    are papers. *)
Theorem paper_grouping_total (a : Anthology) (idx : index2) :
  NoDup ((papers a).*1) →
  (∀ id paper, (id, paper) ∈ papers a → paper_full_id paper = id) →
  build_papers a = Ok idx →
  (∀ id paper, (id, paper) ∈ papers a →
     ∃ r, paper_record (people a) paper = Ok r ∧
       ∀ g, index2_get g id idx
            = if decide (g = paper_top_level_id paper) then Some r else None) ∧
  (∀ g f r, index2_get g f idx = Some r →
     ∃ paper, (f, paper) ∈ papers a ∧ g = paper_top_level_id paper ∧
       paper_record (people a) paper = Ok r) ∧
  index2_size idx = length (papers a).
Proof.
  intros Hnd Hkey (es & HF & ->)%papers_loop_Ok.
  assert (Hfull : es.*1.*2 = (papers a).*1).
  { rewrite <- list_fmap_compose.
    induction HF as [|[id paper] e items es He HF IH]; csimpl; [done|].
    unfold paper_entry in He. apply bind_Ok in He as (d & _ & [= <-]). simpl.
    rewrite IH.
    - f_equal. apply Hkey. left.
    - by apply NoDup_cons in Hnd as [_ ?].
    - intros ???. apply Hkey. by right. }
  assert (Hnd' : NoDup (es.*1)).
  { apply (NoDup_fmap_1 snd). by rewrite Hfull. }
  assert (Hinv : ∀ g f r, (g, f, r) ∈ es →
            ∃ paper, (f, paper) ∈ papers a ∧ g = paper_top_level_id paper ∧
              paper_record (people a) paper = Ok r).
  { intros g f r Hin.
    destruct (Forall2_elem_of_r _ _ _ _ HF Hin) as ([id paper] & Hit & He).
    unfold paper_entry in He. simpl in He.
    apply bind_Ok in He as (d & Hd & [= <- <- <-]).
    exists paper. by rewrite (Hkey id paper Hit). }
  split; [|split].
  - intros id paper Hit.
    destruct (Forall2_elem_of_l _ _ _ _ HF Hit) as ([[g f] r] & Hin & He).
    unfold paper_entry in He. simpl in He.
    apply bind_Ok in He as (d & Hd & [= <- <- <-]).
    rewrite (Hkey id paper Hit) in Hin.
    exists d. split; [done|]. intros g. case_decide as Hg.
    + subst g. by apply index2_get_fill.
    + destruct (index2_get g id (index2_fill es ∅)) as [r'|] eqn:Hget; [|done].
      apply index2_get_fill_inv in Hget as [Hget|Hget];
        [|by rewrite index2_get_empty in Hget].
      destruct (Hinv _ _ _ Hget) as (paper' & Hit' & -> & _).
      by rewrite (NoDup_fst_functional _ _ _ _ Hnd Hit Hit') in Hg.
  - intros g f r [Hget|Hget]%index2_get_fill_inv; [by apply Hinv|].
    by rewrite index2_get_empty in Hget.
  - rewrite index2_size_fill by done.
    symmetry. by eapply Forall2_length.
Qed.

(** ** People records *)

#[global] Instance error_eq_dec : EqDecision error.
Proof. solve_decision. Defined.

#[global] Instance result_eq_dec {A} `{EqDecision A} : EqDecision (result A).
Proof. solve_decision. Defined.

Lemma sorted_papers_Ok (a : Anthology) (name : PersonName) (ps : list string) :
  sorted_papers a name = Ok ps →
  Forall (λ p, year_key a p = Ok (year_of a p)) (get_papers (people a) name) ∧
  py_sorted (year_of a) true (get_papers (people a) name) = Ok ps.
Proof.
  unfold sorted_papers. intros H.
  apply bind_Ok in H as (keys & Hk & H).
  apply bind_Ok in H as (qs & Hs & [= <-]).
  apply mapM_Ok in Hk.
  assert (Hall : Forall (λ p, year_key a p = Ok (year_of a p))
                   (get_papers (people a) name)).
  { clear Hs. induction Hk as [|p k l ks Hp _ IH]; [constructor|].
    constructor; [|done]. unfold year_of. by rewrite Hp. }
  split; [done|].
  assert (Hzip : zip (get_papers (people a) name) keys
                 = (λ p, (p, year_of a p)) <$> get_papers (people a) name).
  { clear Hs Hall. induction Hk as [|p k l ks Hp _ IH]; csimpl; [done|].
    rewrite IH. unfold year_of at 2. by rewrite Hp. }
  rewrite Hzip in Hs. unfold py_sorted in *.
  rewrite <- list_fmap_compose, length_fmap in Hs.
  change (snd ∘ (λ p, (p, year_of a p))) with (year_of a) in Hs.
  case_match; [|done]. injection Hs as <-.
  rewrite isort_fmap, <- list_fmap_compose. simpl.
  by rewrite list_fmap_id.
Qed.

Lemma person_record_canonical (a : Anthology) (name : PersonName)
    (slug : string) (data : dict) :
  is_canonical (people a) name = true →
  person_record a name = Ok (slug, data) →
  get_slug (people a) name = Some slug ∧
  ∃ ps cs vs,
    sorted_papers a name = Ok ps ∧
    sorted_coauthors (people a) name = Ok cs ∧
    (has_variants (people a) name = true →
       mapM (slug_of_name (people a))
         (get_registered_variants (people a) name) = Ok vs) ∧
    data = canonical_fields (people a) name ps cs vs
             (<["slug" := VStr slug]> (name_as_dict (people a) name)).
Proof.
  intros Hc. unfold person_record, canonical_fields. rewrite Hc.
  intros (s & Hs & H)%bind_Ok.
  apply bind_Ok in H as (ps & Hps & H).
  apply bind_Ok in H as (cs & Hcs & H).
  unfold slug_of_name, slug_of in Hs.
  destruct (get_slug (people a) name) as [s'|]; [|done]. injection Hs as ->.
  destruct (has_variants (people a) name).
  - apply bind_Ok in H as (vs & Hvs & [= <- <-]).
    split; [done|]. by exists ps, cs, vs.
  - injection H as <- <-. split; [done|]. by exists ps, cs, [].
Qed.

Lemma person_record_variant (a : Anthology) (name : PersonName)
    (slug : string) (data : dict) :
  is_canonical (people a) name = false →
  person_record a name = Ok (slug, data) →
  get_slug (people a) name = Some slug ∧
  ∃ c, get_slug (people a) (get_canonical_variant (people a) name) = Some c ∧
       data = <["canonical_entry" := VStr c]>
                (<["slug" := VStr slug]> (name_as_dict (people a) name)).
Proof.
  intros Hc. unfold person_record. rewrite Hc.
  intros (s & Hs & H)%bind_Ok.
  apply bind_Ok in H as (c & Hcan & [= <- <-]).
  unfold slug_of_name, slug_of in *.
  destruct (get_slug (people a) name) as [s'|]; [|done]. injection Hs as ->.
  destruct (get_slug _ (get_canonical_variant _ _)) as [c'|]; [|done].
  injection Hcan as ->. eauto.
Qed.

(** Claim C4, as amended.  The [papers] field of a canonical name lists
    the paper ids of its identity cluster: a rearrangement of what
    [get_papers] returns with the variants included, in which no paper
    comes before one of a strictly later year and papers of the same year
    keep their order.  It has as many entries as [get_papers] returns,
    which is the number of distinct papers when [get_papers] lists each
    paper once. *)
Theorem canonical_papers_sorted (a : Anthology) (name : PersonName)
    (slug : string) (data : dict) :
  is_canonical (people a) name = true →
  person_record a name = Ok (slug, data) →
  ∃ ps,
    data !! "papers" = Some (VList (VStr <$> ps)) ∧
    ps ≡ₚ get_papers (people a) name ∧
    Forall (λ p, ∃ paper, assoc_get p (papers a) = Some paper ∧
                          year_of a p = paper_year paper) ps ∧
    (comparable (year_of a <$> ps) = true ∨ (length ps ≤ 1)%nat) ∧
    StronglySorted (λ p q, val_ltb (year_of a p) (year_of a q) = false) ps ∧
    (∀ y, filter (λ p, year_of a p = y) ps
          = filter (λ p, year_of a p = y) (get_papers (people a) name)) ∧
    length ps = length (get_papers (people a) name) ∧
    (NoDup (get_papers (people a) name) →
     length ps = size (list_to_set (get_papers (people a) name) : gset string)).
Proof.
  intros Hc Hrec.
  destruct (person_record_canonical _ _ _ _ Hc Hrec)
    as (_ & ps & cs & vs & Hps & _ & _ & ->).
  apply sorted_papers_Ok in Hps as [Hkeys Hps].
  pose proof (py_sorted_perm _ _ _ _ Hps) as Hperm.
  exists ps. repeat apply conj.
  - unfold canonical_fields. destruct (has_variants _ _); record_lookup.
  - done.
  - rewrite Hperm. eapply Forall_impl; [done|]. simpl.
    intros p Hp. unfold year_of, year_key in *.
    destruct (assoc_get p (papers a)) as [paper|]; [eauto|done].
  - rewrite Hperm. by apply py_sorted_keys in Hps.
  - apply (py_sorted_sorted _ _ _ _ Hps).
  - intros y. eapply py_sorted_stable; [|done]. congruence.
  - by eapply py_sorted_length.
  - intros Hnd. rewrite size_list_to_set by done. by eapply py_sorted_length.
Qed.

(** Claim C5, as amended.  The record of a variant name has
    [canonical_entry], the slug of the canonical name of its identity;
    the export puts none of [papers], [coauthors], [venues] and
    [variant_entries] into it, so that it has none of them unless they
    are among the name's own fields; the record of a canonical name has
    the first three. *)
Theorem variant_record_shape (a : Anthology) (name : PersonName)
    (slug : string) (data : dict) :
  person_record a name = Ok (slug, data) →
  let aggregates := ["papers"; "coauthors"; "venues"; "variant_entries"] in
  (is_canonical (people a) name = false →
     (∃ c, get_slug (people a) (get_canonical_variant (people a) name) = Some c ∧
           data !! "canonical_entry" = Some (VStr c)) ∧
     (∀ k, k ∈ aggregates → data !! k = name_as_dict (people a) name !! k) ∧
     ((∀ k, k ∈ aggregates → name_as_dict (people a) name !! k = None) →
      ∀ k, k ∈ aggregates → data !! k = None)) ∧
  (is_canonical (people a) name = true →
     is_Some (data !! "papers") ∧ is_Some (data !! "coauthors") ∧
     is_Some (data !! "venues") ∧
     data !! "canonical_entry" = name_as_dict (people a) name !! "canonical_entry").
Proof.
  intros Hrec aggregates. split; intros Hc.
  - destruct (person_record_variant _ _ _ _ Hc Hrec) as (_ & c & Hcan & ->).
    assert (Hsame : ∀ k, k ∈ aggregates →
              <["canonical_entry" := VStr c]>
                (<["slug" := VStr slug]> (name_as_dict (people a) name)) !! k
              = name_as_dict (people a) name !! k).
    { intros k Hk. unfold aggregates in Hk.
      rewrite !elem_of_cons, elem_of_nil in Hk.
      destruct Hk as [->|[->|[->|[->|[]]]]]; record_lookup. }
    split; [exists c; split; [done|]; record_lookup|].
    split; [done|]. intros Hown k Hk. rewrite Hsame by done. by apply Hown.
  - destruct (person_record_canonical _ _ _ _ Hc Hrec)
      as (_ & ps & cs & vs & _ & _ & _ & ->).
    unfold canonical_fields.
    destruct (has_variants _ _); repeat split; record_lookup.
Qed.

(** ** The people index *)

Lemma people_loop_cons (a : Anthology) (name : PersonName)
    (rest : list PersonName) (idx : index2) :
  people_loop a (name :: rest) idx
  = e ← person_entry a name; people_loop a rest (index2_set e.1.1 e.1.2 e.2 idx).
Proof.
  simpl. unfold person_entry.
  destruct (person_record a name) as [[slug data]|]; [|done]. simpl.
  by destruct (first_char slug).
Qed.

Lemma people_loop_Ok (a : Anthology) (ns : list PersonName) (idx idx' : index2) :
  people_loop a ns idx = Ok idx' ↔
  ∃ es, Forall2 (λ n e, person_entry a n = Ok e) ns es ∧
        idx' = index2_fill es idx.
Proof.
  revert idx. induction ns as [|name ns IH]; intros idx.
  - simpl. split.
    + intros [= <-]. exists []. by split; [constructor|].
    + intros (es & ->%Forall2_nil_inv_l & ->). done.
  - rewrite people_loop_cons. split.
    + intros (e & He & (es & HF & ->)%IH)%bind_Ok.
      exists (e :: es). split; [by constructor|done].
    + intros (es & HF & ->).
      apply Forall2_cons_inv_l in HF as (e & es' & He & HF & ->).
      apply bind_Ok. exists e. split; [done|]. apply IH. eauto.
Qed.

Lemma people_loop_app (a : Anthology) (pre rest : list PersonName) (idx : index2) :
  people_loop a (pre ++ rest) idx
  = idx' ← people_loop a pre idx; people_loop a rest idx'.
Proof.
  revert idx. induction pre as [|n pre IH]; intros idx; [done|].
  rewrite <- app_comm_cons, !people_loop_cons.
  destruct (person_entry a n) as [e|]; [|done]. simpl. apply IH.
Qed.

Lemma person_entry_Ok (a : Anthology) (name : PersonName)
    (e : string * string * dict) :
  person_entry a name = Ok e ↔
  person_record a name = Ok (e.1.2, e.2) ∧
  ∃ c s, e.1.2 = String c s ∧ e.1.1 = String c EmptyString.
Proof.
  unfold person_entry. destruct e as [[c slug] data]. simpl.
  destruct (person_record a name) as [[slug' data']|]; simpl.
  - destruct slug' as [|ch s]; simpl.
    + split; [done|]. by intros [[= <- <-] (? & ? & ? & ?)].
    + split.
      * intros [= <- <- <-]. eauto.
      * intros [[= <- <-] (? & ? & [= <- <-] & ->)]. done.
  - split; [done|]. by intros [? _].
Qed.

Lemma person_record_slug (a : Anthology) (name : PersonName)
    (slug : string) (data : dict) :
  person_record a name = Ok (slug, data) → get_slug (people a) name = Some slug.
Proof.
  destruct (is_canonical (people a) name) eqn:Hc; intros H.
  - by destruct (person_record_canonical _ _ _ _ Hc H).
  - by destruct (person_record_variant _ _ _ _ Hc H).
Qed.

Lemma person_record_slug_field (a : Anthology) (name : PersonName)
    (slug : string) (data : dict) :
  person_record a name = Ok (slug, data) → data !! "slug" = Some (VStr slug).
Proof.
  intros Hr. destruct (is_canonical (people a) name) eqn:Hc.
  - destruct (person_record_canonical a name slug data Hc Hr)
      as (_ & ps & cs & vs & _ & _ & _ & ->).
    unfold canonical_fields. destruct (has_variants _ _); record_lookup.
  - destruct (person_record_variant a name slug data Hc Hr) as (_ & c & _ & ->).
    record_lookup.
Qed.

(** ** Volume records *)

Lemma volume_record_Ok (ppl : PersonIndex) (volume : Volume) (d d' : dict) :
  volume_record ppl volume d = (d', Ok ()) ↔
  is_Some (d !! "xml_title") ∧
  ∃ d1, resolve_names ppl "author" (volume_markup_step volume d) = Ok d1 ∧
        resolve_names ppl "editor" d1 = Ok d'.
Proof.
  unfold volume_record, volume_markup_step, py_del.
  rewrite lookup_insert_ne by done.
  destruct (d !! "xml_title") as [t|] eqn:Ht.
  - destruct (resolve_names ppl "author" _) as [d1|] eqn:Ha.
    + destruct (resolve_names ppl "editor" d1) as [d2|] eqn:He.
      * split.
        -- intros [= <-]. split; [by eexists|]. by exists d1.
        -- intros (_ & d1' & [= <-] & Hd). rewrite He in Hd. by injection Hd as ->.
      * split; [done|]. intros (_ & d1' & [= <-] & Hd). by rewrite He in Hd.
    + split; [done|]. by intros (_ & d1' & [=] & _).
  - split; [done|]. by intros [[? [=]] _].
Qed.

Lemma volume_record_xml_title (ppl : PersonIndex) (volume : Volume) (d d' : dict) :
  volume_record ppl volume d = (d', Ok ()) →
  is_Some (d !! "xml_title") ∧ d' !! "xml_title" = None.
Proof.
  intros (Ht & d1 & Ha & He)%volume_record_Ok. split; [done|].
  rewrite (resolve_names_other _ _ _ _ _ He) by done.
  rewrite (resolve_names_other _ _ _ _ _ Ha) by done.
  unfold volume_markup_step. record_lookup.
Qed.

(** The fields of a volume record, from the dictionary it was built in. *)
Lemma volume_record_fields (ppl : PersonIndex) (volume : Volume) (d d' : dict) :
  volume_record ppl volume d = (d', Ok ()) →
  d' !! "title_html" = Some (volume_title_html volume) ∧
  d' !! "xml_title" = None ∧
  d' !! "xml_abstract" = None ∧
  d' !! "abstract_html" = d !! "abstract_html" ∧
  d' !! "papers" = Some (VList (VStr <$> volume_paper_ids volume)) ∧
  d' !! "year" = d !! "year" ∧
  (∀ k v, k = "author" ∨ k = "editor" → d !! k = Some v →
     ∃ ns slugs, py_iter v = Ok ns ∧
       Forall2 (λ n s, slug_of ppl n = Ok s) ns slugs ∧
       d' !! k = Some (VList (VStr <$> slugs))).
Proof.
  intros (Ht & d1 & Ha & He)%volume_record_Ok.
  assert (Hother : ∀ j, j ≠ "author" → j ≠ "editor" →
            d' !! j = volume_markup_step volume d !! j).
  { intros j ? ?.
    rewrite (resolve_names_other _ _ j _ _ He) by done.
    by rewrite (resolve_names_other _ _ j _ _ Ha). }
  assert (Hnames : ∀ k, k = "author" ∨ k = "editor" →
            volume_markup_step volume d !! k = d !! k).
  { intros k [->| ->]; unfold volume_markup_step; record_lookup. }
  repeat split; try (rewrite Hother by done; unfold volume_markup_step;
                     by record_lookup).
  - rewrite Hother by done. unfold volume_markup_step. record_lookup.
    by apply eq_None_not_Some.
  - intros k v [->| ->] Hk.
    + rewrite <- Hnames in Hk by auto.
      destruct (resolve_names_same _ _ _ _ _ Ha Hk) as (ns & slugs & ? & ? & Hd1).
      exists ns, slugs. split; [done|]. split; [done|].
      by rewrite (resolve_names_other _ _ "author" _ _ He).
    + rewrite <- Hnames in Hk by auto.
      rewrite <- (resolve_names_other _ _ "editor" _ _ Ha) in Hk by done.
      apply (resolve_names_same _ _ _ _ _ He Hk).
Qed.

Lemma deref_insert_eq (h : heap) (l : loc) (d : dict) : deref (<[l := d]> h) l = d.
Proof. unfold deref. by rewrite lookup_insert_eq. Qed.

Lemma deref_insert_ne (h : heap) (l l' : loc) (d : dict) :
  l ≠ l' → deref (<[l := d]> h) l' = deref h l'.
Proof. intros. unfold deref. by rewrite lookup_insert_ne. Qed.

Lemma volumes_loop_cons_Ok (ppl : PersonIndex) (id : string) (volume : Volume)
    (rest : list (string * Volume)) (idx idx' : gmap string loc) (h h' : heap) :
  volumes_loop ppl ((id, volume) :: rest) idx h = (h', Ok idx') ↔
  ∃ d, volume_record ppl volume (deref h (volume_attrib volume)) = (d, Ok ()) ∧
       volumes_loop ppl rest
         (<[volume_full_id volume := volume_attrib volume]> idx)
         (<[volume_attrib volume := d]> h) = (h', Ok idx').
Proof.
  simpl. destruct (volume_record _ _ _) as [d [[]|e]].
  - split; [by exists d|]. by intros (d' & [= <-] & ?).
  - split; [done|]. by intros (d' & [=] & _).
Qed.

(** A dictionary without [xml_title] cannot be the [attrib] of a volume
    in a loop that completes, and the loop leaves it alone. *)
Lemma volumes_loop_skips (ppl : PersonIndex) (items : list (string * Volume))
    (idx idx' : gmap string loc) (h h' : heap) (l : loc) :
  volumes_loop ppl items idx h = (h', Ok idx') →
  deref h l !! "xml_title" = None →
  (l ∉ (volume_attrib ∘ snd) <$> items) ∧ h' !! l = h !! l.
Proof.
  revert idx h. induction items as [|[id volume] items IH]; intros idx h.
  - intros [= <- _] _. split; [apply not_elem_of_nil|done].
  - intros (d & Hd & Hrest)%volumes_loop_cons_Ok Hl.
    assert (volume_attrib volume ≠ l) as Hne.
    { intros <-. apply volume_record_xml_title in Hd as [[? Ht] _]. congruence. }
    destruct (IH _ _ Hrest) as [Hnin Heq].
    { by rewrite deref_insert_ne. }
    split.
    + csimpl. rewrite not_elem_of_cons. done.
    + by rewrite Heq, lookup_insert_ne.
Qed.

(** A volume loop that completes visited pairwise different dictionaries,
    built each volume's record in its own dictionary from the content
    that was there before the loop, and touched no other dictionary. *)
Lemma volumes_loop_Ok (ppl : PersonIndex) (items : list (string * Volume))
    (idx idx' : gmap string loc) (h h' : heap) :
  volumes_loop ppl items idx h = (h', Ok idx') →
  NoDup ((volume_attrib ∘ snd) <$> items) ∧
  (∀ id volume, (id, volume) ∈ items →
     volume_record ppl volume (deref h (volume_attrib volume))
     = (deref h' (volume_attrib volume), Ok ())) ∧
  (∀ l, l ∉ (volume_attrib ∘ snd) <$> items → h' !! l = h !! l) ∧
  idx' = volumes_fill items idx.
Proof.
  revert idx h. induction items as [|[id volume] items IH]; intros idx h.
  - intros [= <- <-]. split; [constructor|].
    split; [by intros ?? ?%elem_of_nil|done].
  - intros (d & Hd & Hrest)%volumes_loop_cons_Ok.
    destruct (IH _ _ Hrest) as (Hnd & Hrec & Hframe & ->).
    destruct (volumes_loop_skips _ _ _ _ _ _ (volume_attrib volume) Hrest)
      as [Hnin Hsame].
    { rewrite deref_insert_eq. by apply volume_record_xml_title in Hd as [_ ?]. }
    split; [by constructor|]. split; [|split; [|done]].
    + intros id' volume' [[= -> ->]|Hin]%elem_of_cons.
      * rewrite Hd. f_equal. unfold deref.
        by rewrite Hsame, lookup_insert_eq.
      * rewrite <- (Hrec id' volume' Hin). f_equal.
        symmetry. apply deref_insert_ne. intros Heq. apply Hnin.
        apply list_elem_of_fmap. exists (id', volume'). split; [exact Heq|done].
    + intros l. csimpl. rewrite not_elem_of_cons. intros [Hne Hl].
      by rewrite (Hframe l Hl), lookup_insert_ne.
Qed.

Lemma volumes_fill_lookup (items : list (string * Volume)) (idx : gmap string loc)
    (id : string) (volume : Volume) :
  NoDup ((volume_full_id ∘ snd) <$> items) → (id, volume) ∈ items →
  volumes_fill items idx !! volume_full_id volume = Some (volume_attrib volume).
Proof.
  unfold volumes_fill. induction items as [|[id' v'] items IH] using rev_ind;
    [by intros _ ?%elem_of_nil|].
  rewrite fmap_app, NoDup_app. intros (Hnd & Hfresh & _).
  rewrite foldl_snoc. simpl. intros [Hin|Hin]%elem_of_app.
  - rewrite lookup_insert_ne; [by apply IH|].
    intros Heq. apply (Hfresh (volume_full_id volume)).
    + apply list_elem_of_fmap. by exists (id, volume).
    + simpl. rewrite Heq. apply list_elem_of_here.
  - apply list_elem_of_singleton in Hin as [= <- <-]. apply lookup_insert_eq.
Qed.

Lemma volumes_fill_lookup_inv (items : list (string * Volume))
    (idx : gmap string loc) (k : string) (l : loc) :
  volumes_fill items idx !! k = Some l →
  (∃ id volume, (id, volume) ∈ items ∧ volume_full_id volume = k ∧
                volume_attrib volume = l) ∨ idx !! k = Some l.
Proof.
  unfold volumes_fill. induction items as [|[id' v'] items IH] using rev_ind;
    [by right|].
  rewrite foldl_snoc. simpl.
  destruct (decide (volume_full_id v' = k)) as [<-|Hne].
  - rewrite lookup_insert_eq. intros [= <-]. left. exists id', v'.
    split; [|done]. apply elem_of_app. right. apply list_elem_of_here.
  - rewrite lookup_insert_ne by done.
    intros [(id & v & Hin & ? & ?)|?]%IH; [left|by right].
    exists id, v. split; [|done]. apply elem_of_app. by left.
Qed.

(** Claim C8.  When the volume records are built, the record of a volume
    is the dictionary its [attrib] refers to, now with [title_html] and
    [papers] (the volume's paper ids, in order) and without [xml_title]
    and [xml_abstract]; no [abstract_html] is added; author and editor
    lists are replaced by the slugs of their names, in order.  With
    pairwise different full ids, the record is found under the volume's
    full id. *)
Theorem volume_records_built (a : Anthology) (h h' : heap)
    (vols : gmap string loc) (id : string) (volume : Volume) :
  build_volumes a h = (h', Ok vols) →
  (id, volume) ∈ volumes a →
  let d := deref h (volume_attrib volume) in
  let d' := deref h' (volume_attrib volume) in
  (NoDup ((volume_full_id ∘ snd) <$> volumes a) →
     vols !! volume_full_id volume = Some (volume_attrib volume)) ∧
  d' !! "title_html" = Some (volume_title_html volume) ∧
  d' !! "xml_title" = None ∧
  d' !! "xml_abstract" = None ∧
  d' !! "abstract_html" = d !! "abstract_html" ∧
  d' !! "papers" = Some (VList (VStr <$> volume_paper_ids volume)) ∧
  (∀ k v, k = "author" ∨ k = "editor" → d !! k = Some v →
     ∃ ns slugs, py_iter v = Ok ns ∧
       Forall2 (λ n s, slug_of (people a) n = Ok s) ns slugs ∧
       d' !! k = Some (VList (VStr <$> slugs))).
Proof.
  intros (Hnd & Hrec & _ & ->)%volumes_loop_Ok Hin. cbv zeta.
  split; [intros Hids; by eapply volumes_fill_lookup|].
  destruct (volume_record_fields _ _ _ _ (Hrec _ _ Hin))
    as (? & ? & ? & ? & ? & ? & ?).
  done.
Qed.

(** ** Venue records *)

Lemma index_fill_lookup {A} (es : list (string * A)) (idx : gmap string A)
    (k : string) (x : A) :
  NoDup (es.*1) → (k, x) ∈ es → index_fill es idx !! k = Some x.
Proof.
  unfold index_fill. induction es as [|[k' x'] es IH] using rev_ind;
    [by intros _ ?%elem_of_nil|].
  rewrite fmap_app, NoDup_app. intros (Hnd & Hfresh & _).
  rewrite foldl_snoc. simpl. intros [Hin|Hin]%elem_of_app.
  - rewrite lookup_insert_ne; [by apply IH|].
    intros ->. apply (Hfresh k); [|apply list_elem_of_here].
    apply list_elem_of_fmap. by exists (k, x).
  - apply list_elem_of_singleton in Hin as [= <- <-]. apply lookup_insert_eq.
Qed.

Lemma index_fill_lookup_inv {A} (es : list (string * A)) (idx : gmap string A)
    (k : string) (x : A) :
  index_fill es idx !! k = Some x → (k, x) ∈ es ∨ idx !! k = Some x.
Proof.
  unfold index_fill. induction es as [|[k' x'] es IH] using rev_ind;
    [by right|].
  rewrite foldl_snoc. simpl. destruct (decide (k' = k)) as [->|Hne].
  - rewrite lookup_insert_eq. intros [= ->]. left.
    apply elem_of_app. right. apply list_elem_of_here.
  - rewrite lookup_insert_ne by done. intros [?|?]%IH; [left|by right].
    apply elem_of_app. by left.
Qed.

Lemma venues_loop_Ok (vols : gmap string loc) (h : heap)
    (items : list (string * dict)) (idx idx' : gmap string dict) :
  venues_loop vols h items idx = Ok idx' ↔
  ∃ es, Forall2 (λ it e, e.1 = it.1 ∧ venue_record vols h it.2 = Ok e.2) items es ∧
        idx' = index_fill es idx.
Proof.
  revert idx. induction items as [|[acr fields] items IH]; intros idx; simpl.
  - split.
    + intros [= <-]. exists []. by split; [constructor|].
    + intros (es & ->%Forall2_nil_inv_l & ->). done.
  - split.
    + intros (data & Hd & (es & HF & ->)%IH)%bind_Ok.
      exists ((acr, data) :: es). split; [|done]. by constructor.
    + intros (es & HF & ->).
      apply Forall2_cons_inv_l in HF as ([k data] & es' & [Hk He] & HF & ->).
      simpl in *. subst k.
      apply bind_Ok. exists data. split; [done|]. apply IH. eauto.
Qed.

Lemma py_eq_true (x y : value) : py_eq x y = true ↔ x = y.
Proof. apply value_eqb_spec. Qed.

Lemma volume_year_str (vols : gmap string loc) (h : heap) (k y : value) :
  volume_year vols h k = Ok y → is_str k.
Proof. by destruct k. Qed.

(** The filter of line 143 resolves every volume id of the venue and
    keeps those whose record has the given year. *)
Lemma filter_year_Ok (vols : gmap string loc) (h : heap) (year : value)
    (ks sel : list value) :
  filter_year vols h year ks = Ok sel ↔
  Forall (λ k, ∃ y, volume_year vols h k = Ok y) ks ∧
  sel = filter (λ k, volume_year vols h k = Ok year) ks.
Proof.
  revert sel. induction ks as [|k ks IH]; intros sel; simpl.
  - split; [intros [= <-]; by split|by intros [_ ->]].
  - rewrite filter_cons. split.
    + intros (y & Hy & H)%bind_Ok.
      apply bind_Ok in H as (sel' & [Hall ->]%IH & [= <-]).
      split; [constructor; eauto|].
      rewrite Hy. destruct (py_eq y year) eqn:Heq.
      * apply py_eq_true in Heq as ->. by rewrite decide_True.
      * rewrite decide_False; [done|]. intros [= ->].
        by rewrite (proj2 (py_eq_true year year)) in Heq.
    + intros [[[y Hy] Hall]%Forall_cons ->].
      rewrite Hy. simpl.
      rewrite (proj2 (IH _) (conj Hall eq_refl)). simpl. f_equal.
      destruct (py_eq y year) eqn:Heq.
      * apply py_eq_true in Heq as ->. by rewrite decide_True.
      * rewrite decide_False; [done|]. intros [= ->].
        by rewrite (proj2 (py_eq_true year year)) in Heq.
Qed.

Lemma is_str_comparable (l : list value) :
  Forall is_str l → comparable (id <$> l) = true.
Proof.
  intros H. rewrite list_fmap_id. by apply comparable_strings.
Qed.

(** Line 143 for one year: the venue's volume ids with that year, sorted. *)
Lemma volumes_of_year_Ok (vols : gmap string loc) (h : heap) (data : dict)
    (year : value) (ks : list value) (v : value) :
  data !! "volumes" = Some (VList ks) →
  volumes_of_year vols h data year = Ok v ↔
  Forall (λ k, ∃ y, volume_year vols h k = Ok y) ks ∧
  v = VList (isort (key_before id false)
               (filter (λ k, volume_year vols h k = Ok year) ks)).
Proof.
  intros Hks. unfold volumes_of_year. rewrite Hks. simpl.
  assert (Hstr : Forall (λ k, ∃ y, volume_year vols h k = Ok y) ks →
            py_sorted id false (filter (λ k, volume_year vols h k = Ok year) ks)
            = Ok (isort (key_before id false)
                    (filter (λ k, volume_year vols h k = Ok year) ks))).
  { intros Hall. apply py_sorted_comparable, is_str_comparable.
    apply Forall_forall. intros k [Hk _]%list_elem_of_filter.
    by eapply volume_year_str. }
  split.
  - intros (sel & [Hall ->]%filter_year_Ok & H)%bind_Ok.
    rewrite (Hstr Hall) in H. simpl in H. by injection H as <-.
  - intros [Hall ->]. apply bind_Ok. eexists. split.
    + apply filter_year_Ok. by split.
    + rewrite (Hstr Hall). done.
Qed.

Lemma items_update_fresh (k v : value) (d : list (value * value)) :
  k ∉ d.*1 → items_update k v d = d ++ [(k, v)].
Proof.
  induction d as [|[k' v'] d IH]; csimpl; [done|].
  rewrite not_elem_of_cons. intros [Hne Hnin].
  destruct (py_eq k' k) eqn:Heq.
  - apply py_eq_true in Heq. congruence.
  - by rewrite IH.
Qed.

(** With pairwise different years the comprehension appends one item per
    year, in the order of the years. *)
Lemma by_year_loop_Ok (vols : gmap string loc) (h : heap) (data : dict)
    (years : list value) (acc res : list (value * value)) :
  NoDup years → (∀ y, y ∈ years → y ∉ acc.*1) →
  by_year_loop vols h data years acc = Ok res →
  ∃ vs, Forall2 (λ y v, volumes_of_year vols h data y = Ok v) years vs ∧
        res = acc ++ zip years vs.
Proof.
  revert acc. induction years as [|y years IH]; intros acc; simpl.
  - intros _ _ [= <-]. exists []. split; [constructor|by rewrite app_nil_r].
  - intros [Hy Hnd]%NoDup_cons Hfresh (v & Hv & H)%bind_Ok.
    apply bind_Ok in H as (acc' & Hset & H).
    assert (acc' = acc ++ [(y, v)]) as ->.
    { unfold items_set in Hset.
      rewrite items_update_fresh in Hset
        by (apply Hfresh, list_elem_of_here).
      destruct (hashable y); by inv_result. }
    apply IH in H as (vs & HF & ->); [|done|].
    + exists (v :: vs). split; [by constructor|]. by rewrite <- app_assoc.
    + intros y' Hy'. rewrite fmap_app, not_elem_of_app. split.
      * apply Hfresh. by right.
      * simpl. rewrite list_elem_of_singleton. by intros ->.
Qed.

Lemma venue_record_Ok (vols : gmap string loc) (h : heap) (fields r : dict) :
  venue_record vols h fields = Ok r ↔
  ∃ ys by_year,
    sorted_years fields = Ok ys ∧
    by_year_loop vols h fields ys [] = Ok by_year ∧
    is_Some (fields !! "volumes") ∧
    r = delete "volumes"
          (<["years" := VList ys]> (<["volumes_by_year" := VDict by_year]> fields)).
Proof.
  unfold venue_record.
  assert (Hsame : ∀ v, sorted_years (<["volumes_by_year" := v]> fields)
                       = sorted_years fields).
  { intros v. unfold sorted_years. by rewrite lookup_insert_ne. }
  split.
  - intros (ys & Hys & H)%bind_Ok.
    apply bind_Ok in H as (by_year & Hby & H).
    apply bind_Ok in H as (ys' & Hys' & H).
    rewrite Hsame, Hys in Hys'. injection Hys' as <-.
    apply py_del_Ok in H as [Hv ->].
    rewrite !lookup_insert_ne in Hv by done. by exists ys, by_year.
  - intros (ys & by_year & Hys & Hby & Hv & ->).
    apply bind_Ok. exists ys. split; [done|].
    apply bind_Ok. exists by_year. split; [done|].
    apply bind_Ok. exists ys. split; [by rewrite Hsame|].
    apply py_del_Ok. split; [|done]. by rewrite !lookup_insert_ne.
Qed.

(** Claim C6.  For a venue whose fields hold the years [ys0], pairwise
    different, and the volume ids [ks]: the venue record has the sorted
    years under [years], no [volumes] key, and under [volumes_by_year] one
    item per year, in ascending order of the years; the item of a year is
    the sorted list of exactly those ids of [ks] whose volume record has
    that year.  The other fields are those of the venue. *)
Theorem venue_volumes_by_year (a : Anthology) (vols : gmap string loc)
    (h : heap) (idx : gmap string dict) (acronym : string) (fields : dict)
    (ys0 ks : list value) :
  build_venues a vols h = Ok idx →
  NoDup ((venues a).*1) →
  (acronym, fields) ∈ venues a →
  fields !! "years" = Some (VList ys0) → NoDup ys0 →
  fields !! "volumes" = Some (VList ks) →
  ∃ r ys sels,
    idx !! acronym = Some r ∧
    ys ≡ₚ ys0 ∧
    (comparable ys = true ∨ (length ys ≤ 1)%nat) ∧
    StronglySorted (λ x y, val_ltb y x = false) ys ∧
    r !! "years" = Some (VList ys) ∧
    r !! "volumes" = None ∧
    r !! "volumes_by_year" = Some (VDict (zip ys (VList <$> sels))) ∧
    Forall2 (λ y sel,
               sel ≡ₚ filter (λ k, volume_year vols h k = Ok y) ks ∧
               Forall is_str sel ∧
               StronglySorted (λ x y, val_ltb y x = false) sel) ys sels ∧
    (∀ k, k ≠ "years" → k ≠ "volumes" → k ≠ "volumes_by_year" →
          r !! k = fields !! k).
Proof.
  intros (es & HF & ->)%venues_loop_Ok Hnd Hin Hys0 Hnd0 Hks.
  destruct (Forall2_elem_of_l _ _ _ _ HF Hin) as ([k r] & He & Hk & Hr).
  simpl in *. subst k.
  assert (Hkeys : es.*1 = (venues a).*1).
  { clear -HF. induction HF as [|it e ?? [He _] _ IH]; csimpl; [done|].
    by rewrite IH, He. }
  apply venue_record_Ok in Hr as (ys & by_year & Hys & Hby & _ & ->).
  unfold sorted_years in Hys. rewrite Hys0 in Hys. simpl in Hys.
  pose proof (py_sorted_perm _ _ _ _ Hys) as Hperm.
  apply by_year_loop_Ok in Hby as (vs & Hvs & ->);
    [|by rewrite Hperm|by intros ? _ ?%elem_of_nil].
  assert (Hsels : ∃ sels, vs = VList <$> sels ∧
            Forall2 (λ y sel,
              sel ≡ₚ filter (λ k, volume_year vols h k = Ok y) ks ∧
              Forall is_str sel ∧
              StronglySorted (λ x y, val_ltb y x = false) sel) ys sels).
  { clear -Hvs Hks. induction Hvs as [|y v ys vs Hv _ (sels & -> & IH)].
    - exists []. by split; [|constructor].
    - apply (volumes_of_year_Ok _ _ _ _ ks) in Hv as [Hall ->]; [|done].
      assert (Hstr : Forall is_str
                (filter (λ k, volume_year vols h k = Ok y) ks)).
      { apply Forall_forall. intros k [Hk _]%list_elem_of_filter.
        by eapply volume_year_str. }
      eexists (_ :: sels). split; [done|]. constructor; [|done].
      split; [apply isort_perm|]. split; [by rewrite isort_perm|].
      apply (py_sorted_sorted id false
               (filter (λ k, volume_year vols h k = Ok y) ks)).
      by apply py_sorted_comparable, is_str_comparable. }
  destruct Hsels as (sels & -> & Hsels).
  exists (delete "volumes"
            (<["years" := VList ys]>
               (<["volumes_by_year" := VDict ([] ++ zip ys (VList <$> sels))]>
                  fields))), ys, sels.
  repeat apply conj.
  - apply index_fill_lookup; [by rewrite Hkeys|done].
  - done.
  - apply py_sorted_keys in Hys. rewrite list_fmap_id in Hys.
    by rewrite Hperm.
  - apply (py_sorted_sorted id false _ _ Hys).
  - record_lookup.
  - record_lookup.
  - record_lookup.
  - done.
  - intros k ???. record_lookup.
Qed.

(** ** The output directory *)

Lemma ensure_dir_spec (outdir subdir : string) (fs : filesystem) :
  let t := outdir +:+ "/" +:+ subdir in
  files (ensure_dir outdir subdir fs).1 = files fs ∧
  mkdir_fails (ensure_dir outdir subdir fs).1 = mkdir_fails fs ∧
  ((ensure_dir outdir subdir fs).2 = Ok () ∧
   dirs (ensure_dir outdir subdir fs).1 = {[t]} ∪ dirs fs ∧
   (t ∉ dirs fs → t ∉ mkdir_fails fs)
   ∨
   (ensure_dir outdir subdir fs).2 = Raise OSError ∧
   (ensure_dir outdir subdir fs).1 = fs ∧
   (t ∉ dirs fs) ∧ t ∈ mkdir_fails fs).
Proof.
  unfold ensure_dir. cbv zeta. repeat case_decide; simpl.
  - do 2 (split; [done|]). left. split; [done|]. split; [|done].
    symmetry. apply subseteq_union_1_L. by apply singleton_subseteq_l.
  - do 2 (split; [done|]). by right.
  - do 2 (split; [done|]). by left.
Qed.

Lemma ensure_dirs_spec (outdir : string) (subdirs : list string)
    (fs : filesystem) :
  let ts := (λ subdir, outdir +:+ "/" +:+ subdir) <$> subdirs in
  files (ensure_dirs outdir subdirs fs).1 = files fs ∧
  mkdir_fails (ensure_dirs outdir subdirs fs).1 = mkdir_fails fs ∧
  dirs fs ⊆ dirs (ensure_dirs outdir subdirs fs).1 ∧
  dirs (ensure_dirs outdir subdirs fs).1 ⊆ list_to_set ts ∪ dirs fs ∧
  ((ensure_dirs outdir subdirs fs).2 = Ok () ∧
   dirs (ensure_dirs outdir subdirs fs).1 = list_to_set ts ∪ dirs fs ∧
   (∀ t, t ∈ ts → t ∉ dirs fs → t ∉ mkdir_fails fs)
   ∨
   (ensure_dirs outdir subdirs fs).2 = Raise OSError ∧
   (∃ t, t ∈ ts ∧ (t ∉ dirs fs) ∧ t ∈ mkdir_fails fs)).
Proof.
  cbv zeta. revert fs. induction subdirs as [|subdir rest IH]; intros fs.
  - simpl. do 2 (split; [done|]). split; [done|].
    split; [apply union_subseteq_r|].
    left. split; [done|]. split; [by rewrite (left_id_L ∅ (∪))|].
    by intros t ?%elem_of_nil.
  - simpl. destruct (ensure_dir_spec outdir subdir fs) as (Hf & Hm & H).
    destruct (ensure_dir outdir subdir fs) as [fs1 r]. simpl in *.
    set (t1 := outdir +:+ "/" +:+ subdir) in *.
    set (ts := (λ subdir, outdir +:+ "/" +:+ subdir) <$> rest) in *.
    assert (E : list_to_set ts ∪ ({[t1]} ∪ dirs fs)
                = ({[t1]} ∪ list_to_set ts) ∪ dirs fs :> gset string).
    { by rewrite (assoc_L (∪)), (comm_L (∪) (list_to_set ts)). }
    destruct H as [(-> & Hd & Hok) | (-> & -> & Hn & Hin)].
    + destruct (IH fs1) as (Hf' & Hm' & Hs1 & Hs2 & H).
      rewrite Hf', Hm', Hf, Hm. do 2 (split; [done|]).
      rewrite Hd in Hs1, Hs2. rewrite E in Hs2.
      split; [etrans; [apply union_subseteq_r|exact Hs1]|]. split; [done|].
      destruct H as [(Hr & Hd' & Hall) | (Hr & t & Ht & Hn & Hin)].
      * left. split; [done|]. split; [by rewrite Hd', Hd, E|].
        intros t [->|Ht]%elem_of_cons Hn; [by apply Hok|].
        destruct (decide (t = t1)) as [->|Hne]; [by apply Hok|].
        rewrite <- Hm. apply Hall; [done|]. rewrite Hd.
        rewrite not_elem_of_union, not_elem_of_singleton. done.
      * right. split; [done|]. exists t. rewrite Hd in Hn. rewrite Hm in Hin.
        split; [by right|]. split; [|done].
        intros Hd0. apply Hn, elem_of_union. by right.
    + simpl. do 2 (split; [done|]). split; [done|].
      split; [apply union_subseteq_r|].
      right. split; [done|]. exists t1. split; [by left|]. done.
Qed.

(** The three directories exist after lines 46-49 exactly when [os.mkdir]
    goes through at each of them that was missing; otherwise the loop
    raises the OSError. *)
Lemma make_dirs_spec (outdir : string) (fs : filesystem) :
  files (make_dirs outdir fs).1 = files fs ∧
  mkdir_fails (make_dirs outdir fs).1 = mkdir_fails fs ∧
  dirs fs ⊆ dirs (make_dirs outdir fs).1 ∧
  dirs (make_dirs outdir fs).1 ⊆ target_dirs outdir ∪ dirs fs ∧
  ((make_dirs outdir fs).2 = Ok () ∧
   dirs (make_dirs outdir fs).1 = target_dirs outdir ∪ dirs fs ∧
   dirs_creatable outdir fs
   ∨
   (make_dirs outdir fs).2 = Raise OSError ∧ ¬ dirs_creatable outdir fs).
Proof.
  unfold make_dirs, target_dirs, dirs_creatable.
  destruct (ensure_dirs_spec outdir [EmptyString; "papers"; "people"] fs)
    as (Hf & Hm & Hs1 & Hs2 & H).
  do 4 (split; [done|]).
  destruct H as [(Hr & Hd & Hall) | (Hr & t & Ht & Hn & Hin)].
  - left. split; [done|]. split; [done|].
    intros t Ht. apply Hall. by apply elem_of_list_to_set in Ht.
  - right. split; [done|]. intros Hall.
    apply (Hall t); [by apply elem_of_list_to_set|done..].
Qed.

Lemma make_dirs_Ok (outdir : string) (fs : filesystem) :
  dirs_creatable outdir fs → (make_dirs outdir fs).2 = Ok ().
Proof.
  intros Hc. by destruct (make_dirs_spec outdir fs)
    as (_ & _ & _ & _ & [(? & _) | (_ & ?)]).
Qed.

Lemma make_dirs_Raise (outdir : string) (fs : filesystem) :
  ¬ dirs_creatable outdir fs → (make_dirs outdir fs).2 = Raise OSError.
Proof.
  intros Hc. by destruct (make_dirs_spec outdir fs)
    as (_ & _ & _ & _ & [(_ & _ & ?) | (? & _)]).
Qed.


Lemma make_dirs_files (outdir : string) (fs : filesystem) :
  files (make_dirs outdir fs).1 = files fs.
Proof. apply make_dirs_spec. Qed.

Lemma make_dirs_dirs (outdir : string) (fs : filesystem) :
  (make_dirs outdir fs).2 = Ok () →
  dirs (make_dirs outdir fs).1 = target_dirs outdir ∪ dirs fs.
Proof.
  intros Hr. destruct (make_dirs_spec outdir fs)
    as (_ & _ & _ & _ & [(_ & ? & _) | (Hr' & _)]); [done|].
  rewrite Hr in Hr'. discriminate Hr'.
Qed.

(** Directories that exist need no [os.mkdir]. *)
Lemma dirs_creatable_existing (outdir : string) (fs : filesystem) :
  target_dirs outdir ⊆ dirs fs → dirs_creatable outdir fs.
Proof. intros Hs t Ht Hn. exfalso. apply Hn, Hs, Ht. Qed.

Lemma dirs_creatable_no_failure (outdir : string) (fs : filesystem) :
  mkdir_fails fs = ∅ → dirs_creatable outdir fs.
Proof. intros He t _ _. rewrite He. apply not_elem_of_empty. Qed.

(** The export when the directories can be made. *)
Lemma export_anthology_creatable (a : Anthology) (outdir : string)
    (dryrun : bool) (w : world) :
  dirs_creatable outdir (w_fs w) →
  export_anthology a outdir dryrun w
  = match (build_records a (w_heap w)).2 with
    | Raise e =>
        ({| w_heap := (build_records a (w_heap w)).1;
            w_fs := (make_dirs outdir (w_fs w)).1 |}, Raise e)
    | Ok recs =>
        ({| w_heap := (build_records a (w_heap w)).1;
            w_fs := if dryrun then (make_dirs outdir (w_fs w)).1
                    else dump_all outdir (build_records a (w_heap w)).1 recs
                           (make_dirs outdir (w_fs w)).1 |}, Ok recs)
    end.
Proof.
  intros Hr%make_dirs_Ok. unfold export_anthology.
  destruct (make_dirs outdir (w_fs w)) as [fs r]. simpl in Hr. subst r.
  by destruct (build_records a (w_heap w)) as [h [recs|e]].
Qed.

(** The export when a directory cannot be made: nothing is read. *)
Lemma export_anthology_mkdir_fails (a : Anthology) (outdir : string)
    (dryrun : bool) (w : world) :
  ¬ dirs_creatable outdir (w_fs w) →
  export_anthology a outdir dryrun w
  = ({| w_heap := w_heap w; w_fs := (make_dirs outdir (w_fs w)).1 |},
     Raise OSError).
Proof.
  intros Hr%make_dirs_Raise. unfold export_anthology.
  destruct (make_dirs outdir (w_fs w)) as [fs r]. simpl in Hr. by subst r.
Qed.





(** ** The files of a real run *)

Lemma string_length_app (a b : string) :
  String.length (a +:+ b) = String.length a + String.length b.
Proof. induction a as [|c a IH]; simpl; [done|]. by rewrite IH. Qed.

Lemma string_app_inj_r (t a b : string) : a +:+ t = b +:+ t → a = b.
Proof.
  revert b. induction a as [|c a IH]; intros [|c' b]; simpl; [done| | |].
  - intros H. apply (f_equal String.length) in H.
    rewrite !string_length_app in H. simpl in H. exfalso. lia.
  - intros H. apply (f_equal String.length) in H.
    rewrite !string_length_app in H. simpl in H. exfalso. lia.
  - intros [= -> H]. f_equal. by apply IH.
Qed.

#[global] Instance papers_path_inj (outdir : string) : Inj (=) (=) (papers_path outdir).
Proof.
  intros g g' H. unfold papers_path in H.
  by apply (inj (String.app outdir)), (inj (String.app "/papers/")),
    string_app_inj_r in H.
Qed.

#[global] Instance people_path_inj (outdir : string) : Inj (=) (=) (people_path outdir).
Proof.
  intros g g' H. unfold people_path in H.
  by apply (inj (String.app outdir)), (inj (String.app "/people/")),
    string_app_inj_r in H.
Qed.

(** Whatever the order of the writes, each key of a collection gets its
    document under its path. *)
Lemma write_each_spec (path : string → string) `{!Inj (=) (=) path}
    (docs : gmap string (gmap string dict)) (fs : filesystem) :
  files (write_each path docs fs) = kmap path docs ∪ files fs ∧
  dirs (write_each path docs fs) = dirs fs.
Proof.
  unfold write_each.
  apply (map_fold_weak_ind
           (λ r (m : gmap string (gmap string dict)),
              files r = kmap path m ∪ files fs ∧ dirs r = dirs fs)).
  - by rewrite kmap_empty, (left_id_L ∅ (∪)).
  - intros key doc m r Hkey [Hf Hd]. simpl.
    by rewrite Hf, kmap_insert, insert_union_l.
Qed.

Lemma dump_all_spec (outdir : string) (h : heap) (r : records) (fs : filesystem) :
  files (dump_all outdir h r fs)
  = kmap (people_path outdir) (rec_people r) ∪
    <[outdir +:+ "/sigs.yaml" := rec_sigs r]>
      (<[outdir +:+ "/venues.yaml" := rec_venues r]>
         (<[outdir +:+ "/volumes.yaml" := deref h <$> rec_volumes r]>
            (kmap (papers_path outdir) (rec_papers r) ∪ files fs))) ∧
  dirs (dump_all outdir h r fs) = dirs fs.
Proof.
  unfold dump_all. cbv zeta.
  destruct (write_each_spec (people_path outdir) (rec_people r)
              (write_yaml (outdir +:+ "/sigs.yaml") (rec_sigs r)
                 (write_yaml (outdir +:+ "/venues.yaml") (rec_venues r)
                    (write_yaml (outdir +:+ "/volumes.yaml")
                       (deref h <$> rec_volumes r)
                       (write_each (papers_path outdir) (rec_papers r) fs)))))
    as [-> ->].
  simpl.
  by destruct (write_each_spec (papers_path outdir) (rec_papers r) fs)
    as [-> ->].
Qed.

(** ** The export and the object graph *)

(** Building the record of a volume changes the dictionary of the volume. *)
Lemma build_volumes_mutates (a : Anthology) (h h' : heap)
    (vols : gmap string loc) (id : string) (volume : Volume) :
  build_volumes a h = (h', Ok vols) → (id, volume) ∈ volumes a →
  is_Some (deref h (volume_attrib volume) !! "xml_title") ∧
  deref h' (volume_attrib volume) !! "xml_title" = None ∧
  h' ≠ h.
Proof.
  intros (_ & Hrec & _)%volumes_loop_Ok Hin.
  destruct (volume_record_xml_title _ _ _ _ (Hrec _ _ Hin)) as [[t Ht] Hn].
  split; [by exists t|]. split; [done|].
  intros ->. congruence.
Qed.

(** The venue loop only reads: it works on a copy of the venue's fields,
    and neither the anthology nor the dictionaries of the volumes are
    among its results. *)
Lemma build_records_heap (a : Anthology) (h : heap) :
  (build_records a h).1 = h ∨ (build_records a h).1 = (build_volumes a h).1.
Proof.
  unfold build_records.
  destruct (build_papers a); [|by left].
  destruct (build_people a); [|by left].
  destruct (build_volumes a h) as [h' [vols|e]]; [|by right].
  by destruct (build_venues a vols h'); right.
Qed.

(** Claim C1, at an input where the code breaks it.  After an export of
    an anthology with one volume, the dictionary [volume.attrib] refers
    to has lost [xml_title] and gained [title_html] and [papers]; a
    second export of the same anthology therefore raises KeyError. *)
Theorem export_mutates_volume_attrib :
  let w := one_volume_world in
  let w' := (export_anthology one_volume_anthology "out" true w).1 in
  deref (w_heap w) 1%positive
    = {[ "xml_title" := VStr "Proceedings"; "year" := VStr "2020" ]} ∧
  deref (w_heap w') 1%positive
    = {[ "title_html" := VStr "Proceedings"; "year" := VStr "2020";
         "papers" := VList [VStr "2020.acl-main.1"] ]} ∧
  is_ok (export_anthology one_volume_anthology "out" true w).2 = true ∧
  (export_anthology one_volume_anthology "out" true w').2 = Raise KeyError.
Proof. cbv zeta. repeat apply conj; reflexivity. Qed.

(** ** When the export succeeds *)





Lemma slug_of_name_Ok (ppl : PersonIndex) (n : PersonName) (s : string) :
  slug_of_name ppl n = Ok s ↔ get_slug ppl n = Some s.
Proof.
  unfold slug_of_name, slug_of. destruct (get_slug ppl n).
  - split; congruence.
  - split; congruence.
Qed.

Lemma slug_of_name_is_Ok (ppl : PersonIndex) (n : PersonName) :
  (∃ s, slug_of_name ppl n = Ok s) ↔ is_Some (get_slug ppl n).
Proof.
  split.
  - intros [s Hs%slug_of_name_Ok]. by exists s.
  - intros [s Hs]. exists s. by apply slug_of_name_Ok.
Qed.

Lemma mapM_is_Ok_iff {A B} (f : A → result B) (l : list A) :
  (∃ k, mapM f l = Ok k) ↔ Forall (λ x, ∃ y, f x = Ok y) l.
Proof.
  split; [intros [k Hk]; by eapply mapM_Ok_inv|apply mapM_is_Ok].
Qed.

Lemma sorted_papers_is_Ok (a : Anthology) (name : PersonName) :
  (∃ ps, sorted_papers a name = Ok ps) ↔
  Forall (λ p, is_Some (assoc_get p (papers a))) (get_papers (people a) name) ∧
  (comparable (year_of a <$> get_papers (people a) name) = true ∨
   (length (get_papers (people a) name) ≤ 1)%nat).
Proof.
  split.
  - intros [ps [Hk Hs]%sorted_papers_Ok]. split.
    + eapply Forall_impl; [done|]. simpl. intros p. unfold year_key.
      by destruct (assoc_get p (papers a)).
    + by eapply py_sorted_keys.
  - intros [Hall Hcmp]. unfold sorted_papers.
    assert (Hk : mapM (year_key a) (get_papers (people a) name)
                 = Ok (year_of a <$> get_papers (people a) name)).
    { apply mapM_Ok. apply Forall2_fmap_r, Forall_Forall2_diag.
      eapply Forall_impl; [done|]. simpl. intros p [paper Hp].
      unfold year_of, year_key. by rewrite Hp. }
    rewrite Hk. simpl.
    assert (Hzip : ∀ l : list string,
              zip l (year_of a <$> l) = (λ p, (p, year_of a p)) <$> l).
    { induction l as [|p l IH]; csimpl; [done|]. by rewrite IH. }
    rewrite Hzip. unfold py_sorted.
    rewrite <- list_fmap_compose, length_fmap.
    change (snd ∘ (λ p, (p, year_of a p))) with (year_of a).
    destruct Hcmp as [->|Hlen]; [by eexists|].
    rewrite (bool_decide_eq_true_2 _ Hlen), orb_true_r. by eexists.
Qed.

Lemma sorted_coauthors_is_Ok (ppl : PersonIndex) (name : PersonName) :
  (∃ cs, sorted_coauthors ppl name = Ok cs) ↔
  Forall (λ co, is_Some (get_slug ppl co.1)) (get_coauthors ppl name).
Proof.
  unfold sorted_coauthors. split.
  - intros [cs (xs & Hxs & _)%bind_Ok].
    apply mapM_Ok_inv in Hxs. eapply Forall_impl; [done|]. simpl.
    intros co [y (s & Hs%slug_of_name_Ok & _)%bind_Ok]. by exists s.
  - intros Hall.
    destruct (mapM_is_Ok (λ co, s ← slug_of_name ppl co.1; Ok (s, co.2))
                (get_coauthors ppl name)) as [xs Hxs].
    { eapply Forall_impl; [done|]. simpl. intros co [s Hs].
      exists (s, co.2). by rewrite (proj2 (slug_of_name_Ok _ _ _) Hs). }
    rewrite Hxs. by eexists.
Qed.

Lemma person_entry_is_Ok (a : Anthology) (name : PersonName) :
  (∃ e, person_entry a name = Ok e) ↔ person_ok a name.
Proof.
  unfold person_ok. cbv zeta. split.
  - intros [[[c slug] data] [Hr (ch & s & Hs & _)]%person_entry_Ok].
    simpl in *. subst slug. split.
    { exists ch, s. by eapply person_record_slug. }
    destruct (is_canonical (people a) name) eqn:Hc.
    + destruct (person_record_canonical _ _ _ _ Hc Hr)
        as (_ & ps & cs & vs & Hps & Hcs & Hvs & _).
      destruct (proj1 (sorted_papers_is_Ok a name)) as [? ?]; [eauto|].
      split; [done|]. split; [done|]. split.
      * apply sorted_coauthors_is_Ok. eauto.
      * intros Hv. specialize (Hvs Hv). apply mapM_Ok_inv in Hvs.
        eapply Forall_impl; [done|]. simpl. intros v.
        apply slug_of_name_is_Ok.
    + destruct (person_record_variant _ _ _ _ Hc Hr) as (_ & cn & Hcn & _).
      by exists cn.
  - intros [(ch & s & Hs) Hrest].
    assert (∃ data, person_record a name = Ok (String ch s, data)) as [data Hr].
    { unfold person_record.
      rewrite (proj2 (slug_of_name_Ok _ _ _) Hs). simpl.
      destruct (is_canonical (people a) name).
      - destruct Hrest as (Hps & Hcmp & Hcs & Hvs).
        destruct (proj2 (sorted_papers_is_Ok a name)) as [ps ->]; [done|].
        simpl.
        destruct (proj2 (sorted_coauthors_is_Ok (people a) name) Hcs) as [cs ->].
        simpl. destruct (has_variants (people a) name); [|by eexists].
        destruct (mapM_is_Ok (slug_of_name (people a))
                    (get_registered_variants (people a) name)) as [vs ->];
          [|by eexists].
        eapply Forall_impl; [by apply Hvs|]. simpl. intros v.
        apply slug_of_name_is_Ok.
      - destruct Hrest as [cn Hcn].
        rewrite (proj2 (slug_of_name_Ok _ _ _) Hcn). by eexists. }
    exists (String ch EmptyString, String ch s, data).
    apply person_entry_Ok. simpl. eauto.
Qed.

Lemma people_loop_is_Ok (a : Anthology) (ns : list PersonName) (idx : index2) :
  (∃ idx', people_loop a ns idx = Ok idx') ↔ Forall (person_ok a) ns.
Proof.
  revert idx. induction ns as [|name ns IH]; intros idx.
  - split; [constructor|by eexists].
  - rewrite people_loop_cons, Forall_cons, <- person_entry_is_Ok.
    destruct (person_entry a name) as [e|err]; simpl.
    + rewrite <- (IH (index2_set e.1.1 e.1.2 e.2 idx)).
      split; [intros [idx' H]; eauto|intros [_ H]; done].
    + split; [by intros [? ?]|by intros [[? ?] _]].
Qed.

(** Claim C10, as amended.  The people index is keyed by the first
    character of the slug and then by the slug.  When it is built, every
    listed name has a non-empty slug, its record carries that slug and
    the field of its kind ([papers] or [canonical_entry]), and the index
    has a record under the first character and the slug and under no
    other first key; the record is the name's own when no other name has
    the same slug, and then the index has one record per name.  The
    index is built exactly when every listed name has a non-empty slug
    and a record that can be built.  A name with an empty
    slug makes the build fail: with the exception of an earlier name or
    of its own record when one of them raises, and otherwise with
    IndexError at [slug[0]]. *)
Theorem people_bucket_by_first_char (a : Anthology) :
  (∀ idx, build_people a = Ok idx →
     Forall (λ name, ∃ c s data,
               get_slug (people a) name = Some (String c s) ∧
               person_record a name = Ok (String c s, data) ∧
               data !! "slug" = Some (VStr (String c s)) ∧
               (if is_canonical (people a) name
                then is_Some (data !! "papers")
                else is_Some (data !! "canonical_entry")) ∧
               is_Some (index2_get (String c EmptyString) (String c s) idx) ∧
               (∀ k, k ≠ String c EmptyString →
                     index2_get k (String c s) idx = None) ∧
               ((∀ other, other ∈ names (people a) →
                   get_slug (people a) other = Some (String c s) → other = name) →
                index2_get (String c EmptyString) (String c s) idx = Some data))
       (names (people a)) ∧
     (NoDup (get_slug (people a) <$> names (people a)) →
      index2_size idx = length (names (people a)))) ∧
  ((∃ idx, build_people a = Ok idx) ↔
     Forall (person_ok a) (names (people a))) ∧
  (∀ pre name rest,
     names (people a) = pre ++ name :: rest →
     get_slug (people a) name = Some EmptyString →
     build_people a
     = match people_loop a pre ∅ with
       | Raise e => Raise e
       | Ok _ =>
           match person_record a name with
           | Raise e => Raise e
           | Ok _ => Raise IndexError
           end
       end).
Proof.
  split; [|split].
  - intros idx (es & HF & ->)%people_loop_Ok.
    assert (Hslugs : Some <$> es.*1.*2 = get_slug (people a) <$> names (people a)).
    { rewrite <- !list_fmap_compose.
      apply (Forall2_fmap_eq (person_entry a)); [|done].
      intros n e [Hr _]%person_entry_Ok. simpl.
      by rewrite (person_record_slug _ _ _ _ Hr). }
    split.
    + apply Forall_forall. intros name Hin.
      destruct (Forall2_elem_of_l _ _ _ _ HF Hin) as ([[k slug] data] & He & Hent).
      apply person_entry_Ok in Hent as [Hr (c & s & Hs & Hk)]. simpl in *. subst.
      exists c, s, data.
      split; [by eapply person_record_slug|]. split; [done|].
      split; [by eapply person_record_slug_field|].
      split.
      { destruct (is_canonical (people a) name) eqn:Hc.
        - destruct (person_record_canonical _ _ _ _ Hc Hr)
            as (_ & ps & cs & vs & _ & _ & _ & ->).
          unfold canonical_fields. destruct (has_variants _ _); record_lookup.
        - destruct (person_record_variant _ _ _ _ Hc Hr) as (_ & c' & _ & ->).
          record_lookup. }
      assert (Hlast : ∃ d, index2_get (String c EmptyString) (String c s)
                             (index2_fill es ∅) = Some d ∧
                           (String c EmptyString, String c s, d) ∈ es).
      { clear Hslugs HF Hr.
        induction es as [|[[k' s'] d'] es IH] using rev_ind;
          [by apply elem_of_nil in He|].
        rewrite index2_fill_snoc, index2_get_set. simpl. case_decide as Hk.
        - destruct Hk as [-> ->]. exists d'. split; [done|].
          apply elem_of_app. right. apply list_elem_of_here.
        - apply elem_of_app in He as [He|He].
          + destruct (IH He) as (d & ? & ?). exists d. split; [done|].
            apply elem_of_app. by left.
          + apply list_elem_of_singleton in He as [= <- <- <-]. by destruct Hk. }
      destruct Hlast as (d & Hget & Hd). split; [by rewrite Hget|]. split.
      * intros k Hk.
        destruct (index2_get k (String c s) (index2_fill es ∅)) as [d'|] eqn:Hg;
          [|done].
        apply index2_get_fill_inv in Hg as [Hg|Hg];
          [|by rewrite index2_get_empty in Hg].
        destruct (Forall2_elem_of_r _ _ _ _ HF Hg) as (other & _ & Hent).
        apply person_entry_Ok in Hent as [_ (c' & s' & Hs' & Hk')].
        simpl in *. injection Hs' as <- <-. by destruct Hk.
      * intros Hinj. rewrite Hget. f_equal.
        destruct (Forall2_elem_of_r _ _ _ _ HF Hd) as (other & Ho & Hent).
        apply person_entry_Ok in Hent as [Hr' _]. simpl in Hr'.
        rewrite (Hinj other Ho (person_record_slug _ _ _ _ Hr')) in Hr'.
        congruence.
    + intros Hnd. rewrite index2_size_fill; [symmetry; by eapply Forall2_length|].
      apply (NoDup_fmap_1 snd), (NoDup_fmap_1 Some). by rewrite Hslugs.
  - apply people_loop_is_Ok.
  - intros pre name rest Hn Hslug.
    unfold build_people. rewrite Hn, people_loop_app.
    destruct (people_loop a pre ∅) as [idx|e]; [|done]. simpl.
    destruct (person_record a name) as [[slug data]|e] eqn:Hr; [|done].
    apply person_record_slug in Hr. rewrite Hslug in Hr. by injection Hr as <-.
Qed.

(** Jane Doe is found under [j] and her slug; the name with the empty slug
    stops the build at [slug[0]]. *)
Lemma people_bucket_by_first_char_witness :
  build_people doe_anthology
  = Ok {[ "j" := {[ "jane-doe" := jane_record; "j-doe" := j_doe_record ]} ]} ∧
  (∃ data, person_record doe_anthology jane = Ok ("jane-doe", data) ∧
           data !! "slug" = Some (VStr "jane-doe") ∧
           index2_get "j" "jane-doe"
             {[ "j" := {[ "jane-doe" := jane_record; "j-doe" := j_doe_record ]} ]}
           = Some data) ∧
  Forall (person_ok doe_anthology) (names (people doe_anthology)) ∧
  get_slug (people blank_anthology) "?" = Some EmptyString ∧
  build_people blank_anthology = Raise IndexError.
Proof.
  destruct (people_bucket_by_first_char doe_anthology) as (H1 & H2 & _).
  destruct (people_bucket_by_first_char blank_anthology) as (_ & _ & H3).
  assert (Hb : build_people doe_anthology
               = Ok {[ "j" := {[ "jane-doe" := jane_record;
                                 "j-doe" := j_doe_record ]} ]}) by reflexivity.
  split; [exact Hb|].
  destruct (H1 _ Hb) as [Hall _].
  apply Forall_cons in Hall
    as [(c & s & data & Hs & Hr & Hf & _ & _ & _ & Hown) _].
  injection Hs as <- <-. split; [|split; [|split]].
  - exists data. split; [exact Hr|]. split; [exact Hf|]. apply Hown.
    intros other Ho Hso. simpl in Ho.
    apply elem_of_cons in Ho as [->|Ho]; [done|].
    apply list_elem_of_singleton in Ho as ->. discriminate Hso.
  - apply H2. by eexists.
  - reflexivity.
  - exact (H3 [] "?" [] eq_refl eq_refl).
Defined.

(** Claim C10 as stated fails: the record of a name with an empty slug is
    built before [slug[0]] is evaluated, and here the sort of its papers
    raises TypeError. *)
Lemma empty_slug_not_always_IndexError :
  ¬ (∀ (a : Anthology) (name : PersonName),
       name ∈ names (people a) →
       get_slug (people a) name = Some EmptyString →
       build_people a = Raise IndexError).
Proof.
  intros H.
  specialize (H blank_undated_anthology jane (list_elem_of_here _ _) eq_refl).
  assert (Hb : build_people blank_undated_anthology = Raise TypeError)
    by reflexivity.
  rewrite Hb in H. discriminate H.
Qed.















(** ** Lookups that fail *)



Lemma slug_of_Raise (ppl : PersonIndex) (n : value) (e : error) :
  slug_of ppl n = Raise e → e = KeyError.
Proof.
  destruct n as [|s| | |]; simpl; try congruence.
  destruct (get_slug ppl s); congruence.
Qed.

Lemma mapM_Raise {A B} (f : A → result B) (l : list A) (e : error) :
  mapM f l = Raise e → Exists (λ x, f x = Raise e) l.
Proof.
  induction l as [|x l IH]; simpl; [done|].
  intros [Hx|(y & Hy & H)]%bind_Raise; [by left|].
  apply bind_Raise in H as [H|(k & _ & [=])]. right. by apply IH.
Qed.






(** ** The properties on the small anthology *)

Lemma doe_papers_keyed (id : string) (paper : Paper) :
  (id, paper) ∈ papers doe_anthology → paper_full_id paper = id.
Proof.
  simpl. rewrite !elem_of_cons, elem_of_nil.
  by intros [[= -> ->]|[[= -> ->]|[]]].
Qed.

(** The scenario of claim C7: the paper 2020.acl-main.1 of group 2020.acl,
    whose author Jane Doe has the slug jane-doe. *)
Lemma paper_record_fields_scenario :
  paper_record doe_people paper_2020 = Ok record_2020 ∧
  index2_get "2020.acl" "2020.acl-main.1" <$> build_papers doe_anthology
    = Ok (Some record_2020) ∧
  record_2020 !! "title_html" = Some (VStr "<span>E</span>xample Paper") ∧
  record_2020 !! "xml_title" = None ∧
  record_2020 !! "author" = Some (VList [VStr "jane-doe"]).
Proof.
  split; [reflexivity|]. split; [reflexivity|].
  destruct (paper_record_fields doe_people paper_2020 record_2020)
    as (Ht & Hx & _); [reflexivity|].
  split; [exact Ht|]. split; [exact Hx|]. reflexivity.
Defined.

(** The two papers end up in two groups, one record each. *)
Lemma paper_grouping_total_witness :
  NoDup ((papers doe_anthology).*1) ∧
  build_papers doe_anthology = Ok doe_papers_index ∧
  index2_size doe_papers_index = 2%nat.
Proof.
  assert (Hnd : NoDup ((papers doe_anthology).*1)).
  { refine (bool_decide_unpack _ _). vm_compute. exact I. }
  assert (Hb : build_papers doe_anthology = Ok doe_papers_index).
  { reflexivity. }
  split; [exact Hnd|]. split; [exact Hb|].
  exact (proj2 (proj2 (paper_grouping_total doe_anthology doe_papers_index
                         Hnd doe_papers_keyed Hb))).
Defined.

(** Jane Doe's record lists her two papers, the later one first. *)
Lemma canonical_papers_sorted_witness :
  is_canonical (people doe_anthology) jane = true ∧
  person_record doe_anthology jane = Ok ("jane-doe", jane_record) ∧
  ∃ ps, jane_record !! "papers" = Some (VList (VStr <$> ps)) ∧
        length ps = 2%nat.
Proof.
  assert (Hr : person_record doe_anthology jane = Ok ("jane-doe", jane_record)).
  { reflexivity. }
  split; [reflexivity|]. split; [exact Hr|].
  destruct (canonical_papers_sorted doe_anthology jane "jane-doe" jane_record
              eq_refl Hr) as (ps & Hps & _ & _ & _ & _ & _ & Hlen & _).
  exists ps. split; [exact Hps|exact Hlen].
Defined.

(** Claim C4 as stated fails: [sorted] keeps an id that [get_papers]
    returns twice, and the [papers] field is longer than the number of
    distinct papers. *)
Lemma repeated_paper_counted_twice :
  ¬ (∀ (a : Anthology) (name : PersonName) (slug : string) (data : dict),
       is_canonical (people a) name = true →
       person_record a name = Ok (slug, data) →
       ∃ ps, data !! "papers" = Some (VList (VStr <$> ps)) ∧
             length ps
             = size (list_to_set (get_papers (people a) name) : gset string)).
Proof.
  intros H.
  destruct (H twice_anthology jane "jane-doe" twice_record eq_refl eq_refl)
    as (ps & Hps & Hlen).
  assert (Hp : twice_record !! "papers"
               = Some (VList [VStr "2020.acl-main.1"; VStr "2020.acl-main.1"]))
    by reflexivity.
  rewrite Hp in Hps. injection Hps as Hps.
  destruct ps as [|p [|q [|r ps]]]; try discriminate Hps.
  vm_compute in Hlen. discriminate Hlen.
Qed.

(** The record of J. Doe points to Jane Doe and has no aggregates. *)
Lemma variant_record_shape_witness :
  person_record doe_anthology j_doe = Ok ("j-doe", j_doe_record) ∧
  is_canonical (people doe_anthology) j_doe = false ∧
  j_doe_record !! "papers" = name_as_dict doe_people j_doe !! "papers" ∧
  j_doe_record !! "canonical_entry" = Some (VStr "jane-doe").
Proof.
  assert (Hr : person_record doe_anthology j_doe = Ok ("j-doe", j_doe_record)).
  { reflexivity. }
  split; [exact Hr|]. split; [reflexivity|].
  destruct (variant_record_shape doe_anthology j_doe "j-doe" j_doe_record Hr)
    as [Hv _].
  destruct (Hv eq_refl) as ((c & Hc & Hentry) & Hsame & _).
  split; [apply Hsame, list_elem_of_here|].
  rewrite Hentry. vm_compute in Hc. by injection Hc as <-.
Defined.

(** Claim C5 as stated fails: a variant whose own fields have a [papers]
    key keeps it in its record. *)
Lemma variant_record_own_papers_field :
  ¬ (∀ (a : Anthology) (name : PersonName) (slug : string) (data : dict),
       is_canonical (people a) name = false →
       person_record a name = Ok (slug, data) →
       (∃ c, get_slug (people a) (get_canonical_variant (people a) name)
             = Some c ∧
             data !! "canonical_entry" = Some (VStr c)) ∧
       ∀ k, k ∈ ["papers"; "coauthors"; "venues"; "variant_entries"] →
            data !! k = None).
Proof.
  intros H.
  destruct (H tagged_anthology j_doe "j-doe" tagged_record eq_refl eq_refl)
    as [_ Hk].
  specialize (Hk "papers" (list_elem_of_here _ _)).
  assert (Hp : tagged_record !! "papers" = Some (VList [])) by reflexivity.
  rewrite Hp in Hk. discriminate Hk.
Qed.

(** The record of the 2020 volume, built in the volume's dictionary. *)
Lemma volume_records_built_witness :
  build_volumes doe_anthology doe_heap = (doe_heap_built, Ok doe_volumes_index) ∧
  deref doe_heap_built 1%positive !! "xml_abstract" = None ∧
  deref doe_heap_built 1%positive !! "papers"
    = Some (VList [VStr "2020.acl-main.1"]).
Proof.
  assert (Hb : build_volumes doe_anthology doe_heap
               = (doe_heap_built, Ok doe_volumes_index)).
  { reflexivity. }
  split; [exact Hb|].
  destruct (volume_records_built doe_anthology doe_heap doe_heap_built
              doe_volumes_index "2020.acl-main" volume_2020 Hb)
    as (_ & _ & _ & Ha & _ & Hp & _); [apply list_elem_of_here|].
  split; [exact Ha|exact Hp].
Defined.

(** The record of ACL: one volume in each of its two years. *)
Lemma venue_volumes_by_year_witness :
  build_venues doe_anthology doe_volumes_index doe_heap_built
    = Ok {[ "ACL" := acl_record ]} ∧
  ∃ r ys sels,
    ({[ "ACL" := acl_record ]} : gmap string dict) !! "ACL" = Some r ∧
    r !! "years" = Some (VList ys) ∧
    r !! "volumes" = None ∧
    r !! "volumes_by_year" = Some (VDict (zip ys (VList <$> sels))).
Proof.
  assert (Hb : build_venues doe_anthology doe_volumes_index doe_heap_built
               = Ok {[ "ACL" := acl_record ]}).
  { reflexivity. }
  split; [exact Hb|].
  destruct (venue_volumes_by_year doe_anthology doe_volumes_index
              doe_heap_built {[ "ACL" := acl_record ]} "ACL" acl_fields
              [VStr "2020"; VStr "2019"]
              [VStr "2020.acl-main"; VStr "2019.acl-main"] Hb)
    as (r & ys & sels & Hr & _ & _ & _ & Hy & Hv & Hby & _).
  - refine (bool_decide_unpack _ _). vm_compute. exact I.
  - apply list_elem_of_here.
  - reflexivity.
  - refine (bool_decide_unpack _ _). vm_compute. exact I.
  - reflexivity.
  - exists r, ys, sels. split; [exact Hr|]. split; [exact Hy|].
    split; [exact Hv|exact Hby].
Defined.

(** A real run on the small anthology writes one file per paper group and
    per initial and the three combined files. *)
Example doe_export_files :
  let w := {| w_heap := doe_heap; w_fs := {| dirs := ∅; files := ∅; mkdir_fails := ∅ |} |} in
  let w' := (export_anthology doe_anthology "out" false w).1 in
  dom (files (w_fs w'))
  = {[ "out/papers/2019.acl.yaml"; "out/papers/2020.acl.yaml";
       "out/volumes.yaml"; "out/venues.yaml"; "out/sigs.yaml";
       "out/people/j.yaml" ]} ∧
  files (w_fs w') !! "out/people/j.yaml"
  = Some {[ "jane-doe" := jane_record; "j-doe" := j_doe_record ]} ∧
  files (w_fs w') !! "out/venues.yaml" = Some {[ "ACL" := acl_record ]} ∧
  w_heap w' = doe_heap_built.
Proof. cbv zeta. repeat apply conj; reflexivity. Qed.

(** A name whose slug is the empty string stops the people loop. *)
Example empty_slug_IndexError :
  let ppl := {| names := ["?"]; name_as_dict := λ _, ∅;
                get_slug := λ _, Some "";
                is_canonical := λ _, false;
                get_papers := λ _, []; get_coauthors := λ _, [];
                get_venues := λ _, []; has_variants := λ _, false;
                get_registered_variants := λ _, [];
                get_canonical_variant := λ n, n |} in
  build_people {| papers := []; people := ppl; volumes := [];
                  venues := []; sigs := [] |} = Raise IndexError.
Proof. reflexivity. Qed.

(** A venue with a year and a volume id that is not in the volume records
    fails with KeyError; without a year the id is never looked up. *)
Example venue_unknown_volume :
  venue_record ∅ ∅ {[ "years" := VList [VStr "2020"];
                      "volumes" := VList [VStr "2020.acl-main"] ]}
  = Raise KeyError ∧
  venue_record ∅ ∅ {[ "years" := VList [];
                      "volumes" := VList [VStr "2020.acl-main"] ]}
  = Ok {[ "years" := VList []; "volumes_by_year" := VDict [] ]}.
Proof. split; reflexivity. Qed.

(** [sorted] with [reverse=True] keeps the order of equal keys. *)
Example sorted_reverse_stable :
  py_sorted fst true
    [(VInt 3, "a"); (VInt 5, "b"); (VInt 1, "c"); (VInt 5, "d"); (VInt 3, "e")]
  = Ok [(VInt 5, "b"); (VInt 5, "d"); (VInt 3, "a"); (VInt 3, "e"); (VInt 1, "c")].
Proof. reflexivity. Qed.

(** * Further properties of the export *)

(** ** The aggregates of a canonical name *)

Lemma StronglySorted_weaken {A} (R S : relation A) (l : list A) :
  (∀ x y, R x y → S x y) → StronglySorted R l → StronglySorted S l.
Proof.
  intros HRS. induction 1 as [|x l Hl IH Hx]; constructor; [exact IH|].
  eapply Forall_impl; [exact Hx|]. intros y. apply HRS.
Qed.

(** [sorted(..., key=lambda p: p[1], reverse=True)]: the same pairs,
    counts never increasing, pairs of one count in their order. *)
Lemma sorted_by_count_desc_spec {A} (l : list (A * Z)) :
  sorted_by_count_desc l ≡ₚ l ∧
  StronglySorted (λ x y, (y.2 ≤ x.2)%Z) (sorted_by_count_desc l) ∧
  (∀ n, filter (λ x, x.2 = n) (sorted_by_count_desc l)
        = filter (λ x, x.2 = n) l).
Proof.
  unfold sorted_by_count_desc. split; [apply isort_perm|]. split.
  - eapply StronglySorted_weaken;
      [|apply (isort_sorted _ (λ _, True))].
    + intros x y H. simpl in H. lia.
    + intros x y _ _ H. lia.
    + intros x y z _ _ _ H1 H2. lia.
    + apply Forall_forall. done.
  - intros n. apply isort_stable. intros x y H Hx Hy. simpl in *. lia.
Qed.

Lemma sorted_coauthors_Ok (ppl : PersonIndex) (name : PersonName)
    (cs : list (string * Z)) :
  sorted_coauthors ppl name = Ok cs →
  ∃ resolved,
    Forall2 (λ co r, get_slug ppl co.1 = Some r.1 ∧ r.2 = co.2)
      (get_coauthors ppl name) resolved ∧
    cs = sorted_by_count_desc resolved.
Proof.
  unfold sorted_coauthors. intros H. inv_result. subst cs.
  rename x into resolved, H0 into Hm. exists resolved. split; [|done].
  apply mapM_Ok in Hm. eapply Forall2_impl; [exact Hm|].
  intros co r Hr. simpl in Hr. inv_result. subst r. simpl.
  split; [|done]. by apply slug_of_name_Ok.
Qed.

(** Property X1.  The [coauthors] field of a canonical name holds one [slug, count]
    pair per coauthor of the identity cluster, the slug being the one
    registered for the coauthor's name; the pairs stand by non-increasing
    count, and pairs with the same count keep the order in which the
    person index lists the coauthors. *)
Theorem canonical_coauthors_sorted (a : Anthology) (name : PersonName)
    (slug : string) (data : dict) :
  is_canonical (people a) name = true →
  person_record a name = Ok (slug, data) →
  ∃ resolved cs,
    Forall2 (λ co r, get_slug (people a) co.1 = Some r.1 ∧ r.2 = co.2)
      (get_coauthors (people a) name) resolved ∧
    data !! "coauthors" = Some (VList (pair_value <$> cs)) ∧
    cs ≡ₚ resolved ∧
    StronglySorted (λ x y, (y.2 ≤ x.2)%Z) cs ∧
    (∀ n, filter (λ x, x.2 = n) cs = filter (λ x, x.2 = n) resolved).
Proof.
  intros Hc Hr.
  destruct (person_record_canonical a name slug data Hc Hr)
    as (_ & ps & cs & vs & _ & Hcs & _ & ->).
  destruct (sorted_coauthors_Ok _ _ _ Hcs) as (resolved & Hres & ->).
  exists resolved, (sorted_by_count_desc resolved).
  split; [exact Hres|]. split.
  - unfold canonical_fields. destruct (has_variants _ _); record_lookup.
  - apply sorted_by_count_desc_spec.
Qed.

(** Property X2.  The [venues] field of a canonical name holds one [venue, count]
    pair per venue of the identity cluster, by non-increasing count, pairs
    with the same count in the order of the mapping the person index
    returns; no lookup is involved. *)
Theorem canonical_venues_sorted (a : Anthology) (name : PersonName)
    (slug : string) (data : dict) :
  is_canonical (people a) name = true →
  person_record a name = Ok (slug, data) →
  ∃ vs,
    data !! "venues" = Some (VList (pair_value <$> vs)) ∧
    vs ≡ₚ get_venues (people a) name ∧
    StronglySorted (λ x y, (y.2 ≤ x.2)%Z) vs ∧
    (∀ n, filter (λ x, x.2 = n) vs
          = filter (λ x, x.2 = n) (get_venues (people a) name)).
Proof.
  intros Hc Hr.
  destruct (person_record_canonical a name slug data Hc Hr)
    as (_ & ps & cs & vs & _ & _ & _ & ->).
  exists (sorted_venues (people a) name). split.
  - unfold canonical_fields. destruct (has_variants _ _); record_lookup.
  - apply sorted_by_count_desc_spec.
Qed.

(** Property X3.  A canonical name gets [variant_entries] exactly when the person
    index says it has variants: the field then lists the slugs of the
    registered variants in their order; otherwise the record has the
    field only if the name's own fields have it. *)
Theorem canonical_variant_entries (a : Anthology) (name : PersonName)
    (slug : string) (data : dict) :
  is_canonical (people a) name = true →
  person_record a name = Ok (slug, data) →
  (has_variants (people a) name = true →
     ∃ vs, Forall2 (λ v s, get_slug (people a) v = Some s)
             (get_registered_variants (people a) name) vs ∧
           data !! "variant_entries" = Some (VList (VStr <$> vs))) ∧
  (has_variants (people a) name = false →
     data !! "variant_entries"
     = name_as_dict (people a) name !! "variant_entries").
Proof.
  intros Hc Hr.
  destruct (person_record_canonical a name slug data Hc Hr)
    as (_ & ps & cs & vs & _ & _ & Hvs & ->).
  unfold canonical_fields. split; intros Hv; rewrite Hv.
  - exists vs. split; [|record_lookup].
    specialize (Hvs Hv). apply mapM_Ok in Hvs.
    eapply Forall2_impl; [exact Hvs|]. intros v s. by apply slug_of_name_Ok.
  - record_lookup.
Qed.

(** Property X4.  Every record of the people index carries the slug registered
    for its name under [slug], and keeps each of the name's own fields
    apart from the six the export assigns. *)
Theorem person_record_own_fields (a : Anthology) (name : PersonName)
    (slug : string) (data : dict) :
  person_record a name = Ok (slug, data) →
  get_slug (people a) name = Some slug ∧
  data !! "slug" = Some (VStr slug) ∧
  (∀ k, k ∉ ["slug"; "papers"; "coauthors"; "venues"; "variant_entries";
             "canonical_entry"] →
        data !! k = name_as_dict (people a) name !! k).
Proof.
  intros Hr. split; [by eapply person_record_slug|].
  split; [by eapply person_record_slug_field|].
  intros k Hk. rewrite !not_elem_of_cons in Hk.
  destruct Hk as (? & ? & ? & ? & ? & ? & _).
  destruct (is_canonical (people a) name) eqn:Hc.
  - destruct (person_record_canonical a name slug data Hc Hr)
      as (_ & ps & cs & vs & _ & _ & _ & ->).
    unfold canonical_fields.
    destruct (has_variants _ _); cbv zeta;
      rewrite ?lookup_insert_ne by done; done.
  - destruct (person_record_variant a name slug data Hc Hr) as (_ & c & _ & ->).
    rewrite !lookup_insert_ne by done. done.
Qed.

Lemma team_ann_record :
  person_record team_anthology ann = Ok ("ann-lee", ann_record).
Proof. reflexivity. Qed.

Lemma canonical_coauthors_sorted_witness :
  is_canonical (people team_anthology) ann = true ∧
  person_record team_anthology ann = Ok ("ann-lee", ann_record) ∧
  ∃ cs, ann_record !! "coauthors" = Some (VList (pair_value <$> cs)) ∧
        StronglySorted (λ x y, (y.2 ≤ x.2)%Z) cs.
Proof.
  split; [reflexivity|]. split; [exact team_ann_record|].
  destruct (canonical_coauthors_sorted team_anthology ann "ann-lee" ann_record)
    as (resolved & cs & _ & Hd & _ & Hs & _).
  - reflexivity.
  - exact team_ann_record.
  - exists cs. split; [exact Hd|exact Hs].
Defined.

Lemma canonical_venues_sorted_witness :
  is_canonical (people team_anthology) ann = true ∧
  person_record team_anthology ann = Ok ("ann-lee", ann_record) ∧
  ∃ vs, ann_record !! "venues" = Some (VList (pair_value <$> vs)) ∧
        vs ≡ₚ [("ACL", 2%Z); ("EMNLP", 5%Z); ("CL", 2%Z)].
Proof.
  split; [reflexivity|]. split; [exact team_ann_record|].
  destruct (canonical_venues_sorted team_anthology ann "ann-lee" ann_record)
    as (vs & Hd & Hp & _).
  - reflexivity.
  - exact team_ann_record.
  - exists vs. split; [exact Hd|exact Hp].
Defined.

Lemma doe_jane_record :
  person_record doe_anthology jane = Ok ("jane-doe", jane_record).
Proof. reflexivity. Qed.

Lemma canonical_variant_entries_witness :
  is_canonical (people doe_anthology) jane = true ∧
  person_record doe_anthology jane = Ok ("jane-doe", jane_record) ∧
  has_variants (people doe_anthology) jane = true ∧
  ∃ vs, jane_record !! "variant_entries" = Some (VList (VStr <$> vs)).
Proof.
  split; [reflexivity|]. split; [exact doe_jane_record|].
  split; [reflexivity|].
  destruct (canonical_variant_entries doe_anthology jane "jane-doe" jane_record)
    as [Hv _].
  - reflexivity.
  - exact doe_jane_record.
  - destruct Hv as (vs & _ & Hd); [reflexivity|]. exists vs. exact Hd.
Defined.

Lemma person_record_own_fields_witness :
  person_record doe_anthology jane = Ok ("jane-doe", jane_record) ∧
  jane_record !! "slug" = Some (VStr "jane-doe") ∧
  jane_record !! "last" = name_as_dict (people doe_anthology) jane !! "last".
Proof.
  split; [exact doe_jane_record|].
  destruct (person_record_own_fields doe_anthology jane "jane-doe" jane_record
              doe_jane_record) as (_ & Hs & Hk).
  split; [exact Hs|]. apply Hk.
  rewrite !not_elem_of_cons. repeat split; try discriminate.
  apply not_elem_of_nil.
Defined.

(** ** SIG records *)

Lemma build_sigs_fill (a : Anthology) :
  build_sigs a = index_fill ((λ it, (it.1, sig_record it.2)) <$> sigs a) ∅.
Proof.
  unfold build_sigs, index_fill. generalize (∅ : gmap string dict).
  induction (sigs a) as [|it l IH]; intros idx; [done|]. csimpl. apply IH.
Qed.

(** Property X5.  The SIG index has one record per acronym.  The record has the
    five fields [name], [slug], [url], [volumes_by_year] and [years] and
    no other; the first four are the SIG's attributes as they are, and
    [years] holds the years as strings in ascending string order. *)
Theorem sig_records_built (a : Anthology) (acronym : string) (sig : SIG) :
  NoDup ((sigs a).*1) →
  (acronym, sig) ∈ sigs a →
  ∃ r ys,
    build_sigs a !! acronym = Some r ∧
    dom r = ({[ "name"; "slug"; "url"; "volumes_by_year"; "years" ]} : gset string) ∧
    r !! "name" = Some (sig_name sig) ∧
    r !! "slug" = Some (sig_slug sig) ∧
    r !! "url" = Some (sig_url sig) ∧
    r !! "volumes_by_year" = Some (sig_volumes_by_year sig) ∧
    r !! "years" = Some (VList (VStr <$> ys)) ∧
    ys ≡ₚ sig_years sig ∧
    StronglySorted (λ x y, String.ltb y x = false) ys ∧
    (∀ k, is_Some (build_sigs a !! k) ↔ k ∈ (sigs a).*1).
Proof.
  intros Hnd Hin.
  exists (sig_record sig), (isort String.ltb (sig_years sig)).
  rewrite build_sigs_fill. split.
  { apply index_fill_lookup.
    - rewrite <- list_fmap_compose.
      erewrite list_fmap_ext; [exact Hnd|]. by intros _ [k s] _.
    - apply list_elem_of_fmap. exists (acronym, sig). done. }
  split.
  { unfold sig_record. rewrite !dom_insert_L, dom_singleton_L. set_solver. }
  unfold sig_record. do 5 (split; [by record_lookup|]).
  split; [apply isort_perm|]. split.
  { apply (isort_sorted _ (λ _, True)).
    - intros x y _ _. apply string_ltb_asym.
    - intros x y z _ _ _. apply string_ltb_neg_trans.
    - apply Forall_forall. done. }
  intros k. split.
  - intros [r Hr]. apply index_fill_lookup_inv in Hr as [Hr|Hr]; [|done].
    apply list_elem_of_fmap in Hr as ([k' s] & [= -> _] & Hs).
    apply list_elem_of_fmap. exists (k', s). done.
  - intros Hk. apply list_elem_of_fmap in Hk as ([k' s] & -> & Hs). simpl.
    clear Hnd Hin. revert Hs. generalize (∅ : gmap string dict).
    induction (sigs a) as [|it l IH]; intros idx Hs; [by apply elem_of_nil in Hs|].
    apply elem_of_cons in Hs as [<-|Hs].
    + csimpl. clear IH. unfold index_fill.
      generalize (sig_record s). intros r.
      assert (Hgen : ∀ (es : list (string * dict)) (i : gmap string dict),
                 is_Some (i !! k') →
                 is_Some (foldl (λ idx e, <[e.1 := e.2]> idx) i es !! k')).
      { induction es as [|e es IHes]; intros i Hi; [done|]. simpl.
        apply IHes. destruct (decide (e.1 = k')) as [->|Hne].
        - rewrite lookup_insert_eq. done.
        - rewrite lookup_insert_ne by done. done. }
      apply Hgen. simpl. rewrite lookup_insert_eq. done.
    + csimpl. apply IH. exact Hs.
Qed.

Lemma sig_records_built_witness :
  NoDup ((sigs team_anthology).*1) ∧
  ("SIGDAT", sigdat) ∈ sigs team_anthology ∧
  ∃ r, build_sigs team_anthology !! "SIGDAT" = Some r ∧
       r !! "years" = Some (VList [VStr "1996"; VStr "2004"; VStr "2019"]).
Proof.
  assert (Hnd : NoDup ((sigs team_anthology).*1)).
  { refine (bool_decide_unpack _ _). vm_compute. exact I. }
  assert (Hin : ("SIGDAT", sigdat) ∈ sigs team_anthology).
  { apply list_elem_of_here. }
  split; [exact Hnd|]. split; [exact Hin|].
  destruct (sig_records_built team_anthology "SIGDAT" sigdat Hnd Hin)
    as (r & ys & Hr & _). exists r. split; [exact Hr|].
  assert (Hc : build_sigs team_anthology !! "SIGDAT" = Some (sig_record sigdat)).
  { reflexivity. }
  rewrite Hr in Hc. injection Hc as ->. reflexivity.
Defined.

(** ** What the records keep *)

Ltac lookup_other :=
  repeat first [rewrite lookup_delete_ne by done
               |rewrite lookup_insert_ne by done].

(** Property X6.  A paper record keeps every field of the paper that is not one of
    the eight the loop body names, and [booktitle_html] and
    [abstract_html] as well when the paper has no [xml_booktitle] or
    [xml_abstract] to replace. *)
Theorem paper_record_keeps_fields (ppl : PersonIndex) (paper : Paper) (r : dict) :
  paper_record ppl paper = Ok r →
  (∀ k, k ∉ ["title_html"; "xml_title"; "booktitle_html"; "xml_booktitle";
             "abstract_html"; "xml_abstract"; "author"; "editor"] →
        r !! k = paper_as_dict paper !! k) ∧
  (paper_as_dict paper !! "xml_booktitle" = None →
     r !! "booktitle_html" = paper_as_dict paper !! "booktitle_html") ∧
  (paper_as_dict paper !! "xml_abstract" = None →
     r !! "abstract_html" = paper_as_dict paper !! "abstract_html") ∧
  (∀ k, k = "author" ∨ k = "editor" →
        paper_as_dict paper !! k = None → r !! k = None).
Proof.
  intros Hr. apply paper_record_Ok in Hr as (_ & d1 & Ha & He).
  assert (Hother : ∀ k, k ≠ "author" → k ≠ "editor" →
            r !! k = paper_markup_step paper !! k).
  { intros k H1 H2.
    rewrite (resolve_names_other _ _ _ _ _ He) by done.
    by rewrite (resolve_names_other _ _ _ _ _ Ha) by done. }
  split; [|split; [|split]].
  - intros k Hk. rewrite !not_elem_of_cons in Hk.
    destruct Hk as (? & ? & ? & ? & ? & ? & ? & ? & _).
    rewrite Hother by done. unfold paper_markup_step. cbv zeta.
    repeat case_decide;
      lookup_other; done.
  - intros Hb. rewrite Hother by done. unfold paper_markup_step. cbv zeta.
    repeat case_decide; lookup_other; try done; exfalso;
      match goal with
      | H : is_Some (_ !! "xml_booktitle") |- _ =>
          revert H; lookup_other; rewrite Hb; by intros [? [=]]
      end.
  - intros Hb. rewrite Hother by done. unfold paper_markup_step. cbv zeta.
    repeat case_decide; lookup_other; try done; exfalso;
      match goal with
      | H : is_Some (_ !! "xml_abstract") |- _ =>
          revert H; lookup_other; rewrite Hb; by intros [? [=]]
      end.
  - intros k Hk Hn.
    assert (Hm : paper_markup_step paper !! k = None).
    { rewrite paper_markup_names by done. exact Hn. }
    destruct Hk as [-> | ->].
    + rewrite (resolve_names_other _ _ _ _ _ He) by done.
      apply resolve_names_Ok in Ha as [[_ ->]|(v & ? & ? & Hv & _)]; [done|].
      rewrite Hm in Hv. done.
    + assert (Hd1 : d1 !! "editor" = None).
      { by rewrite (resolve_names_other _ _ _ _ _ Ha) by done. }
      apply resolve_names_Ok in He as [[_ ->]|(v & ? & ? & Hv & _)]; [done|].
      rewrite Hd1 in Hv. done.
Qed.

Lemma doe_record_2019 : paper_record doe_people paper_2019 = Ok record_2019.
Proof. reflexivity. Qed.

Lemma paper_record_keeps_fields_witness :
  paper_record doe_people paper_2019 = Ok record_2019 ∧
  record_2019 !! "year" = Some (VStr "2019") ∧
  record_2019 !! "booktitle_html" = None.
Proof.
  split; [exact doe_record_2019|].
  destruct (paper_record_keeps_fields doe_people paper_2019 record_2019
              doe_record_2019) as (Hk & Hb & _).
  split.
  - rewrite Hk; [reflexivity|].
    rewrite !not_elem_of_cons. repeat split; try discriminate.
    apply not_elem_of_nil.
  - rewrite Hb; reflexivity.
Defined.

(** Property X7.  Building a volume's record changes its [attrib] dictionary in
    the six fields [title_html], [xml_title], [xml_abstract], [papers],
    [author] and [editor] and in no other; an absent name list stays
    absent. *)
Theorem volume_record_keeps_fields (ppl : PersonIndex) (volume : Volume)
    (d d' : dict) :
  volume_record ppl volume d = (d', Ok ()) →
  (∀ k, k ∉ ["title_html"; "xml_title"; "xml_abstract"; "papers";
             "author"; "editor"] →
        d' !! k = d !! k) ∧
  (∀ k, k = "author" ∨ k = "editor" → d !! k = None → d' !! k = None).
Proof.
  intros Hr. apply volume_record_Ok in Hr as (_ & d1 & Ha & He).
  assert (Hother : ∀ k, k ≠ "author" → k ≠ "editor" →
            d' !! k = volume_markup_step volume d !! k).
  { intros k H1 H2.
    rewrite (resolve_names_other _ _ _ _ _ He) by done.
    by rewrite (resolve_names_other _ _ _ _ _ Ha) by done. }
  assert (Hnames : ∀ k, k = "author" ∨ k = "editor" →
            volume_markup_step volume d !! k = d !! k).
  { intros k [-> | ->]; unfold volume_markup_step; cbv zeta;
      case_decide; lookup_other; done. }
  split.
  - intros k Hk. rewrite !not_elem_of_cons in Hk.
    destruct Hk as (? & ? & ? & ? & ? & ? & _).
    rewrite Hother by done. unfold volume_markup_step. cbv zeta.
    case_decide; lookup_other; done.
  - intros k Hk Hn.
    assert (Hm : volume_markup_step volume d !! k = None).
    { rewrite Hnames by done. exact Hn. }
    destruct Hk as [-> | ->].
    + rewrite (resolve_names_other _ _ _ _ _ He) by done.
      apply resolve_names_Ok in Ha as [[_ ->]|(v & ? & ? & Hv & _)]; [done|].
      rewrite Hm in Hv. done.
    + assert (Hd1 : d1 !! "editor" = None).
      { by rewrite (resolve_names_other _ _ _ _ _ Ha) by done. }
      apply resolve_names_Ok in He as [[_ ->]|(v & ? & ? & Hv & _)]; [done|].
      rewrite Hd1 in Hv. done.
Qed.

Lemma doe_volume_2019_record :
  volume_record doe_people volume_2019 (deref doe_heap 2%positive)
  = (deref doe_heap_built 2%positive, Ok ()).
Proof. reflexivity. Qed.

Lemma volume_record_keeps_fields_witness :
  volume_record doe_people volume_2019 (deref doe_heap 2%positive)
  = (deref doe_heap_built 2%positive, Ok ()) ∧
  deref doe_heap_built 2%positive !! "year" = Some (VStr "2019") ∧
  deref doe_heap_built 2%positive !! "editor" = None.
Proof.
  split; [exact doe_volume_2019_record|].
  destruct (volume_record_keeps_fields doe_people volume_2019 _ _
              doe_volume_2019_record) as (Hk & Hn).
  split.
  - rewrite Hk; [reflexivity|].
    rewrite !not_elem_of_cons. repeat split; try discriminate.
    apply not_elem_of_nil.
  - apply Hn; [right|]; reflexivity.
Defined.

(** Property X8.  A volume whose record cannot be built is left half rewritten,
    since the body works on [volume.attrib] itself: [title_html] is set
    in every case; when [xml_title] is missing that is the only change
    and the exception is KeyError; when a name list fails, [xml_title]
    and [xml_abstract] are already gone and [papers] is already set. *)
Theorem volume_record_failure (ppl : PersonIndex) (volume : Volume)
    (d d' : dict) (e : error) :
  volume_record ppl volume d = (d', Raise e) →
  d' !! "title_html" = Some (volume_title_html volume) ∧
  (d !! "xml_title" = None →
     e = KeyError ∧ d' = <["title_html" := volume_title_html volume]> d) ∧
  (is_Some (d !! "xml_title") →
     d' !! "xml_title" = None ∧ d' !! "xml_abstract" = None ∧
     d' !! "papers" = Some (VList (VStr <$> volume_paper_ids volume)) ∧
     (resolve_names ppl "author" (volume_markup_step volume d) = Raise e ∧
      d' = volume_markup_step volume d
      ∨ ∃ d1, resolve_names ppl "author" (volume_markup_step volume d) = Ok d1 ∧
              resolve_names ppl "editor" d1 = Raise e ∧ d' = d1)).
Proof.
  unfold volume_record. cbv zeta. unfold py_del.
  rewrite lookup_insert_ne by done.
  destruct (d !! "xml_title") as [t|] eqn:Ht.
  - fold (volume_markup_step volume d).
    assert (Hm : volume_markup_step volume d !! "title_html"
                 = Some (volume_title_html volume) ∧
                 volume_markup_step volume d !! "xml_title" = None ∧
                 volume_markup_step volume d !! "xml_abstract" = None ∧
                 volume_markup_step volume d !! "papers"
                 = Some (VList (VStr <$> volume_paper_ids volume))).
    { unfold volume_markup_step. cbv zeta. repeat split; record_lookup.
      all: try (match goal with
                | H : ¬ is_Some ?x |- ?y = None =>
                    destruct y eqn:E; [exfalso; apply H; rewrite <- E|done]
                end).
      all: try (lookup_other; eauto). }
    destruct Hm as (M1 & M2 & M3 & M4).
    destruct (resolve_names ppl "author" (volume_markup_step volume d))
      as [d1|e1] eqn:Ha.
    + assert (Hd1 : ∀ k, k ≠ "author" →
                d1 !! k = volume_markup_step volume d !! k).
      { intros k Hk. by rewrite (resolve_names_other _ _ _ _ _ Ha). }
      destruct (resolve_names ppl "editor" d1) as [d2|e2] eqn:He;
        intros [= <- <-].
      split; [by rewrite Hd1|]. split; [done|]. intros _.
      rewrite !Hd1 by done. repeat (split; [done|]).
      right. exists d1. done.
    + intros [= <- <-]. split; [done|]. split; [done|]. intros _.
      repeat (split; [done|]). left. done.
  - intros [= <- <-]. split; [by rewrite lookup_insert_eq|].
    split; [done|]. intros [? [=]].
Qed.

Lemma volume_record_failure_witness :
  volume_record empty_people one_volume nobody_fields
  = (volume_markup_step one_volume nobody_fields, Raise KeyError) ∧
  volume_markup_step one_volume nobody_fields !! "papers"
  = Some (VList [VStr "2020.acl-main.1"]).
Proof.
  assert (Hr : volume_record empty_people one_volume nobody_fields
               = (volume_markup_step one_volume nobody_fields, Raise KeyError)).
  { reflexivity. }
  split; [exact Hr|].
  destruct (volume_record_failure _ _ _ _ _ Hr) as (_ & _ & Hs).
  destruct Hs as (_ & _ & Hp & _); [by eexists|]. exact Hp.
Defined.

(** ** Venues without years or volumes *)

Lemma py_sorted_id_Ok (ys : list value) :
  comparable ys = true ∨ (length ys ≤ 1)%nat →
  py_sorted id false ys = Ok (isort (key_before id false) ys).
Proof.
  intros H. unfold py_sorted. rewrite list_fmap_id.
  destruct H as [-> | H]; [done|].
  rewrite (bool_decide_eq_true_2 _ H). by rewrite orb_true_r.
Qed.

(** Property X9.  The edge cases of a venue record.  A venue without [years], or
    with sortable years but without [volumes], raises KeyError; years
    that cannot be ordered (two or more, with [<] undefined between some
    two of them) raise TypeError; a venue with an empty [years] gets an empty
    [volumes_by_year] and loses [volumes] without any of its volume ids
    being looked up. *)
Theorem venue_record_edge_cases (vols : gmap string loc) (h : heap)
    (fields : dict) :
  (fields !! "years" = None → venue_record vols h fields = Raise KeyError) ∧
  (∀ ys, fields !! "years" = Some (VList ys) →
     comparable ys = false → (2 ≤ length ys)%nat →
     venue_record vols h fields = Raise TypeError) ∧
  (∀ ys, fields !! "years" = Some (VList ys) →
     comparable ys = true ∨ (length ys ≤ 1)%nat →
     fields !! "volumes" = None →
     venue_record vols h fields = Raise KeyError) ∧
  (fields !! "years" = Some (VList []) → is_Some (fields !! "volumes") →
     venue_record vols h fields
     = Ok (delete "volumes" (<["volumes_by_year" := VDict []]> fields))).
Proof.
  split; [|split; [|split]].
  - intros Hy. unfold venue_record, sorted_years. cbv zeta. by rewrite Hy.
  - intros ys Hy Hc Hl. unfold venue_record, sorted_years. cbv zeta.
    rewrite Hy. simpl. unfold py_sorted. rewrite list_fmap_id, Hc.
    rewrite bool_decide_eq_false_2 by lia. done.
  - intros ys Hy Hc Hv. unfold venue_record. cbv zeta.
    assert (Hs : ∀ d : dict, d !! "years" = Some (VList ys) →
              sorted_years d = Ok (isort (key_before id false) ys)).
    { intros d Hd. unfold sorted_years. rewrite Hd. simpl.
      by apply py_sorted_id_Ok. }
    rewrite (Hs fields Hy). simpl.
    destruct (isort (key_before id false) ys) as [|y rest] eqn:Hi.
    + simpl. rewrite Hs by (by rewrite lookup_insert_ne).
      simpl. unfold py_del.
      by rewrite lookup_insert_ne, lookup_insert_ne, Hv.
    + simpl. unfold volumes_of_year. by rewrite Hv.
  - intros Hy [kv Hv]. unfold venue_record, sorted_years. cbv zeta.
    rewrite Hy. simpl. rewrite lookup_insert_ne, Hy by done. simpl.
    unfold py_del. rewrite lookup_insert_ne, lookup_insert_ne, Hv by done.
    f_equal. f_equal. apply insert_id. by rewrite lookup_insert_ne.
Qed.

Lemma venue_record_edge_cases_witness :
  mixed_years_fields !! "years" = Some (VList [VStr "2020"; VInt 2019]) ∧
  comparable [VStr "2020"; VInt 2019] = false ∧
  venue_record doe_volumes_index doe_heap_built mixed_years_fields
  = Raise TypeError ∧
  venue_record doe_volumes_index doe_heap_built
    (<["years" := VList []]> mixed_years_fields)
  = Ok (delete "volumes"
          (<["volumes_by_year" := VDict []]>
             (<["years" := VList []]> mixed_years_fields))).
Proof.
  split; [reflexivity|]. split; [reflexivity|].
  destruct (venue_record_edge_cases doe_volumes_index doe_heap_built
              mixed_years_fields) as (_ & Hmixed & _).
  destruct (venue_record_edge_cases doe_volumes_index doe_heap_built
              (<["years" := VList []]> mixed_years_fields))
    as (_ & _ & _ & Hempty).
  split.
  - apply (Hmixed [VStr "2020"; VInt 2019]); [reflexivity|reflexivity|].
    simpl. lia.
  - apply Hempty; [reflexivity|]. by eexists.
Defined.

(** ** Years that cannot be ordered *)




(** ** The export as a whole *)

(** What a completed export has computed. *)
Lemma export_anthology_Ok (a : Anthology) (outdir : string) (dryrun : bool)
    (w w' : world) (recs : records) :
  export_anthology a outdir dryrun w = (w', Ok recs) ↔
  build_papers a = Ok (rec_papers recs) ∧
  build_people a = Ok (rec_people recs) ∧
  build_volumes a (w_heap w) = (w_heap w', Ok (rec_volumes recs)) ∧
  build_venues a (rec_volumes recs) (w_heap w') = Ok (rec_venues recs) ∧
  rec_sigs recs = build_sigs a ∧
  w_fs w' = (if dryrun then (make_dirs outdir (w_fs w)).1
             else dump_all outdir (w_heap w') recs
                    (make_dirs outdir (w_fs w)).1) ∧
  (make_dirs outdir (w_fs w)).2 = Ok ().
Proof.
  unfold export_anthology, build_records.
  destruct (make_dirs outdir (w_fs w)) as [fs [[]|e]]; simpl;
    [|split; [done|by intros (_ & _ & _ & _ & _ & _ & [=])]].
  destruct (build_papers a) as [ps|e]; [|split; [done|by intros [[=] _]]].
  destruct (build_people a) as [pp|e]; [|split; [done|by intros (_ & [=] & _)]].
  destruct (build_volumes a (w_heap w)) as [h' [vols|e]];
    [|split; [done|by intros (_ & _ & [=] & _)]].
  destruct (build_venues a vols h') as [vn|e] eqn:Hvn.
  - split.
    + intros [= <- <-]. simpl. done.
    + destruct recs as [ps' pp' vols' vn' sg'], w' as [h'' fs']. simpl.
      intros ([= ->] & [= ->] & [= -> ->] & Hvn' & -> & -> & _).
      rewrite Hvn in Hvn'. injection Hvn' as ->. done.
  - split; [done|].
    destruct recs as [ps' pp' vols' vn' sg'], w' as [h'' fs']. simpl.
    intros (_ & _ & [= -> ->] & Hvn' & _). rewrite Hvn in Hvn'. done.
Qed.

(** The volume loop writes to the dictionaries of the volumes only,
    however it ends. *)
Lemma volumes_loop_frame (ppl : PersonIndex) (items : list (string * Volume))
    (idx : gmap string loc) (h : heap) (l : loc) :
  l ∉ (volume_attrib ∘ snd) <$> items →
  (volumes_loop ppl items idx h).1 !! l = h !! l.
Proof.
  revert idx h. induction items as [|[id v] items IH]; intros idx h Hl; [done|].
  rewrite fmap_cons, not_elem_of_cons in Hl. destruct Hl as [Hne Hl]. simpl in Hne.
  simpl. destruct (volume_record ppl v (deref h (volume_attrib v))) as [d [[]|e]].
  - rewrite IH by done. by rewrite lookup_insert_ne.
  - simpl. by rewrite lookup_insert_ne.
Qed.

Lemma volumes_loop_app (ppl : PersonIndex) (pre rest : list (string * Volume))
    (idx : gmap string loc) (h : heap) :
  volumes_loop ppl (pre ++ rest) idx h
  = let '(h1, r) := volumes_loop ppl pre idx h in
    match r with
    | Ok idx1 => volumes_loop ppl rest idx1 h1
    | Raise e => (h1, Raise e)
    end.
Proof.
  revert idx h. induction pre as [|[id v] pre IH]; intros idx h; [done|].
  simpl. destruct (volume_record ppl v (deref h (volume_attrib v))) as [d [[]|e]];
    [apply IH|done].
Qed.

(** The dictionaries after an export are those it was given or those the
    volume loop has left. *)
Lemma export_anthology_heap (a : Anthology) (outdir : string) (dryrun : bool)
    (w : world) :
  w_heap (export_anthology a outdir dryrun w).1 = w_heap w ∨
  w_heap (export_anthology a outdir dryrun w).1
  = (build_volumes a (w_heap w)).1.
Proof.
  unfold export_anthology.
  destruct (make_dirs outdir (w_fs w)) as [fs [[]|e]]; [|by left].
  pose proof (build_records_heap a (w_heap w)) as H.
  by destruct (build_records a (w_heap w)) as [h [recs|e]].
Qed.

(** An export that gets to the volume loop ends as that loop does when it
    raises. *)
Lemma export_anthology_volumes_Raise (a : Anthology) (outdir : string)
    (dryrun : bool) (w : world) (h' : heap) (e : error) :
  dirs_creatable outdir (w_fs w) →
  is_ok (build_papers a) = true → is_ok (build_people a) = true →
  build_volumes a (w_heap w) = (h', Raise e) →
  export_anthology a outdir dryrun w
  = ({| w_heap := h'; w_fs := (make_dirs outdir (w_fs w)).1 |}, Raise e).
Proof.
  intros Hc Hps Hpp Hv. rewrite (export_anthology_creatable _ _ _ _ Hc).
  unfold build_records.
  destruct (build_papers a) as [ps|]; [|done].
  destruct (build_people a) as [pp|]; [|done].
  by rewrite Hv.
Qed.

(** Property X11.  Which volume dictionaries an export that fails has
    rewritten.  A failure before the volume loop (a directory that cannot
    be made, the paper loop, the people loop) leaves every dictionary as
    it was.  When the volume loop stops at a volume, the dictionary of
    every later volume is as it was, unless that volume or an earlier one
    refers to the same dictionary; and when the export got to the volume
    loop, it ends with the exception of that volume, whose dictionary is
    left as the failed record left it. *)
Theorem export_heap_frame (a : Anthology) (outdir : string) (dryrun : bool)
    (w : world) :
  let w' := (export_anthology a outdir dryrun w).1 in
  (¬ dirs_creatable outdir (w_fs w) → w_heap w' = w_heap w) ∧
  (∀ e, build_papers a = Raise e → w_heap w' = w_heap w) ∧
  (∀ e, build_people a = Raise e → w_heap w' = w_heap w) ∧
  (∀ pre id volume rest h1 idx1 d e,
     volumes a = pre ++ (id, volume) :: rest →
     volumes_loop (people a) pre ∅ (w_heap w) = (h1, Ok idx1) →
     volume_record (people a) volume (deref h1 (volume_attrib volume))
     = (d, Raise e) →
     (∀ id' later, (id', later) ∈ rest →
        volume_attrib later
        ∉ (volume_attrib ∘ snd) <$> (pre ++ [(id, volume)]) →
        w_heap w' !! volume_attrib later = w_heap w !! volume_attrib later) ∧
     (dirs_creatable outdir (w_fs w) →
      is_ok (build_papers a) = true → is_ok (build_people a) = true →
      (export_anthology a outdir dryrun w).2 = Raise e ∧
      w_heap w' !! volume_attrib volume = Some d)).
Proof.
  cbv zeta. split; [|split; [|split]].
  - intros Hc. by rewrite (export_anthology_mkdir_fails _ _ _ _ Hc).
  - intros e He. unfold export_anthology, build_records.
    destruct (make_dirs outdir (w_fs w)) as [fs [[]|e']]; [|done].
    by rewrite He.
  - intros e He. unfold export_anthology, build_records.
    destruct (make_dirs outdir (w_fs w)) as [fs [[]|e']]; [|done].
    rewrite He. by destruct (build_papers a).
  - intros pre id volume rest h1 idx1 d e Hvs Hpre Hrec.
    assert (Hv : build_volumes a (w_heap w)
                 = (<[volume_attrib volume := d]> h1, Raise e)).
    { unfold build_volumes. rewrite Hvs, volumes_loop_app, Hpre. simpl.
      by rewrite Hrec. }
    split.
    + intros id' later Hin Hl.
      destruct (export_anthology_heap a outdir dryrun w) as [-> | ->]; [done|].
      rewrite Hv. simpl.
      rewrite fmap_app, not_elem_of_app in Hl. destruct Hl as [Hl1 Hl2].
      simpl in Hl2. rewrite list_elem_of_singleton in Hl2.
      rewrite lookup_insert_ne by done.
      pose proof (volumes_loop_frame (people a) pre ∅ (w_heap w) _ Hl1) as Hf.
      by rewrite Hpre in Hf.
    + intros Hc Hps Hpp.
      rewrite (export_anthology_volumes_Raise _ _ _ _ _ _ Hc Hps Hpp Hv).
      simpl. split; [done|]. by rewrite lookup_insert_eq.
Qed.

Lemma export_heap_frame_witness :
  volumes unregistered_anthology
  = [] ++ ("2020.acl-main", volume_2020) :: [("2019.acl-main", volume_2019)] ∧
  volume_record empty_people volume_2020 (deref doe_heap 1%positive)
  = (volume_2020_stopped, Raise KeyError) ∧
  (export_anthology unregistered_anthology "out" true doe_world).2
  = Raise KeyError ∧
  w_heap (export_anthology unregistered_anthology "out" true doe_world).1
    !! 2%positive = doe_heap !! 2%positive ∧
  w_heap (export_anthology unregistered_anthology "out" true doe_world).1
    !! 1%positive = Some volume_2020_stopped.
Proof.
  assert (Hr : volume_record empty_people volume_2020 (deref doe_heap 1%positive)
               = (volume_2020_stopped, Raise KeyError)) by reflexivity.
  split; [reflexivity|]. split; [exact Hr|].
  destruct (export_heap_frame unregistered_anthology "out" true doe_world)
    as (_ & _ & _ & H).
  destruct (H [] "2020.acl-main" volume_2020 [("2019.acl-main", volume_2019)]
              doe_heap ∅ volume_2020_stopped KeyError eq_refl eq_refl Hr)
    as [Hlater Hstop].
  destruct Hstop as [He Hd];
    [by apply dirs_creatable_no_failure|reflexivity|reflexivity|].
  split; [exact He|]. split; [|exact Hd].
  apply (Hlater "2019.acl-main" volume_2019); [apply list_elem_of_here|].
  simpl. rewrite list_elem_of_singleton. discriminate.
Defined.

(** Property X12.  The export cannot be repeated on the same object
    graph: after an export that succeeded, dry run or not, on an
    anthology with at least one volume, a further export of that
    anthology into the same directory, or into any directory that can be
    made, raises KeyError, because the first volume's dictionary has lost
    [xml_title]; into a directory that cannot be made it raises the
    OSError of line 49. *)
Theorem export_twice_KeyError (a : Anthology) (outdir outdir' : string)
    (dryrun dryrun' : bool) (w w' : world) (recs : records) :
  export_anthology a outdir dryrun w = (w', Ok recs) →
  volumes a ≠ [] →
  (export_anthology a outdir dryrun' w').2 = Raise KeyError ∧
  (dirs_creatable outdir' (w_fs w') →
     (export_anthology a outdir' dryrun' w').2 = Raise KeyError) ∧
  (¬ dirs_creatable outdir' (w_fs w') →
     (export_anthology a outdir' dryrun' w').2 = Raise OSError).
Proof.
  intros (Hps & Hpp & Hv & _ & _ & Hfs & Hmk)%export_anthology_Ok Hne.
  destruct (volumes a) as [|[id v] rest] eqn:Hvs; [done|].
  destruct (build_volumes_mutates a _ _ _ id v Hv) as (_ & Hx & _).
  { rewrite Hvs. apply list_elem_of_here. }
  assert (Hkey : ∀ o, dirs_creatable o (w_fs w') →
            (export_anthology a o dryrun' w').2 = Raise KeyError).
  { intros o Hc. rewrite (export_anthology_creatable _ _ _ _ Hc).
    unfold build_records. rewrite Hps, Hpp.
    unfold build_volumes. rewrite Hvs. simpl.
    unfold volume_record. cbv zeta. unfold py_del.
    rewrite lookup_insert_ne, Hx by done. done. }
  split; [|split; [apply Hkey|]].
  - apply Hkey, dirs_creatable_existing.
    assert (Hd : dirs (w_fs w') = dirs (make_dirs outdir (w_fs w)).1).
    { rewrite Hfs. destruct dryrun; [done|]. apply dump_all_spec. }
    rewrite Hd, (make_dirs_dirs _ _ Hmk). apply union_subseteq_l.
  - intros Hc. by rewrite (export_anthology_mkdir_fails _ _ _ _ Hc).
Qed.

Lemma doe_export_dryrun :
  export_anthology doe_anthology "out" true doe_world
  = ({| w_heap := doe_heap_built;
        w_fs := {| dirs := target_dirs "out"; files := ∅; mkdir_fails := ∅ |} |},
     Ok doe_records).
Proof. reflexivity. Qed.

Lemma export_twice_KeyError_witness :
  export_anthology doe_anthology "out" true doe_world
  = ({| w_heap := doe_heap_built;
        w_fs := {| dirs := target_dirs "out"; files := ∅; mkdir_fails := ∅ |} |},
     Ok doe_records) ∧
  volumes doe_anthology ≠ [] ∧
  (export_anthology doe_anthology "out" false
     {| w_heap := doe_heap_built;
        w_fs := {| dirs := target_dirs "out"; files := ∅;
                   mkdir_fails := ∅ |} |}).2
  = Raise KeyError.
Proof.
  split; [exact doe_export_dryrun|]. split; [discriminate|].
  refine (proj1 (export_twice_KeyError doe_anthology "out" "out" true false
                   doe_world _ doe_records doe_export_dryrun _)).
  discriminate.
Defined.

(** ** The files of a real run *)

Lemma papers_path_ne (outdir g : string) :
  papers_path outdir g ≠ outdir +:+ "/volumes.yaml" ∧
  papers_path outdir g ≠ outdir +:+ "/venues.yaml" ∧
  papers_path outdir g ≠ outdir +:+ "/sigs.yaml" ∧
  ∀ c, papers_path outdir g ≠ people_path outdir c.
Proof.
  unfold papers_path, people_path.
  split; [|split; [|split; [|intros c]]];
    intros H; apply String.app_inj in H; discriminate H.
Qed.

Lemma people_path_ne (outdir c : string) :
  people_path outdir c ≠ outdir +:+ "/volumes.yaml" ∧
  people_path outdir c ≠ outdir +:+ "/venues.yaml" ∧
  people_path outdir c ≠ outdir +:+ "/sigs.yaml".
Proof.
  unfold people_path.
  repeat split; intros H; apply String.app_inj in H; discriminate H.
Qed.

Lemma combined_path_ne (outdir : string) :
  outdir +:+ "/volumes.yaml" ≠ outdir +:+ "/venues.yaml" ∧
  outdir +:+ "/volumes.yaml" ≠ outdir +:+ "/sigs.yaml" ∧
  outdir +:+ "/venues.yaml" ≠ outdir +:+ "/sigs.yaml".
Proof.
  repeat split; intros H; apply String.app_inj in H; discriminate H.
Qed.

Lemma lookup_kmap_path (path : string → string) `{!Inj (=) (=) path}
    (docs : gmap string (gmap string dict)) (p : string) :
  (∀ k, p ≠ path k) →
  (kmap path docs : gmap string (gmap string dict)) !! p = None.
Proof.
  intros Hp. apply lookup_kmap_None; [done|]. intros k ->. by destruct (Hp k).
Qed.

(** The content of each path after the dump. *)
Lemma dump_all_lookup (outdir : string) (h : heap) (r : records)
    (fs : filesystem) :
  (∀ g, files (dump_all outdir h r fs) !! papers_path outdir g
        = match rec_papers r !! g with
          | Some grp => Some grp
          | None => files fs !! papers_path outdir g
          end) ∧
  (∀ c, files (dump_all outdir h r fs) !! people_path outdir c
        = match rec_people r !! c with
          | Some bucket => Some bucket
          | None => files fs !! people_path outdir c
          end) ∧
  files (dump_all outdir h r fs) !! (outdir +:+ "/volumes.yaml")
    = Some (deref h <$> rec_volumes r) ∧
  files (dump_all outdir h r fs) !! (outdir +:+ "/venues.yaml")
    = Some (rec_venues r) ∧
  files (dump_all outdir h r fs) !! (outdir +:+ "/sigs.yaml")
    = Some (rec_sigs r) ∧
  (∀ p, (∀ g, is_Some (rec_papers r !! g) → p ≠ papers_path outdir g) →
        (∀ c, is_Some (rec_people r !! c) → p ≠ people_path outdir c) →
        p ≠ outdir +:+ "/volumes.yaml" → p ≠ outdir +:+ "/venues.yaml" →
        p ≠ outdir +:+ "/sigs.yaml" →
        files (dump_all outdir h r fs) !! p = files fs !! p).
Proof.
  destruct (dump_all_spec outdir h r fs) as [-> _].
  destruct (combined_path_ne outdir) as (C1 & C2 & C3).
  assert (Hpeople : ∀ p, (∀ c, p ≠ people_path outdir c) →
            (kmap (people_path outdir) (rec_people r)
               : gmap string (gmap string dict)) !! p = None).
  { intros p. apply lookup_kmap_path, _. }
  assert (Hpapers : ∀ p, (∀ g, p ≠ papers_path outdir g) →
            (kmap (papers_path outdir) (rec_papers r)
               : gmap string (gmap string dict)) !! p = None).
  { intros p. apply lookup_kmap_path, _. }
  split; [|split; [|split; [|split; [|split]]]].
  - intros g. destruct (papers_path_ne outdir g) as (N1 & N2 & N3 & N4).
    rewrite lookup_union_r by (apply Hpeople; intros c; apply N4).
    rewrite !lookup_insert_ne by done.
    rewrite lookup_union, lookup_kmap by apply _.
    by destruct (rec_papers r !! g), (files fs !! _).
  - intros c. destruct (people_path_ne outdir c) as (N1 & N2 & N3).
    rewrite lookup_union, lookup_kmap by apply _.
    rewrite !lookup_insert_ne by done.
    rewrite lookup_union_r.
    + by destruct (rec_people r !! c), (files fs !! _).
    + apply Hpapers. intros g H. symmetry in H. revert H.
      apply (papers_path_ne outdir g).
  - rewrite lookup_union_r.
    + rewrite !lookup_insert_ne by done. by rewrite lookup_insert_eq.
    + apply Hpeople. intros c H. symmetry in H. revert H.
      apply (people_path_ne outdir c).
  - rewrite lookup_union_r.
    + rewrite !lookup_insert_ne by done. by rewrite lookup_insert_eq.
    + apply Hpeople. intros c H. symmetry in H. revert H.
      apply (people_path_ne outdir c).
  - rewrite lookup_union_r.
    + by rewrite lookup_insert_eq.
    + apply Hpeople. intros c H. symmetry in H. revert H.
      apply (people_path_ne outdir c).
  - intros p Hg Hc N1 N2 N3.
    assert (Hkm : ∀ (path : string → string) (docs : index2),
              Inj (=) (=) path →
              (∀ k, is_Some (docs !! k) → p ≠ path k) →
              (kmap path docs : index2) !! p = None).
    { intros path docs Hinj Hk.
      destruct ((kmap path docs : index2) !! p) as [x|] eqn:E; [|done].
      apply lookup_kmap_Some in E as (k & -> & Hx); [|done].
      destruct (Hk k); [by eexists|done]. }
    rewrite lookup_union_r by (apply Hkm; [apply _|done]).
    rewrite !lookup_insert_ne by done.
    rewrite lookup_union_r by (apply Hkm; [apply _|done]). done.
Qed.

(** Property X13.  A real run that succeeds writes the records of each paper group
    to the group's file under [papers/], the buckets of the people index
    to the file of their initial under [people/], and the volume, venue
    and SIG records to [volumes.yaml], [venues.yaml] and [sigs.yaml]; it
    leaves every other file as it was and creates nothing but the three
    directories. *)
Theorem real_run_files (a : Anthology) (outdir : string) (w w' : world)
    (recs : records) :
  export_anthology a outdir false w = (w', Ok recs) →
  (∀ g grp, rec_papers recs !! g = Some grp →
     files (w_fs w') !! papers_path outdir g = Some grp) ∧
  (∀ c bucket, rec_people recs !! c = Some bucket →
     files (w_fs w') !! people_path outdir c = Some bucket) ∧
  files (w_fs w') !! (outdir +:+ "/volumes.yaml")
    = Some (deref (w_heap w') <$> rec_volumes recs) ∧
  files (w_fs w') !! (outdir +:+ "/venues.yaml") = Some (rec_venues recs) ∧
  files (w_fs w') !! (outdir +:+ "/sigs.yaml") = Some (rec_sigs recs) ∧
  (∀ p, (∀ g, is_Some (rec_papers recs !! g) → p ≠ papers_path outdir g) →
        (∀ c, is_Some (rec_people recs !! c) → p ≠ people_path outdir c) →
        p ≠ outdir +:+ "/volumes.yaml" → p ≠ outdir +:+ "/venues.yaml" →
        p ≠ outdir +:+ "/sigs.yaml" →
        files (w_fs w') !! p = files (w_fs w) !! p) ∧
  dirs (w_fs w') = target_dirs outdir ∪ dirs (w_fs w).
Proof.
  intros (_ & _ & _ & _ & _ & Hfs & Hmk)%export_anthology_Ok. rewrite Hfs.
  destruct (dump_all_lookup outdir (w_heap w') recs (make_dirs outdir (w_fs w)).1)
    as (Hg & Hc & H1 & H2 & H3 & Hp).
  split; [|split; [|split; [|split; [|split; [|split]]]]]; try done.
  - intros g grp Hgrp. by rewrite Hg, Hgrp.
  - intros c b Hb. by rewrite Hc, Hb.
  - intros p Hpg Hpc N1 N2 N3. rewrite <- (make_dirs_files outdir (w_fs w)).
    by apply Hp.
  - destruct (dump_all_spec outdir (w_heap w') recs (make_dirs outdir (w_fs w)).1)
      as [_ ->]. by apply make_dirs_dirs.
Qed.

Lemma doe_export_real :
  export_anthology doe_anthology "out" false doe_world
  = (doe_world_written, Ok doe_records).
Proof. reflexivity. Qed.

Lemma real_run_files_witness :
  export_anthology doe_anthology "out" false doe_world
  = (doe_world_written, Ok doe_records) ∧
  files (w_fs doe_world_written) !! "out/papers/2020.acl.yaml"
    = Some {[ "2020.acl-main.1" := record_2020 ]} ∧
  files (w_fs doe_world_written) !! "out/sigs.yaml" = Some ∅ ∧
  files (w_fs doe_world_written) !! "out/README.md" = None.
Proof.
  destruct (real_run_files doe_anthology "out" doe_world _ doe_records
              doe_export_real) as (Hg & _ & _ & _ & Hs & Hp & _).
  split; [exact doe_export_real|]. split; [|split].
  - apply (Hg "2020.acl"). reflexivity.
  - exact Hs.
  - refine (eq_trans (Hp "out/README.md" _ _ _ _ _) _);
      [| |discriminate..|reflexivity].
    + intros g _ H. cbv in H. discriminate H.
    + intros c _ H. cbv in H. discriminate H.
Defined.

(** Property X14.  After a real run that succeeds on an anthology whose papers are
    keyed by their full ids, the record of every paper is in the file of
    the paper's top-level group, under the paper's full id. *)
Theorem paper_written_to_group_file (a : Anthology) (outdir : string)
    (w w' : world) (recs : records) (id : string) (paper : Paper) :
  NoDup ((papers a).*1) →
  (∀ id paper, (id, paper) ∈ papers a → paper_full_id paper = id) →
  export_anthology a outdir false w = (w', Ok recs) →
  (id, paper) ∈ papers a →
  ∃ grp r,
    files (w_fs w') !! papers_path outdir (paper_top_level_id paper) = Some grp ∧
    grp !! id = Some r ∧
    paper_record (people a) paper = Ok r.
Proof.
  intros Hnd Hkey Hex Hit.
  apply export_anthology_Ok in Hex as (Hps & _ & _ & _ & _ & Hfs & Hmk).
  rewrite Hfs. clear Hfs.
  destruct (dump_all_lookup outdir (w_heap w') recs (make_dirs outdir (w_fs w)).1)
    as (Hg & _).
  apply papers_loop_Ok in Hps as (es & HF & Hidx).
  assert (Hfull : es.*1.*2 = (papers a).*1).
  { clear Hidx Hit. rewrite <- list_fmap_compose.
    induction HF as [|[id' paper'] e items es He HF IH]; csimpl; [done|].
    unfold paper_entry in He. apply bind_Ok in He as (d & _ & [= <-]). simpl.
    rewrite IH.
    - f_equal. apply Hkey. left.
    - by apply NoDup_cons in Hnd as [_ ?].
    - intros ???. apply Hkey. by right. }
  assert (Hnd' : NoDup (es.*1)).
  { apply (NoDup_fmap_1 snd). by rewrite Hfull. }
  destruct (Forall2_elem_of_l _ _ _ _ HF Hit) as ([[g f] r] & Hin & He).
  unfold paper_entry in He. simpl in He.
  apply bind_Ok in He as (d & Hd & [= <- <- <-]).
  rewrite (Hkey id paper Hit) in Hin.
  pose proof (index2_get_fill es ∅ _ _ _ Hnd' Hin) as Hget.
  rewrite <- Hidx in Hget. unfold index2_get in Hget.
  destruct (rec_papers recs !! paper_top_level_id paper) as [grp|] eqn:Hgrp;
    [|done].
  simpl in Hget. exists grp, d. split; [by rewrite Hg, Hgrp|]. done.
Qed.

Lemma paper_written_to_group_file_witness :
  NoDup ((papers doe_anthology).*1) ∧
  export_anthology doe_anthology "out" false doe_world
  = (doe_world_written, Ok doe_records) ∧
  ("2019.acl-main.7", paper_2019) ∈ papers doe_anthology ∧
  ∃ grp, files (w_fs doe_world_written) !! "out/papers/2019.acl.yaml" = Some grp ∧
         grp !! "2019.acl-main.7" = Some record_2019.
Proof.
  assert (Hnd : NoDup ((papers doe_anthology).*1)).
  { refine (bool_decide_unpack _ _). vm_compute. exact I. }
  assert (Hin : ("2019.acl-main.7", paper_2019) ∈ papers doe_anthology).
  { apply list_elem_of_further, list_elem_of_here. }
  split; [exact Hnd|]. split; [exact doe_export_real|]. split; [exact Hin|].
  destruct (paper_written_to_group_file doe_anthology "out" doe_world _
              doe_records "2019.acl-main.7" paper_2019 Hnd doe_papers_keyed
              doe_export_real Hin) as (grp & r & Hf & Hg & Hr).
  exists grp. split; [exact Hf|].
  change (paper_record doe_people paper_2019 = Ok r) in Hr.
  rewrite doe_record_2019 in Hr. injection Hr as <-. exact Hg.
Defined.

(** ** The volume file *)

Lemma volumes_fill_is_Some (items : list (string * Volume))
    (idx : gmap string loc) (k : string) :
  is_Some (volumes_fill items idx !! k) ↔
  k ∈ (volume_full_id ∘ snd) <$> items ∨ is_Some (idx !! k).
Proof.
  revert idx. induction items as [|[id v] items IH]; intros idx.
  - simpl. rewrite elem_of_nil. tauto.
  - change (volumes_fill ((id, v) :: items) idx)
      with (volumes_fill items (<[volume_full_id v := volume_attrib v]> idx)).
    rewrite IH, fmap_cons, elem_of_cons. simpl.
    destruct (decide (volume_full_id v = k)) as [->|Hne].
    + rewrite lookup_insert_eq. split; [|right; by eexists]. intros _. by left; left.
    + rewrite lookup_insert_ne by done. split.
      * intros [?|?]; [left; by right|by right].
      * intros [[?|?]|?]; [by subst|by left|by right].
Qed.

(** Property X15.  [volumes.yaml] is keyed by the full ids of the volumes, not by
    the keys of [anthology.volumes], and maps each full id to the
    volume's own dictionary as the export has left it. *)
Theorem volumes_file_records (a : Anthology) (outdir : string)
    (w w' : world) (recs : records) (id : string) (volume : Volume) :
  export_anthology a outdir false w = (w', Ok recs) →
  NoDup ((volume_full_id ∘ snd) <$> volumes a) →
  (id, volume) ∈ volumes a →
  ∃ doc,
    files (w_fs w') !! (outdir +:+ "/volumes.yaml") = Some doc ∧
    doc !! volume_full_id volume
      = Some (deref (w_heap w') (volume_attrib volume)) ∧
    (∀ k, is_Some (doc !! k) ↔ k ∈ (volume_full_id ∘ snd) <$> volumes a).
Proof.
  intros Hex Hnd Hit.
  apply export_anthology_Ok in Hex as (_ & _ & Hvols & _ & _ & Hfs & Hmk).
  rewrite Hfs. clear Hfs.
  destruct (dump_all_lookup outdir (w_heap w') recs (make_dirs outdir (w_fs w)).1)
    as (_ & _ & Hv & _).
  apply volumes_loop_Ok in Hvols as (_ & _ & _ & Hidx).
  exists (deref (w_heap w') <$> rec_volumes recs). split; [exact Hv|].
  rewrite Hidx. split.
  - by rewrite lookup_fmap, (volumes_fill_lookup _ _ id volume Hnd Hit).
  - intros k. rewrite lookup_fmap, fmap_is_Some, volumes_fill_is_Some.
    rewrite lookup_empty. split; [intros [?|[? [=]]]; done|by left].
Qed.

Lemma volumes_file_records_witness :
  export_anthology doe_anthology "out" false doe_world
  = (doe_world_written, Ok doe_records) ∧
  NoDup ((volume_full_id ∘ snd) <$> volumes doe_anthology) ∧
  ("2020.acl-main", volume_2020) ∈ volumes doe_anthology ∧
  ∃ doc, files (w_fs doe_world_written) !! "out/volumes.yaml" = Some doc ∧
         doc !! "2020.acl-main" = Some (deref doe_heap_built 1%positive).
Proof.
  assert (Hnd : NoDup ((volume_full_id ∘ snd) <$> volumes doe_anthology)).
  { refine (bool_decide_unpack _ _). vm_compute. exact I. }
  assert (Hin : ("2020.acl-main", volume_2020) ∈ volumes doe_anthology).
  { apply list_elem_of_here. }
  split; [exact doe_export_real|]. split; [exact Hnd|]. split; [exact Hin|].
  destruct (volumes_file_records doe_anthology "out" doe_world _ doe_records
              "2020.acl-main" volume_2020 doe_export_real Hnd Hin)
    as (doc & Hf & Hd & _).
  exists doc. split; [exact Hf|exact Hd].
Defined.

(** ** The people index, read backwards *)

Lemma index2_fill_app (es1 es2 : list (string * string * dict)) (idx : index2) :
  index2_fill (es1 ++ es2) idx = index2_fill es2 (index2_fill es1 idx).
Proof. unfold index2_fill. apply foldl_app. Qed.

(** The last assignment to a pair of keys is the one that stays. *)
Lemma index2_get_fill_last (es1 es2 : list (string * string * dict))
    (e : string * string * dict) (idx : index2) :
  (∀ e', e' ∈ es2 → e'.1 ≠ e.1) →
  index2_get e.1.1 e.1.2 (index2_fill (es1 ++ e :: es2) idx) = Some e.2.
Proof.
  intros Hne. induction es2 as [|e' es2 IH] using rev_ind.
  - rewrite index2_fill_snoc, index2_get_set. by rewrite decide_True.
  - rewrite app_comm_cons, app_assoc, index2_fill_snoc, index2_get_set.
    rewrite decide_False.
    + apply IH. intros e'' He''. apply Hne, elem_of_app. by left.
    + intros [H1 H2]. apply (Hne e').
      * apply elem_of_app. right. apply list_elem_of_here.
      * destruct e' as [[??]?], e as [[??]?]. simpl in *. congruence.
Qed.

(** No group of a two-level index is empty. *)
Lemma index2_fill_nonempty (es : list (string * string * dict)) (idx : index2) :
  (∀ g grp, idx !! g = Some grp → grp ≠ ∅) →
  ∀ g grp, index2_fill es idx !! g = Some grp → grp ≠ ∅.
Proof.
  induction es as [|e es IH] using rev_ind; intros Hidx; [done|].
  rewrite index2_fill_snoc. unfold index2_set. intros g grp.
  destruct (decide (e.1.1 = g)) as [->|Hne].
  - rewrite lookup_insert_eq. intros [= <-]. apply insert_non_empty.
  - rewrite lookup_insert_ne by done. by apply IH.
Qed.

(** Property X16.  The people index read backwards: every record found in it sits
    in the bucket of the first character of its slug, carries that slug,
    and is the record of a listed name; when several names have one slug
    the record of the last of them is the one that stays; and no bucket
    is empty. *)
Theorem people_index_records (a : Anthology) (idx : index2) :
  build_people a = Ok idx →
  (∀ c slug data, index2_get c slug idx = Some data →
     first_char slug = Ok c ∧
     data !! "slug" = Some (VStr slug) ∧
     ∃ name, name ∈ names (people a) ∧ person_record a name = Ok (slug, data)) ∧
  (∀ pre name rest slug data,
     names (people a) = pre ++ name :: rest →
     person_record a name = Ok (slug, data) →
     (∀ other, other ∈ rest → get_slug (people a) other ≠ Some slug) →
     ∃ c, first_char slug = Ok c ∧ index2_get c slug idx = Some data) ∧
  (∀ c bucket, idx !! c = Some bucket → bucket ≠ ∅).
Proof.
  intros (es & HF & ->)%people_loop_Ok. split; [|split].
  - intros c slug data [Hin|Hin]%index2_get_fill_inv;
      [|by rewrite index2_get_empty in Hin].
    destruct (Forall2_elem_of_r _ _ _ _ HF Hin) as (name & Hn & He).
    apply person_entry_Ok in He as [Hr (ch & s & Hs & Hc)]. simpl in *.
    subst slug c. split; [done|]. split; [|by exists name].
    by eapply person_record_slug_field.
  - intros pre name rest slug data Hns Hr Hrest.
    rewrite Hns in HF.
    apply Forall2_app_inv_l in HF as (es1 & es' & HF1 & HF2 & ->).
    apply Forall2_cons_inv_l in HF2 as (e & es2 & He & HF2 & ->).
    apply person_entry_Ok in He as [Hr' (ch & s & Hs & Hc)].
    rewrite Hr in Hr'. injection Hr' as Hslug Hdata.
    exists e.1.1. split; [by rewrite Hslug, Hs, Hc|].
    rewrite Hslug, Hdata. apply index2_get_fill_last.
    intros e' He' Heq.
    destruct (Forall2_elem_of_r _ _ _ _ HF2 He') as (other & Ho & Hent).
    apply person_entry_Ok in Hent as [Hro _].
    apply person_record_slug in Hro. apply (Hrest other Ho).
    by rewrite Hro, Heq, <- Hslug.
  - apply index2_fill_nonempty. intros g grp. by rewrite lookup_empty.
Qed.

Lemma doe_build_people : build_people doe_anthology = Ok (rec_people doe_records).
Proof. reflexivity. Qed.

Lemma people_index_records_witness :
  build_people doe_anthology = Ok (rec_people doe_records) ∧
  index2_get "j" "j-doe" (rec_people doe_records) = Some j_doe_record ∧
  first_char "j-doe" = Ok "j" ∧
  j_doe_record !! "slug" = Some (VStr "j-doe").
Proof.
  split; [exact doe_build_people|].
  assert (Hget : index2_get "j" "j-doe" (rec_people doe_records)
                 = Some j_doe_record) by reflexivity.
  split; [exact Hget|].
  destruct (people_index_records doe_anthology _ doe_build_people) as (Hrec & _).
  destruct (Hrec "j" "j-doe" j_doe_record Hget) as (Hc & Hs & _).
  split; [exact Hc|exact Hs].
Defined.


(** ** What an exception tells *)

Lemma py_iter_Raise (v : value) (e : error) : py_iter v = Raise e → e = TypeError.
Proof. destruct v; simpl; congruence. Qed.

Lemma py_sorted_Raise {A} (key : A → value) (reverse : bool) (l : list A)
    (e : error) :
  py_sorted key reverse l = Raise e → e = TypeError.
Proof. unfold py_sorted. case_match; congruence. Qed.

Lemma py_del_Raise (k : string) (d : dict) (e : error) :
  py_del k d = Raise e → e = KeyError.
Proof. unfold py_del. case_match; congruence. Qed.

Lemma resolve_names_Raise (ppl : PersonIndex) (k : string) (d : dict) (e : error) :
  resolve_names ppl k d = Raise e → e = KeyError ∨ e = TypeError.
Proof.
  unfold resolve_names. destruct (d !! k) as [v|]; [|done].
  intros [H|(ns & _ & H)]%bind_Raise.
  - right. by eapply py_iter_Raise.
  - apply bind_Raise in H as [H|(slugs & _ & [=])]. left.
    apply mapM_Raise, Exists_exists in H as (n & _ & H).
    by eapply slug_of_Raise.
Qed.

Lemma paper_record_Raise (ppl : PersonIndex) (paper : Paper) (e : error) :
  paper_record ppl paper = Raise e → e = KeyError ∨ e = TypeError.
Proof.
  unfold paper_record. cbv zeta.
  intros [H|(d0 & _ & H)]%bind_Raise; [left; by eapply py_del_Raise|].
  apply bind_Raise in H as [H|(d1 & _ & H)]; by eapply resolve_names_Raise.
Qed.

Lemma papers_loop_Raise (ppl : PersonIndex) (items : list (string * Paper))
    (idx : index2) (e : error) :
  papers_loop ppl items idx = Raise e →
  ∃ pre id paper rest,
    items = pre ++ (id, paper) :: rest ∧
    Forall (λ it, is_ok (paper_record ppl it.2) = true) pre ∧
    paper_record ppl paper = Raise e.
Proof.
  revert idx. induction items as [|[id paper] items IH]; intros idx; [done|].
  simpl. intros [H|(d & Hd & H)]%bind_Raise.
  - exists [], id, paper, items. done.
  - destruct (IH _ H) as (pre & id' & paper' & rest & -> & Hpre & Hr).
    exists ((id, paper) :: pre), id', paper', rest. split; [done|].
    split; [|done]. constructor; [|done]. simpl. by rewrite Hd.
Qed.

Lemma volume_record_Raise (ppl : PersonIndex) (volume : Volume) (d d' : dict)
    (e : error) :
  volume_record ppl volume d = (d', Raise e) → e = KeyError ∨ e = TypeError.
Proof.
  unfold volume_record. cbv zeta.
  destruct (py_del _ _) as [d0|e0] eqn:Hdel;
    [|intros [= _ <-]; left; by eapply py_del_Raise].
  destruct (resolve_names ppl "author" _) as [d1|e1] eqn:Ha;
    [|intros [= _ <-]; by eapply resolve_names_Raise].
  destruct (resolve_names ppl "editor" _) as [d2|e2] eqn:He;
    [done|intros [= _ <-]; by eapply resolve_names_Raise].
Qed.

Lemma volumes_loop_Raise (ppl : PersonIndex) (items : list (string * Volume))
    (idx : gmap string loc) (h h' : heap) (e : error) :
  volumes_loop ppl items idx h = (h', Raise e) →
  ∃ pre id volume rest hp ip,
    items = pre ++ (id, volume) :: rest ∧
    volumes_loop ppl pre idx h = (hp, Ok ip) ∧
    (volume_record ppl volume (deref hp (volume_attrib volume))).2 = Raise e.
Proof.
  revert idx h. induction items as [|[id v] items IH]; intros idx h; [done|].
  simpl. destruct (volume_record ppl v (deref h (volume_attrib v)))
    as [d [[]|e']] eqn:Hr.
  - intros H. destruct (IH _ _ H)
      as (pre & id' & v' & rest & hp & ip & -> & Hpre & Hv).
    exists ((id, v) :: pre), id', v', rest, hp, ip. split; [done|].
    split; [|done]. simpl. by rewrite Hr.
  - intros [= <- <-]. exists [], id, v, items, h, idx. split; [done|].
    split; [done|]. by rewrite Hr.
Qed.

Lemma volume_year_Raise (vols : gmap string loc) (h : heap) (k : value)
    (e : error) :
  volume_year vols h k = Raise e → e = KeyError ∨ e = TypeError.
Proof.
  unfold volume_year. repeat case_match; intros [= <-]; auto.
Qed.

Lemma filter_year_Raise (vols : gmap string loc) (h : heap) (year : value)
    (ks : list value) (e : error) :
  filter_year vols h year ks = Raise e → e = KeyError ∨ e = TypeError.
Proof.
  induction ks as [|k ks IH]; [done|]. simpl.
  intros [H|(y & _ & H)]%bind_Raise; [by eapply volume_year_Raise|].
  apply bind_Raise in H as [H|(sel & _ & [=])]. by apply IH.
Qed.

Lemma volumes_of_year_Raise (vols : gmap string loc) (h : heap) (data : dict)
    (year : value) (e : error) :
  volumes_of_year vols h data year = Raise e → e = KeyError ∨ e = TypeError.
Proof.
  unfold volumes_of_year. destruct (data !! "volumes") as [v|]; [|intros [= <-]; auto].
  intros [H|(ks & _ & H)]%bind_Raise; [right; by eapply py_iter_Raise|].
  apply bind_Raise in H as [H|(sel & _ & H)]; [by eapply filter_year_Raise|].
  apply bind_Raise in H as [H|(sorted & _ & [=])]. right. by eapply py_sorted_Raise.
Qed.

Lemma by_year_loop_Raise (vols : gmap string loc) (h : heap) (data : dict)
    (years : list value) (acc : list (value * value)) (e : error) :
  by_year_loop vols h data years acc = Raise e → e = KeyError ∨ e = TypeError.
Proof.
  revert acc. induction years as [|y years IH]; intros acc; [done|]. simpl.
  intros [H|(v & _ & H)]%bind_Raise; [by eapply volumes_of_year_Raise|].
  apply bind_Raise in H as [H|(acc' & _ & H)]; [|by eapply IH].
  unfold items_set in H. destruct (hashable y); [done|]. injection H as <-. auto.
Qed.

Lemma sorted_years_Raise (data : dict) (e : error) :
  sorted_years data = Raise e → e = KeyError ∨ e = TypeError.
Proof.
  unfold sorted_years. destruct (data !! "years") as [v|]; [|intros [= <-]; auto].
  intros [H|(ys & _ & H)]%bind_Raise; right;
    [by eapply py_iter_Raise|by eapply py_sorted_Raise].
Qed.

Lemma venue_record_Raise (vols : gmap string loc) (h : heap) (fields : dict)
    (e : error) :
  venue_record vols h fields = Raise e → e = KeyError ∨ e = TypeError.
Proof.
  unfold venue_record. cbv zeta.
  intros [H|(ys & _ & H)]%bind_Raise; [by eapply sorted_years_Raise|].
  apply bind_Raise in H as [H|(by_year & _ & H)]; [by eapply by_year_loop_Raise|].
  apply bind_Raise in H as [H|(ys' & _ & H)]; [by eapply sorted_years_Raise|].
  left. by eapply py_del_Raise.
Qed.

Lemma venues_loop_Raise (vols : gmap string loc) (h : heap)
    (items : list (string * dict)) (idx : gmap string dict) (e : error) :
  venues_loop vols h items idx = Raise e → e = KeyError ∨ e = TypeError.
Proof.
  revert idx. induction items as [|[acr fields] items IH]; intros idx; [done|].
  simpl. intros [H|(d & _ & H)]%bind_Raise; [by eapply venue_record_Raise|].
  by eapply IH.
Qed.

Lemma slug_of_name_Raise (ppl : PersonIndex) (n : PersonName) (e : error) :
  slug_of_name ppl n = Raise e → e = KeyError.
Proof. apply slug_of_Raise. Qed.

Lemma sorted_papers_Raise (a : Anthology) (name : PersonName) (e : error) :
  sorted_papers a name = Raise e →
  e = TypeError ∨
  e = AttributeError ∧
  ∃ p, p ∈ get_papers (people a) name ∧ assoc_get p (papers a) = None.
Proof.
  unfold sorted_papers. cbv zeta.
  intros [H|(keys & _ & H)]%bind_Raise.
  - right. apply mapM_Raise, Exists_exists in H as (p & Hp & H).
    unfold year_key in H. destruct (assoc_get p (papers a)) eqn:Hget; [done|].
    injection H as <-. split; [done|]. by exists p.
  - left. apply bind_Raise in H as [H|(ps & _ & [=])]. by eapply py_sorted_Raise.
Qed.

Lemma person_record_Raise (a : Anthology) (name : PersonName) (e : error) :
  person_record a name = Raise e →
  e = KeyError ∨ e = TypeError ∨
  e = AttributeError ∧ is_canonical (people a) name = true ∧
  ∃ p, p ∈ get_papers (people a) name ∧ assoc_get p (papers a) = None.
Proof.
  unfold person_record. cbv zeta.
  intros [H|(slug & _ & H)]%bind_Raise; [left; by eapply slug_of_name_Raise|].
  destruct (is_canonical (people a) name) eqn:Hc.
  - apply bind_Raise in H as [H|(ps & _ & H)].
    { apply sorted_papers_Raise in H as [->|[-> Hp]]; auto. }
    apply bind_Raise in H as [H|(cs & _ & H)].
    { left. unfold sorted_coauthors in H.
      apply bind_Raise in H as [H|(? & _ & [=])].
      apply mapM_Raise, Exists_exists in H as (co & _ & H).
      apply bind_Raise in H as [H|(? & _ & [=])].
      by eapply slug_of_name_Raise. }
    destruct (has_variants (people a) name); [|done].
    apply bind_Raise in H as [H|(? & _ & [=])]. left.
    apply mapM_Raise, Exists_exists in H as (v & _ & H).
    by eapply slug_of_name_Raise.
  - apply bind_Raise in H as [H|(? & _ & [=])]. left.
    by eapply slug_of_name_Raise.
Qed.

Lemma person_entry_Raise (a : Anthology) (name : PersonName) (e : error) :
  person_entry a name = Raise e →
  (e = IndexError → get_slug (people a) name = Some EmptyString) ∧
  (e = AttributeError →
     is_canonical (people a) name = true ∧
     ∃ p, p ∈ get_papers (people a) name ∧ assoc_get p (papers a) = None).
Proof.
  unfold person_entry. intros [H|([slug data] & Hr & H)]%bind_Raise.
  - apply person_record_Raise in H as [->|[->|(-> & Hc & Hp)]]; split; done.
  - apply bind_Raise in H as [H|(? & _ & [=])].
    destruct slug; [|done]. injection H as <-. split; [|done].
    intros _. by eapply person_record_slug.
Qed.

Lemma people_loop_Raise (a : Anthology) (ns : list PersonName) (idx : index2)
    (e : error) :
  people_loop a ns idx = Raise e →
  ∃ pre name rest,
    ns = pre ++ name :: rest ∧
    Forall (λ n, is_ok (person_entry a n) = true) pre ∧
    person_entry a name = Raise e.
Proof.
  revert idx. induction ns as [|name ns IH]; intros idx; [done|].
  rewrite people_loop_cons. intros [H|(en & Hen & H)]%bind_Raise.
  - exists [], name, ns. done.
  - destruct (IH _ H) as (pre & name' & rest & -> & Hpre & Hr).
    exists (name :: pre), name', rest. split; [done|]. split; [|done].
    constructor; [|done]. by rewrite Hen.
Qed.

(** Property X17.  What two of the exceptions tell about the object graph.  The
    export raises IndexError only when a listed name has the empty string
    as its slug, and AttributeError only when the papers of a canonical
    name include an id that [anthology.papers] does not know. *)
Theorem export_error_causes (a : Anthology) (outdir : string) (dryrun : bool)
    (w : world) :
  ((export_anthology a outdir dryrun w).2 = Raise IndexError →
     ∃ name, name ∈ names (people a) ∧
             get_slug (people a) name = Some EmptyString) ∧
  ((export_anthology a outdir dryrun w).2 = Raise AttributeError →
     ∃ name p, name ∈ names (people a) ∧
               is_canonical (people a) name = true ∧
               p ∈ get_papers (people a) name ∧
               assoc_get p (papers a) = None).
Proof.
  assert (Hcases : ∀ e, (export_anthology a outdir dryrun w).2 = Raise e →
            e = OSError ∨ e = KeyError ∨ e = TypeError ∨
            ∃ name, name ∈ names (people a) ∧ person_entry a name = Raise e).
  { intros e. unfold export_anthology, build_records.
    pose proof (make_dirs_spec outdir (w_fs w)) as Hmk.
    destruct (make_dirs outdir (w_fs w)) as [fs [[]|e0]].
    2:{ simpl. intros [= <-].
        destruct Hmk as (_ & _ & _ & _ & [([=] & _)|([= ->] & _)]). auto. }
    clear Hmk.
    destruct (build_papers a) as [ps|e1] eqn:Hps.
    2:{ simpl. intros [= <-].
        apply papers_loop_Raise in Hps as (? & ? & paper & ? & _ & _ & Hr).
        apply paper_record_Raise in Hr as [->| ->]; auto. }
    destruct (build_people a) as [pp|e2] eqn:Hpp.
    2:{ simpl. intros [= <-].
        apply people_loop_Raise in Hpp as (pre & name & rest & Hns & _ & Hr).
        do 3 right. exists name. split; [|done].
        rewrite Hns. apply elem_of_app. right. apply list_elem_of_here. }
    destruct (build_volumes a (w_heap w)) as [h' [vols|e3]] eqn:Hv.
    2:{ simpl. intros [= <-].
        apply volumes_loop_Raise in Hv
          as (? & ? & v & ? & hp & ? & _ & _ & Hr).
        destruct (volume_record _ v _) as [d' r] eqn:Hvr. simpl in Hr. subst r.
        apply volume_record_Raise in Hvr as [->| ->]; auto. }
    destruct (build_venues a vols h') as [vn|e4] eqn:Hvn; [done|].
    simpl. intros [= <-].
    apply venues_loop_Raise in Hvn as [->| ->]; auto. }
  split; intros H; apply Hcases in H as [[=]|[[=]|[[=]|(name & Hn & He)]]];
    apply person_entry_Raise in He as [Hi Ha].
  - exists name. split; [done|]. by apply Hi.
  - destruct Ha as (Hc & p & Hp & Hget); [done|]. by exists name, p.
Qed.

Lemma export_error_causes_witness :
  (export_anthology blank_anthology "out" true empty_world).2 = Raise IndexError ∧
  ∃ name, name ∈ names (people blank_anthology) ∧
          get_slug (people blank_anthology) name = Some EmptyString.
Proof.
  assert (H : (export_anthology blank_anthology "out" true empty_world).2
              = Raise IndexError) by reflexivity.
  split; [exact H|].
  exact (proj1 (export_error_causes blank_anthology "out" true empty_world) H).
Defined.

(** ** The debug log *)

Lemma papers_log_Ok (ppl : PersonIndex) (items : list (string * Paper))
    (idx idx' : index2) :
  papers_loop ppl items idx = Ok idx' →
  papers_log ppl items = processing_paper <$> items.*1.
Proof.
  revert idx. induction items as [|[id paper] items IH]; intros idx; [done|].
  simpl. intros (d & Hd & H)%bind_Ok. rewrite Hd. csimpl. f_equal. by eapply IH.
Qed.

Lemma papers_log_stops (ppl : PersonIndex) (pre rest : list (string * Paper))
    (id : string) (paper : Paper) (e : error) :
  Forall (λ it, is_ok (paper_record ppl it.2) = true) pre →
  paper_record ppl paper = Raise e →
  papers_log ppl (pre ++ (id, paper) :: rest)
  = processing_paper <$> (pre.*1 ++ [id]).
Proof.
  intros Hpre Hr. induction Hpre as [|[id' paper'] pre Hok _ IH]; simpl.
  - by rewrite Hr.
  - simpl in Hok. destruct (paper_record ppl paper'); [|done]. csimpl.
    by rewrite IH.
Qed.

Lemma people_log_Ok (a : Anthology) (ns : list PersonName) (idx idx' : index2) :
  people_loop a ns idx = Ok idx' →
  people_log a ns = processing_person <$> ns.
Proof.
  revert idx. induction ns as [|name ns IH]; intros idx; [done|].
  rewrite people_loop_cons. intros (en & Hen & H)%bind_Ok. simpl.
  rewrite Hen. csimpl. f_equal. by eapply IH.
Qed.

Lemma people_log_stops (a : Anthology) (pre rest : list PersonName)
    (name : PersonName) (e : error) :
  Forall (λ n, is_ok (person_entry a n) = true) pre →
  person_entry a name = Raise e →
  people_log a (pre ++ name :: rest) = processing_person <$> (pre ++ [name]).
Proof.
  intros Hpre Hr. induction Hpre as [|name' pre Hok _ IH]; simpl.
  - by rewrite Hr.
  - destruct (person_entry a name'); [|done]. csimpl. by rewrite IH.
Qed.

Lemma volumes_log_Ok (ppl : PersonIndex) (items : list (string * Volume))
    (idx idx' : gmap string loc) (h h' : heap) :
  volumes_loop ppl items idx h = (h', Ok idx') →
  volumes_log ppl items h = processing_volume <$> items.*1.
Proof.
  revert idx h. induction items as [|[id v] items IH]; intros idx h; [done|].
  simpl. destruct (volume_record ppl v (deref h (volume_attrib v)))
    as [d [[]|e]]; [|done].
  intros H. csimpl. f_equal. by eapply IH.
Qed.

Lemma volumes_log_stops (ppl : PersonIndex) (pre rest : list (string * Volume))
    (id : string) (volume : Volume) (idx ip : gmap string loc) (h hp : heap)
    (e : error) :
  volumes_loop ppl pre idx h = (hp, Ok ip) →
  (volume_record ppl volume (deref hp (volume_attrib volume))).2 = Raise e →
  volumes_log ppl (pre ++ (id, volume) :: rest) h
  = processing_volume <$> (pre.*1 ++ [id]).
Proof.
  revert idx h. induction pre as [|[id' v'] pre IH]; intros idx h; simpl.
  - intros [= <- _] Hr.
    destruct (volume_record ppl volume _) as [d r]. simpl in Hr. by subst r.
  - destruct (volume_record ppl v' (deref h (volume_attrib v')))
      as [d [[]|e']]; [|done].
    intros H Hr. csimpl. f_equal. by eapply IH.
Qed.

(** Property X18.  When the three loops that log complete, and so in every export
    that succeeds, the debug log holds one message per paper, then one
    per listed name, then one per volume, each in the order of the
    iteration; papers and volumes are named by the key of the item. *)
Theorem export_log_complete (a : Anthology) (h h' : heap) (ps pp : index2)
    (vols : gmap string loc) :
  build_papers a = Ok ps →
  build_people a = Ok pp →
  build_volumes a h = (h', Ok vols) →
  export_log a h
  = (processing_paper <$> (papers a).*1) ++
    (processing_person <$> names (people a)) ++
    (processing_volume <$> (volumes a).*1).
Proof.
  intros Hps Hpp Hv. unfold export_log. rewrite Hps, Hpp.
  rewrite (papers_log_Ok _ _ _ _ Hps), (people_log_Ok _ _ _ _ Hpp).
  by rewrite (volumes_log_Ok _ _ _ _ _ _ Hv).
Qed.

Lemma export_log_complete_witness :
  build_papers doe_anthology = Ok doe_papers_index ∧
  build_people doe_anthology = Ok (rec_people doe_records) ∧
  build_volumes doe_anthology doe_heap = (doe_heap_built, Ok doe_volumes_index) ∧
  export_log doe_anthology doe_heap
  = [processing_paper "2020.acl-main.1"; processing_paper "2019.acl-main.7";
     processing_person jane; processing_person j_doe;
     processing_volume "2020.acl-main"; processing_volume "2019.acl-main"].
Proof.
  assert (H1 : build_papers doe_anthology = Ok doe_papers_index) by reflexivity.
  assert (H3 : build_volumes doe_anthology doe_heap
               = (doe_heap_built, Ok doe_volumes_index)) by reflexivity.
  split; [exact H1|]. split; [exact doe_build_people|]. split; [exact H3|].
  exact (export_log_complete doe_anthology doe_heap doe_heap_built _ _ _
           H1 doe_build_people H3).
Defined.

(** Property X19.  When one of the three loops that log raises, the last message
    of the debug log names the item at which it raised: the paper whose
    record failed, the name whose record or bucket failed, or the volume
    whose record failed on the dictionaries as the volumes before it had
    left them.  Every item before it has been logged, none after it. *)
Theorem export_log_names_failure (a : Anthology) (h : heap) :
  (∀ e, build_papers a = Raise e →
     ∃ pre id paper rest,
       papers a = pre ++ (id, paper) :: rest ∧
       paper_record (people a) paper = Raise e ∧
       export_log a h = processing_paper <$> (pre.*1 ++ [id])) ∧
  (∀ ps e, build_papers a = Ok ps → build_people a = Raise e →
     ∃ pre name rest,
       names (people a) = pre ++ name :: rest ∧
       person_entry a name = Raise e ∧
       export_log a h
       = (processing_paper <$> (papers a).*1) ++
         (processing_person <$> (pre ++ [name]))) ∧
  (∀ ps pp h' e,
     build_papers a = Ok ps → build_people a = Ok pp →
     build_volumes a h = (h', Raise e) →
     ∃ pre id volume rest hp ip,
       volumes a = pre ++ (id, volume) :: rest ∧
       volumes_loop (people a) pre ∅ h = (hp, Ok ip) ∧
       (volume_record (people a) volume (deref hp (volume_attrib volume))).2
       = Raise e ∧
       export_log a h
       = (processing_paper <$> (papers a).*1) ++
         (processing_person <$> names (people a)) ++
         (processing_volume <$> (pre.*1 ++ [id]))).
Proof.
  split; [|split].
  - intros e Hps. unfold export_log. rewrite Hps, app_nil_r.
    apply papers_loop_Raise in Hps as (pre & id & paper & rest & Hit & Hpre & Hr).
    exists pre, id, paper, rest. split; [done|]. split; [done|].
    rewrite Hit. by eapply papers_log_stops.
  - intros ps e Hps Hpp. unfold export_log. rewrite Hps, Hpp, app_nil_r.
    rewrite (papers_log_Ok _ _ _ _ Hps).
    apply people_loop_Raise in Hpp as (pre & name & rest & Hns & Hpre & Hr).
    exists pre, name, rest. split; [done|]. split; [done|].
    rewrite Hns. f_equal. by eapply people_log_stops.
  - intros ps pp h' e Hps Hpp Hv. unfold export_log. rewrite Hps, Hpp.
    rewrite (papers_log_Ok _ _ _ _ Hps), (people_log_Ok _ _ _ _ Hpp).
    apply volumes_loop_Raise in Hv
      as (pre & id & v & rest & hp & ip & Hit & Hpre & Hr).
    exists pre, id, v, rest, hp, ip. split; [done|]. split; [done|].
    split; [done|]. rewrite Hit. do 2 f_equal.
    by eapply volumes_log_stops.
Qed.

Lemma export_log_names_failure_witness :
  build_people undated_anthology = Raise TypeError ∧
  ∃ pre name rest,
    names (people undated_anthology) = pre ++ name :: rest ∧
    person_entry undated_anthology name = Raise TypeError ∧
    export_log undated_anthology ∅
    = (processing_paper <$> (papers undated_anthology).*1) ++
      (processing_person <$> (pre ++ [name])).
Proof.
  assert (Hpp : build_people undated_anthology = Raise TypeError) by reflexivity.
  assert (Hps : ∃ ps, build_papers undated_anthology = Ok ps)
    by (eexists; reflexivity).
  destruct Hps as [ps Hps]. split; [exact Hpp|].
  exact (proj1 (proj2 (export_log_names_failure undated_anthology ∅))
           ps TypeError Hps Hpp).
Defined.

(** ** The progress bar *)

Lemma map_fold_count {A} (m : gmap string A) (n : nat) :
  map_fold (λ _ (_ : A) k, k + 1) n m = n + size m.
Proof.
  induction m as [|k x m Hk Hfresh IH] using map_first_key_ind.
  - by rewrite map_fold_empty, map_size_empty, Nat.add_0_r.
  - rewrite map_fold_insert_first_key by done.
    rewrite IH, map_size_insert_None by done. lia.
Qed.

(** Property X20.  The progress bar of a real run ends exactly at its total: the
    steps of the dump, one per paper file, five for the volumes, one for
    the venues, one for the SIGs and one per people file, add up to the
    number of paper groups plus the number of people buckets plus 7. *)
Theorem progress_bar_completes (r : records) :
  progress_steps r = progress_total r.
Proof.
  unfold progress_steps, progress_total. cbv zeta.
  rewrite !map_fold_count. lia.
Qed.
